(** * Orbital state and collision-risk engine: a shallow embedding

    The development follows the Python sources under [server/]:

    - [tle_store.py]  : [TLERecord], [TLEStore] (module [tle_store]);
    - [propagate.py]  : [propagate_positions]   (module [propagate]);
    - [risk.py]       : [_neighbors], [_bilinear], [flux_ordem_like],
                        [annual_collision_probability] (module [risk]);
    - [main.py]       : [filter_debris_by_proximity] (module [proximity]),
                        [fetch_nasa_debris] (module [nasa_debris]), and the
                        computing parts of the handlers [api_debris_nasa]
                        (module [debris_handler]) and [api_risk_ordem]
                        (module [risk_handler]);
    - [nasa.py]       : [latest_kp_index] (module [nasa]).

    The module [binary64] holds the float arithmetic.  The modules
    [tle_text] and [proximity_spec] hold the notions that the design
    document uses to state its properties, [samples] the concrete inputs at
    which properties are evaluated.  The module [tle_parse] gives
    the loader's loop as a structural parser of the line list, and
    [tle_store_ordered] the store as the insertion-ordered dictionary that
    [list_objects] observes.  The properties themselves follow, in modules
    of facts per source function.

    Conventions of the embedding.

    - A Python call either returns a value or raises; this is the type
      [result], with one constructor per exception class that the modelled
      code can raise.
    - A Python [str] is a [string] whose characters are code points below 256.
    - A Python [int] is a [Z].
    - A [datetime] is the number of whole seconds after
      0001-01-01T00:00:00; [datetime] and [timedelta] have their ranges, and
      arithmetic that leaves them raises [OverflowError].
    - A Python [float] in [annual_collision_probability] and in the risk
      level of [api_risk_ordem] is a binary64 number (module [binary64]): a
      real number that every operation rounds to the nearest float, ties to
      even, with the subnormal range, the two infinities and NaN; the sign
      of zero is not kept.  [math.exp] is taken to be correctly rounded.
    - Elsewhere a Python [float] is idealised: the flux table, which only
      adds, multiplies, divides and compares, is computed over [Q]; the
      proximity filter, which calls [math.cos], [math.sin] and [math.sqrt],
      over [R].  A property of these two that depends on the last digits of
      a computed number is stated with the margin that the rounding of the
      binary64 arithmetic needs. *)

From Stdlib Require Import ZArith List String Ascii Bool QArith Qabs Qminmax Reals.
From Stdlib Require Import Lia Psatz.
From Stdlib Require Import Permutation Sorted.
From Stdlib Require DecimalString.
From stdpp Require base gmap.
Import ListNotations.

(** ** Exceptions and results *)

Inductive exn : Set :=
| IndexError
| OverflowError
| TypeError
| ValueError
| ZeroDivisionError.

Inductive result (A : Type) : Type :=
| Ok (a : A)
| Raise (e : exn).

Arguments Ok {A} a.
Arguments Raise {A} e.

Definition bind {A B : Type} (r : result A) (k : A -> result B) : result B :=
  match r with
  | Ok a => k a
  | Raise e => Raise e
  end.

Notation "'let*' x ':=' r 'in' k" := (bind r (fun x => k))
  (at level 10, x name, r at level 100, k at level 200).

(** [l[i]] for a non-negative index. *)
Definition getitem {A : Type} (l : list A) (i : nat) : result A :=
  match nth_error l i with
  | Some x => Ok x
  | None => Raise IndexError
  end.

(** ** Built-in string operations used by the loader *)

Module pystr.

Local Open Scope string_scope.
Local Open Scope nat_scope.

(** [str.isspace] on one character, for code points below 256:
    TAB..CR, FS..US, SPACE, NEL, NBSP. *)
Definition is_space (c : ascii) : bool :=
  let n := nat_of_ascii c in
  ((9 <=? n) && (n <=? 13)) || ((28 <=? n) && (n <=? 32))
  || (n =? 133) || (n =? 160).

(** The line boundaries of [str.splitlines] below 256:
    LF, VT, FF, CR, FS, GS, RS, NEL. *)
Definition is_line_boundary (c : ascii) : bool :=
  let n := nat_of_ascii c in
  ((10 <=? n) && (n <=? 13)) || ((28 <=? n) && (n <=? 30)) || (n =? 133).

Definition is_digit (c : ascii) : bool :=
  let n := nat_of_ascii c in (48 <=? n) && (n <=? 57).

Definition CR : ascii := ascii_of_nat 13.
Definition LF : ascii := ascii_of_nat 10.

(** [s.splitlines()]: the lines of [s] without their terminators; CR LF is
    one terminator, and a terminator at the very end opens no further line. *)
Fixpoint splitlines (s : string) : list string :=
  match s with
  | EmptyString => []
  | String c rest =>
      if is_line_boundary c then
        match rest with
        | String c' rest' =>
            if Ascii.eqb c CR && Ascii.eqb c' LF
            then EmptyString :: splitlines rest'
            else EmptyString :: splitlines rest
        | EmptyString => [EmptyString]
        end
      else
        match splitlines rest with
        | [] => [String c EmptyString]
        | l :: ls => String c l :: ls
        end
  end.

Fixpoint lstrip (s : string) : string :=
  match s with
  | EmptyString => EmptyString
  | String c rest => if is_space c then lstrip rest else s
  end.

Fixpoint rstrip (s : string) : string :=
  match s with
  | EmptyString => EmptyString
  | String c rest =>
      match rstrip rest with
      | EmptyString => if is_space c then EmptyString else String c EmptyString
      | r => String c r
      end
  end.

(** [s.strip()] *)
Definition strip (s : string) : string := rstrip (lstrip s).

(** Truth value of a [str]: non-empty. *)
Definition truthy (s : string) : bool :=
  match s with
  | EmptyString => false
  | _ => true
  end.

(** [s.startswith(p)] *)
Definition startswith (s p : string) : bool := prefix p s.

(** The longest run of decimal digits at the head of [s]. *)
Fixpoint digits_prefix (s : string) : string :=
  match s with
  | String c rest => if is_digit c then String c (digits_prefix rest) else EmptyString
  | EmptyString => EmptyString
  end.

(** [int(ds)] for a run of decimal digits, most significant first. *)
Fixpoint int_of_digits (acc : Z) (ds : string) : Z :=
  match ds with
  | EmptyString => acc
  | String c rest =>
      int_of_digits (10 * acc + Z.of_nat (nat_of_ascii c - 48))%Z rest
  end.

End pystr.

(** ** tle_store.py *)

Module tle_store.

Import stdpp.base stdpp.gmap.
Import pystr.
Local Open Scope string_scope.
Local Open Scope nat_scope.

Record TLERecord : Type := mkTLERecord {
  name : string;
  line1 : string;
  line2 : string;
  norad_id : Z
}.

(** [TLEStore._by_id] *)
Abbreviation TLEStore := (gmap Z TLERecord).

(** [TLEStore.clear] *)
Definition clear (_ : TLEStore) : TLEStore := ∅.

(** [re.match(r"1\s+(\d+)", line1)] followed by [int(m.group(1))].
    Whitespace and digits are disjoint classes, so the greedy match is the
    only candidate.  The [except] arm of the source maps any failure of the
    conversion to [None] as well. *)
Definition _extract_norad (line1 : string) : option Z :=
  match line1 with
  | String c (String w rest) =>
      if Ascii.eqb c "1"%char && is_space w then
        match digits_prefix (lstrip rest) with
        | EmptyString => None
        | ds => Some (int_of_digits 0%Z ds)
        end
      else None
  | _ => None
  end.

(** [lines = [l.strip() for l in tle_text.splitlines() if l.strip()]] *)
Definition lines_of (tle_text : string) : list string :=
  List.map strip (List.filter (fun l => truthy (strip l)) (splitlines tle_text)).

(** The variables of the [while] loop of [load_from_text]. *)
Record loop_state : Type := mkState {
  idx : nat;
  count : Z;
  by_id : TLEStore
}.

(** Lines 44-50: the block is stored under the id read from [l1]; a line
    without an id leaves the store and the count alone. *)
Definition ingest (nm l1 l2 : string) (i' : nat) (st : loop_state) : loop_state :=
  match _extract_norad l1 with
  | None => mkState i' (count st) (by_id st)
  | Some norad =>
      mkState i' (count st + 1)%Z
              (<[norad := mkTLERecord nm l1 l2 norad]> (by_id st))
  end.

(** One pass through the body of the [while] loop (lines 27-50).  Every
    subscript goes through [getitem], so a subscript out of range would
    surface as [Raise IndexError]. *)
Definition loop_body (lines : list string) (st : loop_state) : result loop_state :=
  let i := idx st in
  let* nm := getitem lines i in
  let* l1 := getitem lines (i + 1) in
  let* l2 := getitem lines (i + 2) in
  if negb (startswith l1 "1 " && startswith l2 "2 ") then
    let* a := getitem lines i in
    if startswith a "1 " then
      let* b := getitem lines (i + 1) in
      if startswith b "2 " then
        let* a' := getitem lines i in
        let* b' := getitem lines (i + 1) in
        Ok (ingest "UNKNOWN" a' b' (i + 2) st)
      else Ok (mkState (i + 1) (count st) (by_id st))
    else Ok (mkState (i + 1) (count st) (by_id st))
  else Ok (ingest nm l1 l2 (i + 3) st).

(** [while i + 2 < len(lines): body].  [None] means that the fuel ran out
    before the guard became false. *)
Fixpoint while_loop (fuel : nat) (lines : list string) (st : loop_state)
  : option (result loop_state) :=
  if (idx st + 2 <? List.length lines)%nat then
    match fuel with
    | O => None
    | S fuel' =>
        match loop_body lines st with
        | Ok st' => while_loop fuel' lines st'
        | Raise e => Some (Raise e)
        end
    end
  else Some (Ok st).

(** [TLEStore.load_from_text]: the store after the call and the returned
    count.  The index grows on every pass, so [len(lines)] passes suffice. *)
Definition load_from_text (store : TLEStore) (tle_text : string)
  : option (result (TLEStore * Z)) :=
  let lines := lines_of tle_text in
  match while_loop (List.length lines) lines (mkState 0 0%Z store) with
  | Some (Ok st) => Some (Ok (by_id st, count st))
  | Some (Raise e) => Some (Raise e)
  | None => None
  end.

(** [TLEStore.get] *)
Definition get (store : TLEStore) (norad : Z) : option TLERecord :=
  store !! norad.

End tle_store.


(** ** Lines and blocks of a TLE text *)

Module tle_text.

Import pystr.
Local Open Scope string_scope.

Definition nl : string := String LF "".

(** A string without line boundaries. *)
Fixpoint single_line (s : string) : bool :=
  match s with
  | EmptyString => true
  | String c rest => negb (is_line_boundary c) && single_line rest
  end.

(** A line as it stands in a TLE file: not empty, on one line, and without
    blanks around it. *)
Definition bare_line (s : string) : Prop :=
  s <> "" /\ single_line s = true /\ strip s = s.

(** The text of one block: name line, line 1, line 2, each terminated. *)
Definition three_line_block (nm l1 l2 : string) : string :=
  nm ++ nl ++ l1 ++ nl ++ l2 ++ nl.

End tle_text.

(** ** propagate.py *)

Module propagate.

Import tle_store.
Local Open Scope Z_scope.

(** One element of the returned list.  The key ["t"] holds the ISO rendering
    of the sample's [datetime]; the model keeps the instant itself, as the
    number of whole seconds of its UTC wall clock after
    0001-01-01T00:00:00, the least [datetime]. *)
Record sample : Type := mkSample {
  t : Z;
  lat_deg : R;
  lon_deg : R;
  alt_km : R
}.

(** [range(n)] *)
Definition range (n : Z) : list Z := List.map Z.of_nat (seq 0 (Z.to_nat n)).

(** [datetime.min] and [datetime.max] (9999-12-31T23:59:59.999999) on that
    scale. *)
Definition datetime_min : Z := 0.
Definition datetime_max : Z := 315537897599.

(** [timedelta(seconds=s)] for an integer [s]: the days of the normalised
    value must lie within [-999999999, 999999999]. *)
Definition timedelta (s : Z) : result Z :=
  if (-999999999 <=? s / 86400) && (s / 86400 <=? 999999999) then Ok s
  else Raise OverflowError.

(** [start + delta]: the sum must be a [datetime]. *)
Definition datetime_add (start delta : Z) : result Z :=
  if (datetime_min <=? start + delta) && (start + delta <=? datetime_max)
  then Ok (start + delta)
  else Raise OverflowError.

(** Whether [start + timedelta(seconds=s)] is evaluated without an
    exception. *)
Definition reachable (start s : Z) : bool :=
  ((-999999999 <=? s / 86400) && (s / 86400 <=? 999999999))
  && ((datetime_min <=? start + s) && (start + s <=? datetime_max)).

Section Skyfield.

(** The orbital library: the constructor [EarthSatellite(line1, line2,
    name, ts)], which may reject its arguments, and the composition
    [wgs84.subpoint(sat.at(ts.from_datetime(t)))] read off as latitude,
    longitude (degrees) and elevation (km). *)
Variable satellite : Type.
Variable EarthSatellite : string -> string -> string -> result satellite.
Variable subpoint : satellite -> Z -> R * R * R.

(** The body of the loop for the indices [ks] in turn; the first exception
    ends the call. *)
Fixpoint collect (sat : satellite) (start_time_utc step_seconds : Z)
    (ks : list Z) : result (list sample) :=
  match ks with
  | [] => Ok []
  | k :: rest =>
      let* delta := timedelta (k * step_seconds) in
      let* t := datetime_add start_time_utc delta in
      let '(lat, lon, alt) := subpoint sat t in
      let* samples := collect sat start_time_utc step_seconds rest in
      Ok (mkSample t lat lon alt :: samples)
  end.

Definition propagate_positions (tle_record : TLERecord) (start_time_utc : Z)
    (minutes step_seconds : Z) : result (list sample) :=
  let* sat := EarthSatellite (line1 tle_record) (line2 tle_record)
                             (name tle_record) in
  if step_seconds =? 0 then Raise ZeroDivisionError
  else
    let steps := Z.max 1 ((minutes * 60) / step_seconds) in
    collect sat start_time_utc step_seconds (range (steps + 1)).

End Skyfield.

End propagate.

(** ** Python floats *)

Module binary64.

Local Open Scope R_scope.

(** The integer nearest to [y], the even one of the two when [y] lies
    half-way. *)
Definition nearest_even (y : R) : Z :=
  let f := Int_part y in
  let r := y - IZR f in
  if Rlt_dec r (1 / 2) then f
  else if Rlt_dec (1 / 2) r then (f + 1)%Z
  else if Z.even f then f else (f + 1)%Z.

(** The exponent [e] with [2^e <= |x| < 2^(e+1)], for [x] other than 0. *)
Definition magnitude (x : R) : Z := Int_part (ln (Rabs x) / ln 2).

(** The exponent of the unit in the last place of the floats around [x]:
    53 significant bits, and no exponent below that of the subnormal
    numbers. *)
Definition ulp_exponent (x : R) : Z := Z.max (-1074) (magnitude x - 52).

(** The multiple of the unit in the last place that is nearest to [x],
    whatever its size. *)
Definition fl (x : R) : R :=
  if Req_dec_T x 0 then 0
  else IZR (nearest_even (x * powerRZ 2 (- ulp_exponent x)))
       * powerRZ 2 (ulp_exponent x).

(** The least power of two that is not a float. *)
Definition overflow_threshold : R := powerRZ 2 1024.

(** A Python float: a finite number, an infinity with its sign, or NaN. *)
Inductive float : Type :=
| Finite (x : R)
| Infinity (negative : bool)
| NaN.

Definition is_negative (x : R) : bool := if Rlt_dec x 0 then true else false.

(** The float that an arithmetic operation delivers when its exact result
    is [x]: the nearest float, or an infinity when that is out of range. *)
Definition round (x : R) : float :=
  if Rlt_dec (Rabs (fl x)) overflow_threshold then Finite (fl x)
  else Infinity (is_negative x).

(** [a * b] *)
Definition mul (a b : float) : float :=
  match a, b with
  | NaN, _ | _, NaN => NaN
  | Finite x, Finite y => round (x * y)
  | Infinity s, Finite y | Finite y, Infinity s =>
      if Req_dec_T y 0 then NaN else Infinity (xorb s (is_negative y))
  | Infinity s, Infinity s' => Infinity (xorb s s')
  end.

(** [- a] *)
Definition neg (a : float) : float :=
  match a with
  | Finite x => Finite (- x)
  | Infinity s => Infinity (negb s)
  | NaN => NaN
  end.

(** [a - b] *)
Definition sub (a b : float) : float :=
  match a, b with
  | NaN, _ | _, NaN => NaN
  | Finite x, Finite y => round (x - y)
  | Finite _, Infinity s => Infinity (negb s)
  | Infinity s, Finite _ => Infinity s
  | Infinity s, Infinity s' => if Bool.eqb s s' then NaN else Infinity s
  end.

(** [math.exp]: an infinite or NaN argument is passed through, a finite
    argument whose exponential is out of range raises. *)
Definition math_exp (a : float) : result float :=
  match a with
  | Finite x =>
      match round (exp x) with
      | Infinity _ => Raise OverflowError
      | y => Ok y
      end
  | Infinity false => Ok (Infinity false)
  | Infinity true => Ok (Finite 0)
  | NaN => Ok NaN
  end.

(** [a / b]: a divisor 0 raises, whatever the dividend. *)
Definition div (a b : float) : result float :=
  match a, b with
  | _, Finite y =>
      if Req_dec_T y 0 then Raise ZeroDivisionError
      else match a with
           | Finite x => Ok (round (x / y))
           | Infinity s => Ok (Infinity (xorb s (is_negative y)))
           | NaN => Ok NaN
           end
  | NaN, _ | _, NaN => Ok NaN
  | Finite _, Infinity _ => Ok (Finite 0)
  | Infinity _, Infinity _ => Ok NaN
  end.

(** [a > b]: false as soon as one of the two is NaN. *)
Definition gt (a b : float) : bool :=
  match a, b with
  | Finite x, Finite y => if Rlt_dec y x then true else false
  | Infinity false, Finite _ => true
  | Infinity false, Infinity true => true
  | Finite _, Infinity true => true
  | _, _ => false
  end.

(** A decimal literal of the program text: the float nearest to it. *)
Definition literal (x : R) : float := round x.

(** [a <= b] where both are numbers; a comparison with NaN is left open. *)
Definition le_unless_nan (a b : float) : Prop :=
  match a, b with
  | NaN, _ | _, NaN => True
  | Finite x, Finite y => x <= y
  | Infinity true, _ => True
  | _, Infinity false => True
  | _, _ => False
  end.

(** A float that is a non-negative number or plus infinity. *)
Definition nonneg (a : float) : Prop :=
  match a with
  | Finite x => 0 <= x
  | Infinity s => s = false
  | NaN => False
  end.

(** A float that is a number not above 0 or minus infinity. *)
Definition nonpos (a : float) : Prop :=
  match a with
  | Finite x => x <= 0
  | Infinity s => s = true
  | NaN => False
  end.

End binary64.

(** ** risk.py *)

Module risk.

Local Open Scope Q_scope.

(** A row of the flux table as [_load_flux_table] builds it. *)
Record row : Type := mkRow {
  alt_km : Q;
  inc_deg : Q;
  smin : Q;
  smax : Q;
  flux : Q
}.

Definition Qlt_bool (a b : Q) : bool := negb (Qle_bool b a).

(** [abs(x - y) < 1e-6] *)
Definition near (x y : Q) : bool := Qlt_bool (Qabs (x - y)) (1 # 1000000).

(** [sorted({...})]: the distinct values in ascending order. *)
Fixpoint insert_uniq (x : Q) (l : list Q) : list Q :=
  match l with
  | [] => [x]
  | y :: l' =>
      if Qeq_bool x y then l
      else if Qle_bool x y then x :: l
      else y :: insert_uniq x l'
  end.

Definition sorted_set (l : list Q) : list Q := fold_right insert_uniq [] l.

(** [max(l, default=d)] and [min(l, default=d)], the default already
    evaluated. *)
Definition max_default (l : list Q) (d : Q) : Q :=
  match l with
  | [] => d
  | x :: l' => fold_left (fun m y => if Qlt_bool m y then y else m) l' x
  end.

Definition min_default (l : list Q) (d : Q) : Q :=
  match l with
  | [] => d
  | x :: l' => fold_left (fun m y => if Qlt_bool y m then y else m) l' x
  end.

(** [l[-1]] *)
Definition getitem_last {A : Type} (l : list A) : result A :=
  match List.rev l with
  | x :: _ => Ok x
  | [] => Raise IndexError
  end.

(** [next((r for r in rows if abs(r.alt - A) < 1e-6 and
    abs(r.inc - I) < 1e-6), None)] *)
Definition find_near (rows : list row) (A I : Q) : option row :=
  List.find (fun r => near (alt_km r) A && near (inc_deg r) I) rows.

Definition _neighbors (alt inc smin' smax' : Q) (rows : list row)
  : result (list row) :=
  let candidates :=
    List.filter (fun r => Qeq_bool (smin r) smin' && Qeq_bool (smax r) smax') rows in
  let alts := sorted_set (List.map alt_km candidates) in
  let incs := sorted_set (List.map inc_deg candidates) in
  let* da1 := getitem alts 0 in
  let a1 := max_default (List.filter (fun a => Qle_bool a alt) alts) da1 in
  let* da2 := getitem_last alts in
  let a2 := min_default (List.filter (fun a => Qle_bool alt a) alts) da2 in
  let* di1 := getitem incs 0 in
  let i1 := max_default (List.filter (fun i => Qle_bool i inc) incs) di1 in
  let* di2 := getitem_last incs in
  let i2 := min_default (List.filter (fun i => Qle_bool inc i) incs) di2 in
  Ok (List.flat_map
        (fun AI => match find_near candidates (fst AI) (snd AI) with
                   | Some m => [m]
                   | None => []
                   end)
        [(a1, i1); (a1, i2); (a2, i1); (a2, i2)]).

(** [min(grid, key=k)]: the first element with the least key. *)
Definition min_by (k : row -> Q) (grid : list row) : result row :=
  match grid with
  | [] => Raise ValueError
  | g :: grid' =>
      Ok (fold_left (fun m x => if Qlt_bool (k x) (k m) then x else m) grid' g)
  end.

(** The inner function [flux_at] of [_bilinear]. *)
Definition flux_at (grid : list row) (A I : Q) : option Q :=
  option_map flux (find_near grid A I).

Definition _bilinear (alt inc : Q) (grid : list row) : result Q :=
  let a_vals := sorted_set (List.map alt_km grid) in
  let i_vals := sorted_set (List.map inc_deg grid) in
  if (List.length a_vals <? 2)%nat || (List.length i_vals <? 2)%nat then
    let* gmin :=
      min_by (fun g => Qabs (alt_km g - alt) + Qabs (inc_deg g - inc)) grid in
    Ok (flux gmin)
  else
    let* a1 := getitem a_vals 0 in
    let* a2 := getitem a_vals 1 in
    let* i1 := getitem i_vals 0 in
    let* i2 := getitem i_vals 1 in
    let f11 := flux_at grid a1 i1 in
    let f12 := flux_at grid a1 i2 in
    let f21 := flux_at grid a2 i1 in
    let f22 := flux_at grid a2 i2 in
    let t := if Qeq_bool a2 a1 then 0 else (alt - a1) / (a2 - a1) in
    let u := if Qeq_bool i2 i1 then 0 else (inc - i1) / (i2 - i1) in
    match f11, f21, f12, f22 with
    | Some f11, Some f21, Some f12, Some f22 =>
        Ok (f11 * (1 - t) * (1 - u) + f21 * t * (1 - u)
            + f12 * (1 - t) * u + f22 * t * u)
    | _, _, _, _ => Raise TypeError
    end.

(** [sorted(rows, key=k)]: stable, ascending. *)
Fixpoint insert_by (k : row -> Q) (x : row) (l : list row) : list row :=
  match l with
  | [] => [x]
  | y :: l' => if Qlt_bool (k y) (k x) then y :: insert_by k x l' else x :: l
  end.

Definition sorted_by (k : row -> Q) (l : list row) : list row :=
  fold_right (insert_by k) [] l.

(** [flux_ordem_like], with the cached table [_load_flux_table()] passed in
    as [rows]. *)
Definition flux_ordem_like (rows : list row) (alt inc size_min_cm size_max_cm : Q)
  : result Q :=
  let* grid := _neighbors alt inc size_min_cm size_max_cm rows in
  match grid with
  | [] =>
      let rows_sorted :=
        sorted_by (fun r => Qabs (alt_km r - alt) + Qabs (inc_deg r - inc)
                            + Qabs (smin r - size_min_cm)
                            + Qabs (smax r - size_max_cm)) rows in
      let* r0 := getitem rows_sorted 0 in
      Ok (flux r0)
  | _ :: _ => _bilinear alt inc grid
  end.

(** The rows of the requested size bin, as [_neighbors] selects them. *)
Definition size_bin (smin' smax' : Q) (rows : list row) : list row :=
  List.filter (fun r => Qeq_bool (smin r) smin' && Qeq_bool (smax r) smax') rows.

(** Grid lines that the tolerance of the coordinate lookup tells apart: two
    rows agree on the coordinate or differ by at least [1e-6]. *)
Definition separated (coord : row -> Q) (rows : list row) : Prop :=
  forall r r' : row, In r rows -> In r' rows ->
    coord r == coord r' \/ (1 # 1000000) <= Qabs (coord r - coord r').




(** [annual_collision_probability]: no check precedes the arithmetic. *)
Definition annual_collision_probability
    (cross_section_m2 years flux_per_m2_per_year : binary64.float)
    : result binary64.float :=
  let lam :=
    binary64.mul (binary64.mul flux_per_m2_per_year cross_section_m2) years in
  let* e := binary64.math_exp (binary64.neg lam) in
  Ok (binary64.sub (binary64.Finite 1) e).

(** Line 92 alone, from the expected number of impacts [lam]. *)
Definition outcome (lam : binary64.float) : result binary64.float :=
  let* e := binary64.math_exp (binary64.neg lam) in
  Ok (binary64.sub (binary64.Finite 1) e).

(** The number that line 92 returns for a non-negative number [z] of
    expected impacts. *)
Definition value_of (z : R) : R :=
  binary64.fl (1 - binary64.fl (exp (- z)))%R.

End risk.

(** ** main.py: the proximity filter *)

Module proximity.

Local Open Scope R_scope.

(** The argument [satellite_pos]; a missing key is [None] and is read through
    [dict.get] with a default. *)
Record satellite_pos : Type := mkSatPos {
  sat_altitude_km : option R;
  sat_latitude : option R;
  sat_longitude : option R
}.

(** A candidate as the filter receives it: the three keys that the loop
    subscripts, and the catalogue number standing for the keys that it only
    carries along. *)
Record debris : Type := mkDebris {
  norad_id : Z;
  altitude : R;
  latitude : R;
  longitude : R
}.

(** A candidate after the loop has written its three keys into it. *)
Record scored : Type := mkScored {
  candidate : debris;
  distance_from_satellite_km : R;
  relative_velocity_kms : R;
  proximity_risk_factor : R
}.

(** [dict.get(key, default)] *)
Definition get_default (v : option R) (d : R) : R :=
  match v with
  | Some x => x
  | None => d
  end.

(** [math.radians] *)
Definition radians (x : R) : R := x * PI / 180.

(** [math.sqrt], which rejects a negative argument. *)
Definition py_sqrt (x : R) : result R :=
  if Rlt_dec x 0 then Raise ValueError else Ok (sqrt x).

(** [x / y] on floats. *)
Definition py_div (x y : R) : result R :=
  if Req_dec_T y 0 then Raise ZeroDivisionError else Ok (x / y).

(** Rounding to the nearest integer, ties to the even one. *)
Definition round_half_even (y : R) : Z :=
  let f := Int_part y in
  let r := y - IZR f in
  if Rlt_dec r (1 / 2) then f
  else if Rlt_dec (1 / 2) r then (f + 1)%Z
  else if Z.even f then f else (f + 1)%Z.

(** [round(x, ndigits)] for [ndigits >= 0], on the exact value of [x]. *)
Definition py_round (x : R) (ndigits : nat) : R :=
  IZR (round_half_even (x * 10 ^ ndigits)) / 10 ^ ndigits.

Definition earth_radius : R := 6371.

(** The Cartesian coordinates computed for the satellite and for a candidate. *)
Definition cartesian (r lat lon : R) : R * R * R :=
  (r * cos (radians lat) * cos (radians lon),
   r * cos (radians lat) * sin (radians lon),
   r * sin (radians lat)).

(** The body of the [for] loop: [Ok None] when the candidate is beyond
    [max_distance_km], [Ok (Some s)] when it is appended. *)
Definition score (sat_alt sat_lat sat_lon : R) (d : debris) (max_distance_km : R)
  : result (option scored) :=
  let debris_alt := altitude d in
  let debris_lat := latitude d in
  let debris_lon := longitude d in
  let sat_r := earth_radius + sat_alt in
  let '(sat_x, sat_y, sat_z) := cartesian sat_r sat_lat sat_lon in
  let debris_r := earth_radius + debris_alt in
  let '(debris_x, debris_y, debris_z) := cartesian debris_r debris_lat debris_lon in
  let* distance_km :=
    py_sqrt ((sat_x - debris_x) ^ 2 + (sat_y - debris_y) ^ 2
             + (sat_z - debris_z) ^ 2) in
  let* qs := py_div 398600 sat_r in
  let* sat_orbital_velocity := py_sqrt qs in
  let* qd := py_div 398600 debris_r in
  let* debris_orbital_velocity := py_sqrt qd in
  let relative_velocity := Rabs (sat_orbital_velocity - debris_orbital_velocity) in
  if Rle_dec distance_km max_distance_km then
    let* q := py_div (max_distance_km - distance_km) max_distance_km in
    let risk_distance_factor := Rmax 0 q in
    let risk_velocity_factor := Rmin 1 (relative_velocity / 10) in
    let combined_risk := risk_distance_factor * (7 / 10) + risk_velocity_factor * (3 / 10) in
    Ok (Some (mkScored d (py_round distance_km 2) (py_round relative_velocity 3)
                       (py_round combined_risk 4)))
  else Ok None.

(** The [for] loop: candidates are visited in order, the first exception ends
    the call. *)
Fixpoint score_all (sat_alt sat_lat sat_lon : R) (debris_list : list debris)
    (max_distance_km : R) : result (list scored) :=
  match debris_list with
  | [] => Ok []
  | d :: rest =>
      let* s := score sat_alt sat_lat sat_lon d max_distance_km in
      let* filtered := score_all sat_alt sat_lat sat_lon rest max_distance_km in
      Ok (match s with
          | Some x => x :: filtered
          | None => filtered
          end)
  end.

(** [sorted(l, key=k, reverse=True)]: descending, and stable: of two elements
    with equal keys the one that comes first in [l] comes first in the result. *)
Fixpoint insert_desc (k : scored -> R) (x : scored) (l : list scored) : list scored :=
  match l with
  | [] => [x]
  | y :: l' => if Rlt_dec (k x) (k y) then y :: insert_desc k x l' else x :: l
  end.

Definition sorted_desc (k : scored -> R) (l : list scored) : list scored :=
  fold_right (insert_desc k) [] l.

Definition filter_debris_by_proximity (pos : satellite_pos)
    (debris_list : list debris) (max_distance_km : R) : result (list scored) :=
  let sat_alt := get_default (sat_altitude_km pos) 400 in
  let sat_lat := get_default (sat_latitude pos) 0 in
  let sat_lon := get_default (sat_longitude pos) 0 in
  let* filtered_debris := score_all sat_alt sat_lat sat_lon debris_list max_distance_km in
  Ok (sorted_desc proximity_risk_factor filtered_debris).

End proximity.

(** ** The proximity contract in the words of the design

    The quantities that the design document names, written as it defines
    them; the properties below compare the code with them. *)

Module proximity_spec.

Import proximity.
Local Open Scope R_scope.








(** [l] is [l'] with some elements left out, the others in their order. *)
Inductive subsequence {A : Type} : list A -> list A -> Prop :=
| subsequence_nil : subsequence [] []
| subsequence_skip (x : A) (l l' : list A) :
    subsequence l l' -> subsequence l (x :: l')
| subsequence_keep (x : A) (l l' : list A) :
    subsequence l l' -> subsequence (x :: l) (x :: l').




End proximity_spec.

(** ** Sample inputs *)

Module samples.

Import stdpp.base stdpp.gmap.
Import pystr tle_store.
Local Open Scope string_scope.

Definition iss_name : string := "ISS (ZARYA)".
Definition iss_line1 : string :=
  "1 25544U 98067A   24001.50000000  .00016717  00000-0  10270-3 0  9005".
Definition iss_line2 : string :=
  "2 25544  51.6400 208.9163 0006317  69.9862  25.2906 15.49560532    18".

(** A complete three-line block. *)
Definition iss_block : string :=
  tle_text.three_line_block iss_name iss_line1 iss_line2.

(** The same block with another catalogue number in line 2. *)
Definition other_line2 : string :=
  "2 99999  51.6400 208.9163 0006317  69.9862  25.2906 15.49560532    18".
Definition mismatched_block : string :=
  tle_text.three_line_block iss_name iss_line1 other_line2.

(** The two element lines alone, without a name line. *)
Definition headerless_block : string :=
  iss_line1 ++ tle_text.nl ++ iss_line2 ++ tle_text.nl.

(** Columns 3-7 of an element line, counted from 1. *)
Definition columns_3_7 (l : string) : string := substring 2 5 l.

Definition empty_store : TLEStore := ∅.

(** A satellite at 400 km above the point (0, 0), and a candidate at the
    same height on the opposite side of the Earth. *)
Definition sat_at_origin : proximity.satellite_pos :=
  proximity.mkSatPos (Some 400%R) (Some 0%R) (Some 0%R).
(** A candidate at the satellite's own position. *)
Definition colocated_debris : proximity.debris :=
  proximity.mkDebris 36837 400%R 0%R 0%R.

(** A flux table in the layout of the static resource: two altitudes and two
    inclinations for the size bin 1-10 cm, one row for the bin 10-100 cm. *)
Definition flux_table : list risk.row :=
  [ risk.mkRow 400 0 1 10 (1 # 100000);
    risk.mkRow 400 90 1 10 (2 # 100000);
    risk.mkRow 800 0 1 10 (3 # 100000);
    risk.mkRow 800 90 1 10 (5 # 100000);
    risk.mkRow 400 0 10 100 (7 # 1000000) ]%Q.


End samples.

(** ** The loader as a parser of the line list

    What one call of [load_from_text] stores, read off the line list
    directly: the blocks in the order in which the loop meets them. *)

Module tle_parse.

Import stdpp.base stdpp.gmap.
Import pystr tle_store.
Local Open Scope string_scope.

(** Lines 44-48: the record built from a block, if line 1 yields a number. *)
Definition block_record (nm l1 l2 : string) : list TLERecord :=
  match _extract_norad l1 with
  | Some norad => [mkTLERecord nm l1 l2 norad]
  | None => []
  end.

(** The three arms of the loop body, on the lines from the index on. *)
Fixpoint parse_blocks (lines : list string) : list TLERecord :=
  match lines with
  | nm :: ((l1 :: ((l2 :: rest) as from2)) as from1) =>
      if startswith l1 "1 " && startswith l2 "2 " then
        block_record nm l1 l2 ++ parse_blocks rest
      else if startswith nm "1 " && startswith l1 "2 " then
        block_record "UNKNOWN" nm l1 ++ parse_blocks from2
      else parse_blocks from1
  | _ => []
  end.

(** [self._by_id[r.norad_id] = r] for each record in turn. *)
Definition store_all (blocks : list TLERecord) (store : TLEStore) : TLEStore :=
  fold_left (fun m r => <[norad_id r := r]> m) blocks store.

(** The last record of a list that carries the number [k]. *)
Definition last_with_id (k : Z) (blocks : list TLERecord) : option TLERecord :=
  List.find (fun r => Z.eqb (norad_id r) k) (List.rev blocks).

(** Whether a line starting with ["1 "] is directly followed by a line
    starting with ["2 "] somewhere in the list. *)
Fixpoint has_element_pair (lines : list string) : bool :=
  match lines with
  | u :: ((v :: _) as rest) =>
      (startswith u "1 " && startswith v "2 ") || has_element_pair rest
  | _ => false
  end.

(** What the loader guarantees of a record stored under [k]. *)
Definition well_formed (k : Z) (r : TLERecord) : Prop :=
  norad_id r = k
  /\ startswith (line1 r) "1 " = true
  /\ startswith (line2 r) "2 " = true
  /\ _extract_norad (line1 r) = Some k.

End tle_parse.

(** ** tle_store.py with the order of the dictionary

    [TLEStore._by_id] is a [dict]: it lists its items in the order in which
    the keys were first inserted, and an assignment to a key that is present
    replaces the value where it stands.  [list_objects] depends on that
    order, so here the store is an association list with distinct keys. *)

Module tle_store_ordered.

Import pystr tle_store.
Local Open Scope string_scope.
Local Open Scope nat_scope.

Definition odict : Type := list (Z * TLERecord).

(** [d[k] = v] *)
Fixpoint setitem (d : odict) (k : Z) (v : TLERecord) : odict :=
  match d with
  | [] => [(k, v)]
  | (k', v') :: d' =>
      if Z.eqb k' k then (k, v) :: d' else (k', v') :: setitem d' k v
  end.

(** [d.get(k)] *)
Fixpoint getitem_opt (d : odict) (k : Z) : option TLERecord :=
  match d with
  | [] => None
  | (k', v') :: d' => if Z.eqb k' k then Some v' else getitem_opt d' k
  end.

(** [TLEStore.clear] *)
Definition clear (_ : odict) : odict := [].

(** [TLEStore.get] *)
Definition get (store : odict) (norad : Z) : option TLERecord :=
  getitem_opt store norad.

Record loop_state : Type := mkState {
  idx : nat;
  count : Z;
  by_id : odict
}.

Definition ingest (nm l1 l2 : string) (i' : nat) (st : loop_state) : loop_state :=
  match _extract_norad l1 with
  | None => mkState i' (count st) (by_id st)
  | Some norad =>
      mkState i' (count st + 1)%Z
              (setitem (by_id st) norad (mkTLERecord nm l1 l2 norad))
  end.

Definition loop_body (lines : list string) (st : loop_state) : result loop_state :=
  let i := idx st in
  let* nm := getitem lines i in
  let* l1 := getitem lines (i + 1) in
  let* l2 := getitem lines (i + 2) in
  if negb (startswith l1 "1 " && startswith l2 "2 ") then
    let* a := getitem lines i in
    if startswith a "1 " then
      let* b := getitem lines (i + 1) in
      if startswith b "2 " then
        let* a' := getitem lines i in
        let* b' := getitem lines (i + 1) in
        Ok (ingest "UNKNOWN" a' b' (i + 2) st)
      else Ok (mkState (i + 1) (count st) (by_id st))
    else Ok (mkState (i + 1) (count st) (by_id st))
  else Ok (ingest nm l1 l2 (i + 3) st).

Fixpoint while_loop (fuel : nat) (lines : list string) (st : loop_state)
  : option (result loop_state) :=
  if (idx st + 2 <? List.length lines)%nat then
    match fuel with
    | O => None
    | S fuel' =>
        match loop_body lines st with
        | Ok st' => while_loop fuel' lines st'
        | Raise e => Some (Raise e)
        end
    end
  else Some (Ok st).

(** [TLEStore.load_from_text] *)
Definition load_from_text (store : odict) (tle_text : string)
  : option (result (odict * Z)) :=
  let lines := lines_of tle_text in
  match while_loop (List.length lines) lines (mkState 0 0%Z store) with
  | Some (Ok st) => Some (Ok (by_id st, count st))
  | Some (Raise e) => Some (Raise e)
  | None => None
  end.

(** [l[:n]] for an integer [n]: a negative [n] counts from the end. *)
Definition slice_to {A : Type} (l : list A) (n : Z) : list A :=
  if (n <? 0)%Z then firstn (List.length l - Z.to_nat (- n)) l
  else firstn (Z.to_nat n) l.

(** [TLEStore.list_objects]: the pairs ["norad_id"], ["name"]. *)
Definition list_objects (store : odict) (limit : Z) : list (Z * string) :=
  List.map (fun kv => (norad_id (snd kv), name (snd kv))) (slice_to store limit).

(** [/api/objects] (main.py, [list_objects]): the count and the objects. *)
Definition api_list_objects (store : odict) (limit : Z) : Z * list (Z * string) :=
  let items := list_objects store limit in
  (Z.of_nat (List.length items), items).

(** The same store without its order. *)
Definition to_gmap (d : odict) : gmap.gmap Z TLERecord :=
  fold_right (fun kv m => base.insert (fst kv) (snd kv) m) base.empty d.

(** [self._by_id[r.norad_id] = r] for each record in turn. *)
Definition store_all (blocks : list TLERecord) (store : odict) : odict :=
  fold_left (fun d r => setitem d (norad_id r) r) blocks store.

(** The keys of a dictionary, in its order. *)
Definition keys (d : odict) : list Z := List.map fst d.

(** The distinct numbers of a list of records, each at its first place. *)
Fixpoint first_ids (seen : list Z) (blocks : list TLERecord) : list Z :=
  match blocks with
  | [] => []
  | r :: rest =>
      if existsb (Z.eqb (norad_id r)) seen then first_ids seen rest
      else norad_id r :: first_ids (seen ++ [norad_id r]) rest
  end.

End tle_store_ordered.

(** ** main.py: the simulated catalogue, [fetch_nasa_debris]

    The function draws from Python's [random] module.  The draws of one
    iteration of its loop are a record, in the order in which the loop asks
    for them; the generator is the function that gives the draws of the
    [i]-th iteration. *)

Module nasa_debris.

Local Open Scope string_scope.
Local Open Scope R_scope.

(** An element of [known_debris], and the copy that the loop updates. *)
Record entry : Type := mkEntry {
  norad_id : Z;
  name : string;
  object_type : string;
  country : string;
  launch_date : string;
  mean_motion : R;
  eccentricity : R;
  inclination : R;
  apogee : Z;
  perigee : Z;
  rcs_size : string
}.

(** A generated object: the updated copy and the three keys added to it. *)
Record item : Type := mkItem {
  fields : entry;
  latitude : R;
  longitude : R;
  altitude : R
}.

Definition fengyun : entry :=
  mkEntry 36837 "FENGYUN 1C DEB" "DEBRIS" "PRC" "2007-01-11"
    (1538 / 100) (1234 / 10000) (987 / 10) 3524 847 "SMALL".
Definition cosmos : entry :=
  mkEntry 34454 "COSMOS 2251 DEB" "DEBRIS" "CIS" "2009-02-10"
    (1512 / 100) (891 / 10000) 74 1689 775 "MEDIUM".
Definition sl16 : entry :=
  mkEntry 29275 "SL-16 R/B(2) DEB" "DEBRIS" "CIS" "2006-03-03"
    (1589 / 100) (234 / 10000) (825 / 10) 891 763 "LARGE".
Definition iss_panel : entry :=
  mkEntry 40425 "ISS DEB (PANEL)" "DEBRIS" "US" "2015-05-16"
    (1554 / 100) (12 / 10000) (516 / 10) 450 390 "SMALL".
Definition breeze : entry :=
  mkEntry 41337 "BREEZE-M DEB" "DEBRIS" "CIS" "2016-11-17"
    (1572 / 100) (23 / 10000) (482 / 10) 520 410 "MEDIUM".

Definition known_debris : list entry :=
  [fengyun; cosmos; sl16; iss_panel; breeze].

(** What one iteration draws: the index picked by [random.choice], the
    values of [random.random()] behind the three calls of [random.uniform]
    on the orbital parameters, the two results of [random.randint], and the
    values of [random.random()] behind the latitude and the longitude. *)
Record draws : Type := mkDraws {
  choice : nat;
  u_mean_motion : R;
  u_inclination : R;
  u_eccentricity : R;
  k_apogee : Z;
  k_perigee : Z;
  u_latitude : R;
  u_longitude : R
}.

(** The values that the [random] module can deliver. *)
Definition in_range (dr : draws) : Prop :=
  (choice dr < List.length known_debris)%nat
  /\ 0 <= u_mean_motion dr < 1
  /\ 0 <= u_inclination dr < 1
  /\ 0 <= u_eccentricity dr < 1
  /\ (-100 <= k_apogee dr <= 100)%Z
  /\ (-50 <= k_perigee dr <= 50)%Z
  /\ 0 <= u_latitude dr < 1
  /\ 0 <= u_longitude dr < 1.

(** [random.uniform(a, b)] is [a + (b - a) * random()]. *)
Definition uniform (a b u : R) : R := a + (b - a) * u.

Fixpoint zeros (n : nat) : string :=
  match n with
  | O => ""
  | S n' => String "0" (zeros n')
  end.

(** The format [03d] of a number that is not negative. *)
Definition format_03d (n : nat) : string :=
  let digits := DecimalString.NilEmpty.string_of_uint (Nat.to_uint n) in
  zeros (3 - String.length digits) ++ digits.

(** The body of the loop at index [i]. *)
Definition debris_item (i : nat) (dr : draws) : item :=
  let base_debris := nth (choice dr) known_debris fengyun in
  let norad_id' := (norad_id base_debris + Z.of_nat i)%Z in
  let name' := name base_debris ++ " #" ++ format_03d (i + 1) in
  let mean_motion' :=
    mean_motion base_debris + uniform (- (1 / 2)) (1 / 2) (u_mean_motion dr) in
  let inclination' :=
    inclination base_debris + uniform (- 2) 2 (u_inclination dr) in
  let eccentricity' :=
    eccentricity base_debris
    + uniform (- (2 / 100)) (2 / 100) (u_eccentricity dr) in
  let apogee' := (apogee base_debris + k_apogee dr)%Z in
  let perigee' := (perigee base_debris + k_perigee dr)%Z in
  mkItem
    (mkEntry norad_id' name' (object_type base_debris) (country base_debris)
       (launch_date base_debris) mean_motion' eccentricity' inclination'
       apogee' perigee' (rcs_size base_debris))
    (uniform (- inclination') inclination' (u_latitude dr))
    (uniform (- 180) 180 (u_longitude dr))
    (IZR (apogee' + perigee') / 2).

(** [for i in range(min(limit, 500))] *)
Definition fetch_nasa_debris (rng : nat -> draws) (limit : Z) : list item :=
  List.map (fun i => debris_item i (rng i))
    (seq 0 (Z.to_nat (Z.min limit 500))).


(** Draws at the lower end of every interval. *)
Definition lowest_draws : draws := mkDraws 3 0 0 0 (-100) (-50) 0 0.

End nasa_debris.

(** ** main.py: the handler of [/api/debris/nasa] up to the filter *)

Module debris_handler.

Import proximity.
Local Open Scope R_scope.





End debris_handler.

(** ** main.py: the risk level of [/api/risk/ordem] *)

Module risk_handler.

Import risk.

(** The four values of ["risk_level"], from the lowest to the highest:
    "Redus", "Moderat", "Inalt", "Critic". *)
Inductive level : Set :=
| Redus
| Moderat
| Inalt
| Critic.

(** The place of a level in that order. *)
Definition rank (l : level) : nat :=
  match l with
  | Redus => 0
  | Moderat => 1
  | Inalt => 2
  | Critic => 3
  end.

(** Lines 782-793: the level is "Redus" unless one of the three tests, taken
    in this order, holds. *)
Definition risk_level (prob : binary64.float) : level :=
  if binary64.gt prob (binary64.literal (1 / 10)%R) then Critic
  else if binary64.gt prob (binary64.literal (1 / 100)%R) then Inalt
  else if binary64.gt prob (binary64.literal (1 / 1000)%R) then Moderat
  else Redus.

(** Lines 779-793, from the flux that [flux_ordem_like] returned: the
    probability and the level of the response. *)
Definition api_risk_ordem (flux area_m2 duration_days : binary64.float)
    : result (binary64.float * level) :=
  let* years := binary64.div duration_days (binary64.Finite 365) in
  let* prob := annual_collision_probability area_m2 years flux in
  Ok (prob, risk_level prob).

(** A table whose size bin 1-10 cm has rows on three corners of the cell
    between 400 and 800 km and between 0 and 90 degrees, and none on the
    fourth. *)
Definition l_shaped_table : list row :=
  [ mkRow 400 0 1 10 (1 # 100000);
    mkRow 400 90 1 10 (2 # 100000);
    mkRow 800 0 1 10 (3 # 100000) ]%Q.

End risk_handler.

(** ** nasa.py: [latest_kp_index] *)

Module nasa.

Local Open Scope string_scope.

(** An element of ["allKpIndex"]: the two keys that the loop reads, [None]
    for a key that is missing or null. *)
Record kp_entry : Type := mkKp {
  observedTime : option string;
  kpIndex : option Q
}.

(** A storm event: the list under ["allKpIndex"], [None] when the event has
    no such key. *)
Record event : Type := mkEvent {
  allKpIndex : option (list kp_entry)
}.

(** A [datetime]: its place on the time line and whether it carries an
    offset from UTC.  Python orders two values that both carry an offset, or
    both carry none, by their place on the time line, and refuses to order
    the two kinds with each other. *)
Record datetime : Type := mkDatetime {
  instant : Z;
  aware : bool
}.

(** [a > b] *)
Definition gt (a b : datetime) : result bool :=
  if Bool.eqb (aware a) (aware b) then Ok (instant b <? instant a)%Z
  else Raise TypeError.

(** [s.replace("Z", "+00:00")] *)
Fixpoint replace_Z (s : string) : string :=
  match s with
  | EmptyString => EmptyString
  | String c s' =>
      if Ascii.eqb c "Z" then "+00:00" ++ replace_Z s'
      else String c (replace_Z s')
  end.

(** The two variables of the loop. *)
Record state : Type := mkState {
  latest : option (string * Q);
  latest_time : option datetime
}.

Section Clock.

(** [datetime.fromisoformat], [None] when it raises. *)
Variable fromisoformat : string -> option datetime.

(** The body of the inner loop.  Only the parsing sits inside the [try];
    the comparison is outside it. *)
Definition visit (st : state) (kp : kp_entry) : result state :=
  match observedTime kp, kpIndex kp with
  | Some obs, Some val =>
      if pystr.truthy obs then
        match fromisoformat (replace_Z obs) with
        | None => Ok st
        | Some t =>
            let* newer :=
              match latest_time st with
              | None => Ok true
              | Some lt => gt t lt
              end in
            if newer then Ok (mkState (Some (obs, val)) (Some t)) else Ok st
        end
      else Ok st
  | _, _ => Ok st
  end.

Fixpoint visit_all (st : state) (kps : list kp_entry) : result state :=
  match kps with
  | [] => Ok st
  | kp :: rest => let* st' := visit st kp in visit_all st' rest
  end.

(** [e.get("allKpIndex", [])] *)
Definition entries (e : event) : list kp_entry :=
  match allKpIndex e with
  | Some l => l
  | None => []
  end.

Fixpoint scan (st : state) (events : list event) : result state :=
  match events with
  | [] => Ok st
  | e :: rest => let* st' := visit_all st (entries e) in scan st' rest
  end.

Definition latest_kp_index (events : list event) : result (option (string * Q)) :=
  let* st := scan (mkState None None) events in
  Ok (latest st).

(** The measurements in the order in which the loops visit them, and the
    time of a measurement that the loop does not skip. *)
Definition measurements (events : list event) : list kp_entry :=
  List.flat_map entries events.

Definition time_of (kp : kp_entry) : option datetime :=
  match observedTime kp, kpIndex kp with
  | Some obs, Some _ =>
      if pystr.truthy obs then fromisoformat (replace_Z obs) else None
  | _, _ => None
  end.

(** What a measurement contributes when the loop does not skip it. *)
Definition reading (kp : kp_entry) : option (string * Q * datetime) :=
  match observedTime kp, kpIndex kp, time_of kp with
  | Some obs, Some val, Some t => Some (obs, val, t)
  | _, _, _ => None
  end.

Definition state_of (cur : option (string * Q * datetime)) : state :=
  match cur with
  | Some (obs, val, t) => mkState (Some (obs, val)) (Some t)
  | None => mkState None None
  end.

(** The loop body on a time line of one kind. *)
Definition pick (cur : option (string * Q * datetime)) (kp : kp_entry)
  : option (string * Q * datetime) :=
  match reading kp, cur with
  | None, _ => cur
  | Some r, None => Some r
  | Some (obs, val, t), Some (_, _, lt) =>
      if (instant lt <? instant t)%Z then Some (obs, val, t) else cur
  end.

Definition kind_of (cur : option (string * Q * datetime)) (b : bool) : Prop :=
  match cur with
  | Some (_, _, t) => aware t = b
  | None => True
  end.

(** What the fold keeps: nothing when no measurement counts; otherwise the
    first of the measurements with the latest time. *)
Definition first_latest (ms : list kp_entry)
    (r : option (string * Q * datetime)) : Prop :=
  match r with
  | None => forall kp, In kp ms -> time_of kp = None
  | Some (obs, val, t) =>
      exists (before after : list kp_entry) (kp : kp_entry),
        ms = (before ++ kp :: after)%list
        /\ observedTime kp = Some obs /\ kpIndex kp = Some val
        /\ time_of kp = Some t
        /\ (forall kp' t', In kp' before -> time_of kp' = Some t' ->
              (instant t' < instant t)%Z)
        /\ (forall kp' t', In kp' after -> time_of kp' = Some t' ->
              (instant t' <= instant t)%Z)
  end.

End Clock.

(** A clock that reads the number of characters as seconds after the
    epoch, with an offset exactly when the text has a sign. *)
Definition sample_clock (s : string) : option datetime :=
  match s with
  | EmptyString => None
  | String c _ =>
      if Ascii.eqb c "?" then None
      else Some (mkDatetime (Z.of_nat (String.length s))
                            (existsb (Ascii.eqb "+") (list_ascii_of_string s)))
  end.

Definition sample_events : list event :=
  [ mkEvent (Some [ mkKp (Some "2024-05-10T15:00Z") (Some (6 # 1));
                    mkKp (Some "") (Some (9 # 1));
                    mkKp (Some "2024-05-10T18:00Z") None ]);
    mkEvent None;
    mkEvent (Some [ mkKp (Some "2024-05-11T00:00:00Z") (Some (0 # 1));
                    mkKp (Some "?") (Some (8 # 1));
                    mkKp (Some "2024-05-11T03:00:00Z") (Some (7 # 1)) ]) ].

End nasa.

(** * Properties *)

(** ** Subscripts *)

Lemma getitem_in_range {A : Type} (l : list A) (i : nat) :
  (i < List.length l)%nat -> exists x, getitem l i = Ok x.
Proof.
  intros Hi. unfold getitem.
  destruct (nth_error l i) as [x|] eqn:E.
  - now exists x.
  - apply nth_error_None in E. lia.
Qed.

Lemma getitem_nth_error {A : Type} (l : list A) (i : nat) (x : A) :
  nth_error l i = Some x -> getitem l i = Ok x.
Proof. intros E. unfold getitem. now rewrite E. Qed.

(** ** Prefix tests *)

Lemma startswith_cons (p x : ascii) (ps s : string) :
  pystr.startswith (String x s) (String p ps)
  = (Ascii.eqb p x && pystr.startswith s ps).
Proof.
  unfold pystr.startswith. cbn [prefix].
  destruct (ascii_dec p x) as [->|N].
  - now rewrite Ascii.eqb_refl.
  - apply Ascii.eqb_neq in N. now rewrite N.
Qed.

Lemma startswith_2_not_1 (s : string) :
  pystr.startswith s "2 " = true -> pystr.startswith s "1 " = false.
Proof.
  destruct s as [|x s]; [discriminate|].
  rewrite !startswith_cons.
  destruct (Ascii.eqb_spec "2"%char x) as [<-|]; [reflexivity|discriminate].
Qed.

Lemma startswith_append (p r : string) :
  pystr.startswith (p ++ r)%string p = true.
Proof.
  induction p as [|c p IH].
  - unfold pystr.startswith. now destruct r.
  - change (String c p ++ r)%string with (String c (p ++ r)%string).
    rewrite startswith_cons, IH. now rewrite Ascii.eqb_refl.
Qed.

(** ** The TLE store *)

Module tle_store_facts.

Import stdpp.base stdpp.gmap.
Import pystr tle_store.
Local Open Scope string_scope.
Local Open Scope nat_scope.

(** [ingest] moves the index where it is told to and adds at most one to
    the count. *)
Lemma ingest_idx nm l1 l2 i' st : idx (ingest nm l1 l2 i' st) = i'.
Proof. unfold ingest. now destruct (_extract_norad l1). Qed.

Lemma ingest_count nm l1 l2 i' st :
  (count st <= count (ingest nm l1 l2 i' st) <= count st + 1)%Z.
Proof. unfold ingest. destruct (_extract_norad l1); simpl; lia. Qed.

(** Under the loop guard a pass raises nothing, and it moves the index
    forward by one, two or three lines. *)
Lemma loop_body_progress (lines : list string) (st : loop_state) :
  idx st + 2 < List.length lines ->
  exists st', loop_body lines st = Ok st'
    /\ idx st < idx st' <= idx st + 3
    /\ (count st <= count st' <= count st + 1)%Z.
Proof.
  intros Hg.
  destruct (getitem_in_range lines (idx st)) as [nm Hnm]; [lia|].
  destruct (getitem_in_range lines (idx st + 1)) as [l1 Hl1]; [lia|].
  destruct (getitem_in_range lines (idx st + 2)) as [l2 Hl2]; [lia|].
  unfold loop_body. cbv zeta. rewrite Hnm, Hl1, Hl2. cbn [bind].
  destruct (negb (startswith l1 "1 " && startswith l2 "2 ")).
  - destruct (startswith nm "1 ").
    + destruct (startswith l1 "2 ").
      * eexists. split; [reflexivity|].
        rewrite ingest_idx. split; [lia|apply ingest_count].
      * eexists. split; [reflexivity|]. simpl. lia.
    + eexists. split; [reflexivity|]. simpl. lia.
  - eexists. split; [reflexivity|].
    rewrite ingest_idx. split; [lia|apply ingest_count].
Qed.

(** The loop ends within [len(lines) - i] passes, with the guard false, no
    exception, and a count that never went down. *)
Lemma while_loop_total (fuel : nat) :
  forall (lines : list string) (st : loop_state),
    List.length lines <= idx st + fuel ->
    exists st', while_loop fuel lines st = Some (Ok st')
      /\ (count st <= count st')%Z
      /\ List.length lines <= idx st' + 2.
Proof.
  induction fuel as [|fuel IH]; intros lines st Hf.
  - simpl. destruct (Nat.ltb_spec (idx st + 2) (List.length lines)) as [Hg|Hg].
    + lia.
    + exists st. repeat split; lia.
  - simpl. destruct (Nat.ltb_spec (idx st + 2) (List.length lines)) as [Hg|Hg].
    + destruct (loop_body_progress lines st Hg) as (st1 & Hb & Hi & Hc).
      rewrite Hb.
      destruct (IH lines st1) as (st' & Hw & Hc' & Hend); [lia|].
      exists st'. repeat split; [exact Hw|lia|exact Hend].
    + exists st. repeat split; lia.
Qed.

(** A text of fewer than three lines is returned from at once. *)
Lemma load_short_text (store : TLEStore) (text : string) :
  List.length (lines_of text) <= 2 ->
  load_from_text store text = Some (Ok (store, 0%Z)).
Proof.
  intros Hl. unfold load_from_text.
  destruct (lines_of text) as [|a [|b [|c l]]]; simpl in *; try reflexivity; lia.
Qed.

(** A pass whose window holds a name line, a line starting with ["1 "] and
    a line starting with ["2 "] takes the first arm. *)
Lemma loop_body_named (lines : list string) (st : loop_state) (nm l1 l2 : string) :
  nth_error lines (idx st) = Some nm ->
  nth_error lines (idx st + 1) = Some l1 ->
  nth_error lines (idx st + 2) = Some l2 ->
  startswith l1 "1 " = true ->
  startswith l2 "2 " = true ->
  loop_body lines st = Ok (ingest nm l1 l2 (idx st + 3) st).
Proof.
  intros Hn H1 H2 P1 P2. unfold loop_body. cbv zeta.
  rewrite (getitem_nth_error _ _ _ Hn), (getitem_nth_error _ _ _ H1),
    (getitem_nth_error _ _ _ H2).
  cbn [bind]. now rewrite P1, P2.
Qed.

(** A pass whose window starts with a line ["1 ..."] followed by a line
    ["2 ..."] stores the pair under the placeholder name and moves on by two
    lines. *)
Lemma loop_body_headerless (lines : list string) (st : loop_state) (a b c : string) :
  nth_error lines (idx st) = Some a ->
  nth_error lines (idx st + 1) = Some b ->
  nth_error lines (idx st + 2) = Some c ->
  startswith a "1 " = true ->
  startswith b "2 " = true ->
  loop_body lines st = Ok (ingest "UNKNOWN" a b (idx st + 2) st).
Proof.
  intros Ha Hb Hc Pa Pb. unfold loop_body. cbv zeta.
  rewrite (getitem_nth_error _ _ _ Ha), (getitem_nth_error _ _ _ Hb),
    (getitem_nth_error _ _ _ Hc).
  cbn [bind].
  rewrite (startswith_2_not_1 _ Pb). cbn [andb negb]. now rewrite Pa, Pb.
Qed.

(** The lines of a block made of three bare lines are these lines. *)
Lemma splitlines_first_line (s rest : string) :
  tle_text.single_line s = true ->
  splitlines (s ++ String LF rest) = s :: splitlines rest.
Proof.
  induction s as [|c s IH]; intros Hs.
  - cbn [append splitlines].
    change (is_line_boundary LF) with true. cbv iota.
    destruct rest as [|c' rest']; [reflexivity|].
    change (Ascii.eqb LF CR) with false. reflexivity.
  - cbn [tle_text.single_line] in Hs. apply andb_true_iff in Hs.
    destruct Hs as [Hc Hs]. apply negb_true_iff in Hc.
    change (String c s ++ String LF rest) with (String c (s ++ String LF rest)).
    cbn [splitlines]. rewrite Hc, (IH Hs). reflexivity.
Qed.

Lemma truthy_nonempty (s : string) : s <> "" -> truthy s = true.
Proof. destruct s; [contradiction|reflexivity]. Qed.

Lemma lines_of_three_line_block (nm l1 l2 : string) :
  tle_text.bare_line nm -> tle_text.bare_line l1 -> tle_text.bare_line l2 ->
  lines_of (tle_text.three_line_block nm l1 l2) = [nm; l1; l2].
Proof.
  intros (Hn0 & Hn1 & Hn2) (Ha0 & Ha1 & Ha2) (Hb0 & Hb1 & Hb2).
  unfold lines_of, tle_text.three_line_block, tle_text.nl.
  change (nm ++ String LF "" ++ l1 ++ String LF "" ++ l2 ++ String LF "")
    with (nm ++ String LF (l1 ++ String LF (l2 ++ String LF ""))).
  rewrite !splitlines_first_line by assumption.
  cbn [splitlines List.filter].
  rewrite Hn2, Ha2, Hb2.
  rewrite !truthy_nonempty by assumption.
  cbn [List.map]. now rewrite Hn2, Ha2, Hb2.
Qed.

(** C10. For every text, [load_from_text] ends and returns a count that is
    not negative, without raising: under the loop guard each pass reads its
    lines in range and moves the index strictly forward, so the guard fails
    after at most [len(lines)] passes. *)
Theorem load_from_text_total (store : TLEStore) (text : string) :
  (forall (lines : list string) (st : loop_state),
      idx st + 2 < List.length lines ->
      exists st', loop_body lines st = Ok st' /\ idx st < idx st')
  /\ exists (store' : TLEStore) (n : Z),
       load_from_text store text = Some (Ok (store', n)) /\ (0 <= n)%Z.
Proof.
  split.
  - intros lines st Hg.
    destruct (loop_body_progress lines st Hg) as (st' & Hb & Hi & _).
    exists st'. split; [exact Hb|lia].
  - unfold load_from_text.
    destruct (while_loop_total (List.length (lines_of text)) (lines_of text)
                (mkState 0 0%Z store)) as (st' & Hw & Hc & _); [simpl; lia|].
    rewrite Hw. exists (by_id st'), (count st'). split; [reflexivity|exact Hc].
Qed.

Lemma load_from_text_total_witness :
  (exists st', loop_body [samples.iss_name; samples.iss_line1; samples.iss_line2]
                 (mkState 0 0%Z samples.empty_store) = Ok st' /\ 0 < idx st')
  /\ exists (store' : TLEStore) (n : Z),
       load_from_text samples.empty_store "no elements here"
       = Some (Ok (store', n)) /\ (0 <= n)%Z.
Proof.
  destruct (load_from_text_total samples.empty_store "no elements here")
    as [Hstep Hload].
  split.
  - apply (Hstep [samples.iss_name; samples.iss_line1; samples.iss_line2]
             (mkState 0 0%Z samples.empty_store)).
    simpl. lia.
  - exact Hload.
Defined.

(** The lines that the loader reads from a block of three raw lines. *)
Lemma lines_of_raw_block (r0 r1 r2 : string) :
  tle_text.single_line r0 = true -> tle_text.single_line r1 = true ->
  tle_text.single_line r2 = true ->
  strip r0 <> "" -> strip r1 <> "" -> strip r2 <> "" ->
  lines_of (tle_text.three_line_block r0 r1 r2) = [strip r0; strip r1; strip r2].
Proof.
  intros S0 S1 S2 N0 N1 N2.
  unfold lines_of, tle_text.three_line_block, tle_text.nl.
  change (r0 ++ String LF "" ++ r1 ++ String LF "" ++ r2 ++ String LF "")
    with (r0 ++ String LF (r1 ++ String LF (r2 ++ String LF ""))).
  rewrite !splitlines_first_line by assumption.
  cbn [splitlines List.filter].
  rewrite !truthy_nonempty by assumption.
  reflexivity.
Qed.

(** When the lines that the loader reads are a name line, a line starting
    with ["1 "] from which a catalogue number [n] is read, and a line
    starting with ["2 "], loading the text and asking for [n] gives a record
    that holds exactly these two element lines. *)
Lemma load_get_lines (store : TLEStore) (text nm l1 l2 : string) (n : Z) :
  lines_of text = [nm; l1; l2] ->
  startswith l1 "1 " = true ->
  startswith l2 "2 " = true ->
  _extract_norad l1 = Some n ->
  exists store' : TLEStore,
    load_from_text store text = Some (Ok (store', 1%Z))
    /\ get store' n = Some (mkTLERecord nm l1 l2 n).
Proof.
  intros Hl P1 P2 Hn.
  unfold load_from_text. rewrite Hl.
  cbn [List.length while_loop idx Nat.add Nat.ltb Nat.leb].
  rewrite (loop_body_named [nm; l1; l2] (mkState 0 0%Z store) nm l1 l2)
    by (try reflexivity; assumption).
  unfold ingest. rewrite Hn.
  cbn [while_loop idx count by_id Nat.add Nat.ltb Nat.leb List.length].
  eexists. split; [reflexivity|].
  unfold get. apply lookup_insert_eq.
Qed.

Lemma load_get_raw_block (store : TLEStore) (r0 r1 r2 : string) (n : Z) :
  tle_text.single_line r0 = true -> tle_text.single_line r1 = true ->
  tle_text.single_line r2 = true ->
  strip r0 <> "" ->
  startswith (strip r1) "1 " = true ->
  startswith (strip r2) "2 " = true ->
  _extract_norad (strip r1) = Some n ->
  exists store' : TLEStore,
    load_from_text store (tle_text.three_line_block r0 r1 r2)
    = Some (Ok (store', 1%Z))
    /\ get store' n = Some (mkTLERecord (strip r0) (strip r1) (strip r2) n).
Proof.
  intros S0 S1 S2 N0 P1 P2 Hn.
  apply load_get_lines; try assumption.
  apply lines_of_raw_block; try assumption.
  - intros E. rewrite E in P1. discriminate.
  - intros E. rewrite E in P2. discriminate.
Qed.

(** C5, as stated, fails: a block whose line 1 is followed by two blanks
    is well formed and is ingested, and the record holds line 1 without the
    blanks, not the line of the input. *)
Lemma padded_line_is_stored_stripped :
  startswith (samples.iss_line1 ++ "  ") "1 " = true
  /\ startswith samples.iss_line2 "2 " = true
  /\ exists (store' : TLEStore) (rec : TLERecord),
       load_from_text samples.empty_store
         (tle_text.three_line_block samples.iss_name
            (samples.iss_line1 ++ "  ") samples.iss_line2)
       = Some (Ok (store', 1%Z))
       /\ get store' 25544 = Some rec
       /\ line1 rec = samples.iss_line1
       /\ line1 rec <> samples.iss_line1 ++ "  ".
Proof.
  split; [reflexivity|]. split; [reflexivity|].
  destruct (load_get_raw_block samples.empty_store samples.iss_name
              (samples.iss_line1 ++ "  ") samples.iss_line2 25544)
    as (store' & Hload & Hget);
    try (vm_compute; reflexivity); try (vm_compute; discriminate).
  exists store', (mkTLERecord (strip samples.iss_name)
                    (strip (samples.iss_line1 ++ "  "))
                    (strip samples.iss_line2) 25544).
  split; [exact Hload|]. split; [exact Hget|].
  cbn [line1]. split; [vm_compute; reflexivity|vm_compute; discriminate].
Qed.

(** C5, amended.  For a block of three raw lines, a name line, a line 1
    and a line 2, of which the stripped line 1 starts with ["1 "] and yields
    the catalogue number [n] and the stripped line 2 starts with ["2 "],
    loading the block and asking for [n] gives a record whose name, line 1
    and line 2 are the input lines with the white space around them
    removed.  The stored line is the line of the input, byte for byte,
    exactly when that line has no white space around it. *)
Theorem load_get_roundtrip (store : TLEStore) (r0 r1 r2 : string) (n : Z) :
  tle_text.single_line r0 = true -> tle_text.single_line r1 = true ->
  tle_text.single_line r2 = true ->
  strip r0 <> "" ->
  startswith (strip r1) "1 " = true ->
  startswith (strip r2) "2 " = true ->
  _extract_norad (strip r1) = Some n ->
  exists (store' : TLEStore) (rec : TLERecord),
    load_from_text store (tle_text.three_line_block r0 r1 r2)
    = Some (Ok (store', 1%Z))
    /\ get store' n = Some rec
    /\ line1 rec = strip r1 /\ line2 rec = strip r2
    /\ (line1 rec = r1 <-> strip r1 = r1)
    /\ (line2 rec = r2 <-> strip r2 = r2).
Proof.
  intros S0 S1 S2 N0 P1 P2 Hn.
  destruct (load_get_raw_block store r0 r1 r2 n S0 S1 S2 N0 P1 P2 Hn)
    as (store' & Hload & Hget).
  exists store', (mkTLERecord (strip r0) (strip r1) (strip r2) n).
  cbn [line1 line2]. repeat split; try assumption; auto.
Qed.

Lemma load_get_roundtrip_witness :
  exists (store' : TLEStore) (rec : TLERecord),
    load_from_text samples.empty_store
      (tle_text.three_line_block samples.iss_name
         (" " ++ samples.iss_line1 ++ "  ") samples.iss_line2)
    = Some (Ok (store', 1%Z))
    /\ get store' 25544 = Some rec
    /\ line1 rec = strip (" " ++ samples.iss_line1 ++ "  ")
    /\ line2 rec = strip samples.iss_line2
    /\ (line1 rec = " " ++ samples.iss_line1 ++ "  "
        <-> strip (" " ++ samples.iss_line1 ++ "  ")
            = " " ++ samples.iss_line1 ++ "  ")
    /\ (line2 rec = samples.iss_line2
        <-> strip samples.iss_line2 = samples.iss_line2).
Proof.
  apply (load_get_roundtrip samples.empty_store samples.iss_name
           (" " ++ samples.iss_line1 ++ "  ") samples.iss_line2 25544);
    try (vm_compute; reflexivity); vm_compute; discriminate.
Defined.

(** The round trip on the text of a block of bare lines. *)
Corollary load_get_roundtrip_block (store : TLEStore) (nm l1 l2 : string) (n : Z) :
  tle_text.bare_line nm -> tle_text.bare_line l1 -> tle_text.bare_line l2 ->
  startswith l1 "1 " = true ->
  startswith l2 "2 " = true ->
  _extract_norad l1 = Some n ->
  exists store' : TLEStore,
    load_from_text store (tle_text.three_line_block nm l1 l2)
    = Some (Ok (store', 1%Z))
    /\ get store' n = Some (mkTLERecord nm l1 l2 n).
Proof.
  intros Hn H1 H2 P1 P2 Hid.
  apply load_get_lines; try assumption.
  now apply lines_of_three_line_block.
Qed.

(** C4, as stated, fails: a block whose line 2 carries catalogue number
    99999 while line 1 carries 25544 is stored under 25544, counted, and
    returned by [get]. *)
Lemma mismatched_block_is_ingested :
  samples.columns_3_7 samples.iss_line1 = "25544"
  /\ samples.columns_3_7 samples.other_line2 = "99999"
  /\ exists store' : TLEStore,
       load_from_text samples.empty_store samples.mismatched_block
       = Some (Ok (store', 1%Z))
       /\ get store' 25544
          = Some (mkTLERecord samples.iss_name samples.iss_line1
                              samples.other_line2 25544).
Proof.
  split; [reflexivity|]. split; [reflexivity|].
  eexists. split; [vm_compute; reflexivity|].
  vm_compute. reflexivity.
Qed.

(** C4, amended.  The loader never reads a catalogue number out of line 2.
    Whenever the three lines under the index are a name line, a line
    starting with ["1 "] from which number [n] is read, and a line starting
    with ["2 "], the pass stores the block under [n], adds one to the count
    and moves on by three lines, whatever follows the prefix in line 2. *)
Theorem block_ingested_under_line1_id (lines : list string) (st : loop_state)
    (nm l1 rest2 : string) (n : Z) :
  nth_error lines (idx st) = Some nm ->
  nth_error lines (idx st + 1) = Some l1 ->
  nth_error lines (idx st + 2) = Some ("2 " ++ rest2) ->
  startswith l1 "1 " = true ->
  _extract_norad l1 = Some n ->
  exists st' : loop_state,
    loop_body lines st = Ok st'
    /\ idx st' = idx st + 3
    /\ count st' = (count st + 1)%Z
    /\ get (by_id st') n = Some (mkTLERecord nm l1 ("2 " ++ rest2) n).
Proof.
  intros Hn H1 H2 P1 Hid.
  rewrite (loop_body_named lines st nm l1 ("2 " ++ rest2)) by
    (try assumption; apply startswith_append).
  unfold ingest. rewrite Hid.
  eexists. split; [reflexivity|]. cbn [idx count by_id].
  repeat split. unfold get. apply lookup_insert_eq.
Qed.

Lemma block_ingested_under_line1_id_witness :
  exists st' : loop_state,
    loop_body [samples.iss_name; samples.iss_line1; samples.other_line2]
      (mkState 0 0%Z samples.empty_store) = Ok st'
    /\ idx st' = 3
    /\ count st' = 1%Z
    /\ get (by_id st') 25544
       = Some (mkTLERecord samples.iss_name samples.iss_line1
                           samples.other_line2 25544).
Proof.
  apply (block_ingested_under_line1_id
           [samples.iss_name; samples.iss_line1; samples.other_line2]
           (mkState 0 0%Z samples.empty_store)
           samples.iss_name samples.iss_line1
           "99999  51.6400 208.9163 0006317  69.9862  25.2906 15.49560532    18"
           25544); reflexivity.
Defined.

(** C8 at a text that consists of the two element lines only: the loop
    guard [i + 2 < len(lines)] is false from the start, nothing is stored
    and the count is 0. *)
Theorem headerless_final_block_dropped :
  lines_of samples.headerless_block = [samples.iss_line1; samples.iss_line2]
  /\ startswith samples.iss_line1 "1 " = true
  /\ startswith samples.iss_line2 "2 " = true
  /\ _extract_norad samples.iss_line1 = Some 25544%Z
  /\ load_from_text samples.empty_store samples.headerless_block
     = Some (Ok (samples.empty_store, 0%Z))
  /\ get samples.empty_store 25544 = None.
Proof.
  repeat (split; [reflexivity|]). reflexivity.
Qed.

End tle_store_facts.

(** ** The propagator *)

Module propagate_facts.

Import tle_store propagate.
Local Open Scope Z_scope.

Lemma range_length (n : Z) : List.length (range n) = Z.to_nat n.
Proof. unfold range. now rewrite length_map, length_seq. Qed.

Lemma seq_nth_error (len start i : nat) (k : nat) :
  nth_error (seq start len) i = Some k -> k = (start + i)%nat.
Proof.
  revert start i. induction len as [|len IH]; intros start i H.
  - destruct i; discriminate.
  - destruct i as [|i]; simpl in H.
    + injection H as <-. lia.
    + apply IH in H. lia.
Qed.

Lemma range_nth_error (n : Z) (i : nat) (k : Z) :
  nth_error (range n) i = Some k -> k = Z.of_nat i.
Proof.
  unfold range. intros H.
  rewrite nth_error_map in H.
  destruct (nth_error (seq 0 (Z.to_nat n)) i) as [j|] eqn:E; [|discriminate].
  injection H as <-. apply seq_nth_error in E. now subst.
Qed.

Section Skyfield.

Variable satellite : Type.
Variable EarthSatellite : string -> string -> string -> result satellite.
Variable subpoint : satellite -> Z -> R * R * R.

Let propagate_positions := propagate_positions satellite EarthSatellite subpoint.

Let collect := collect satellite subpoint.

Lemma reachable_spec (start s : Z) :
  reachable start s = true ->
  timedelta s = Ok s /\ datetime_add start s = Ok (start + s).
Proof.
  unfold reachable, timedelta, datetime_add. intros H.
  apply andb_true_iff in H. destruct H as [H1 H2]. now rewrite H1, H2.
Qed.

Lemma unreachable_spec (start s : Z) :
  reachable start s = false ->
  (let* delta := timedelta s in datetime_add start delta) = Raise OverflowError.
Proof.
  unfold reachable, timedelta, datetime_add. intros H.
  destruct ((-999999999 <=? s / 86400) && (s / 86400 <=? 999999999));
    [|reflexivity].
  cbn [bind]. simpl in H. now rewrite H.
Qed.

(** The loop returns the samples of all its indices when every instant can
    be reached, and ends in [OverflowError] otherwise. *)
Lemma collect_spec (sat : satellite) (t0 step : Z) (ks : list Z) :
  collect sat t0 step ks
  = if forallb (fun k => reachable t0 (k * step)) ks
    then Ok (List.map
               (fun k =>
                  let '(lat, lon, alt) := subpoint sat (t0 + k * step) in
                  mkSample (t0 + k * step) lat lon alt) ks)
    else Raise OverflowError.
Proof.
  unfold collect.
  induction ks as [|k ks IH]; [reflexivity|].
  cbn [propagate.collect forallb List.map].
  destruct (reachable t0 (k * step)) eqn:E.
  - destruct (reachable_spec _ _ E) as [E1 E2]. rewrite E1. cbn [bind].
    rewrite E2. cbn [bind andb].
    destruct (subpoint sat (t0 + k * step)) as [[lat lon] alt].
    rewrite IH.
    now destruct (forallb (fun k0 => reachable t0 (k0 * step)) ks).
  - cbn [andb]. pose proof (unreachable_spec _ _ E) as Hu.
    destruct (timedelta (k * step)) as [d|e] eqn:E1; cbn [bind] in *.
    + now rewrite Hu.
    + now injection Hu as ->.
Qed.

Lemma reachable_range (t0 step n : Z) :
  0 <= n -> 1 <= step ->
  datetime_min <= t0 <= datetime_max ->
  forallb (fun k => reachable t0 (k * step)) (range (n + 1))
  = (t0 + n * step <=? datetime_max).
Proof.
  intros Hn Hs Ht0. unfold datetime_min, datetime_max in *.
  destruct (Z.leb_spec (t0 + n * step) 315537897599) as [Hle|Hgt].
  - apply forallb_forall. intros k Hk. unfold range in Hk.
    apply in_map_iff in Hk. destruct Hk as (i & <- & Hi). apply in_seq in Hi.
    assert (Hk : 0 <= Z.of_nat i <= n) by lia.
    assert (Hks : 0 <= Z.of_nat i * step <= n * step) by nia.
    assert (Hd : 0 <= Z.of_nat i * step / 86400 <= 3652059).
    { split; [apply Z.div_pos; lia|].
      apply Z.div_le_upper_bound; lia. }
    unfold reachable, datetime_min, datetime_max.
    repeat (apply andb_true_iff; split); apply Z.leb_le; lia.
  - destruct (forallb _ (range (n + 1))) eqn:E; [|reflexivity].
    rewrite forallb_forall in E.
    assert (Hin : In n (range (n + 1))).
    { unfold range. apply in_map_iff. exists (Z.to_nat n).
      split; [lia|]. apply in_seq. lia. }
    specialize (E n Hin). unfold reachable, datetime_max in E.
    apply andb_true_iff in E. destruct E as [_ E].
    apply andb_true_iff in E. destruct E as [_ E].
    apply Z.leb_le in E. lia.
Qed.

(** The samples of a successful call: their number and their instants. *)
Lemma propagate_positions_samples (rec : TLERecord) (sat : satellite)
    (t0 minutes step : Z) :
  step <> 0 ->
  EarthSatellite (line1 rec) (line2 rec) (name rec) = Ok sat ->
  forallb (fun k => reachable t0 (k * step))
    (range (Z.max 1 (minutes * 60 / step) + 1)) = true ->
  exists samples : list sample,
    propagate_positions rec t0 minutes step = Ok samples
    /\ List.length samples = Z.to_nat (Z.max 1 (minutes * 60 / step) + 1)
    /\ forall (i : nat) (s : sample),
         nth_error samples i = Some s -> t s = t0 + Z.of_nat i * step.
Proof.
  intros Hs Hsat Hreach.
  unfold propagate_positions, propagate.propagate_positions.
  rewrite Hsat. cbn [bind].
  destruct (Z.eqb_spec step 0) as [|_]; [contradiction|].
  cbv zeta. fold (collect sat t0 step). rewrite collect_spec, Hreach.
  eexists. split; [reflexivity|]. split.
  - now rewrite length_map, range_length.
  - intros i s H. rewrite nth_error_map in H.
    destruct (nth_error (range _) i) as [k|] eqn:E; [|discriminate].
    apply range_nth_error in E. subst k. injection H as <-.
    now destruct (subpoint sat (t0 + Z.of_nat i * step)) as [[lat lon] alt].
Qed.

Lemma propagate_positions_overflow (rec : TLERecord) (sat : satellite)
    (t0 minutes step : Z) :
  step <> 0 ->
  EarthSatellite (line1 rec) (line2 rec) (name rec) = Ok sat ->
  forallb (fun k => reachable t0 (k * step))
    (range (Z.max 1 (minutes * 60 / step) + 1)) = false ->
  propagate_positions rec t0 minutes step = Raise OverflowError.
Proof.
  intros Hs Hsat Hreach.
  unfold propagate_positions, propagate.propagate_positions.
  rewrite Hsat. cbn [bind].
  destruct (Z.eqb_spec step 0) as [|_]; [contradiction|].
  cbv zeta. fold (collect sat t0 step). now rewrite collect_spec, Hreach.
Qed.

(** C1, amended.  For a record that the orbital library accepts, a start
    time, a duration of at least one minute and a step of at least one
    second, let [n = max(1, floor(minutes*60 / step_seconds))].  When the
    last instant [t0 + n * step_seconds] is still a [datetime], the call
    returns [n + 1] samples, which is [floor(minutes*60 / step_seconds) + 1]
    whenever the step is no longer than the window; the first sample is at
    the start time and consecutive samples are [step_seconds] apart.  When
    the last instant lies beyond [datetime.max], the call raises
    [OverflowError]. *)
Theorem propagate_sample_count (rec : TLERecord) (sat : satellite)
    (t0 minutes step : Z) :
  1 <= minutes ->
  1 <= step ->
  datetime_min <= t0 <= datetime_max ->
  EarthSatellite (line1 rec) (line2 rec) (name rec) = Ok sat ->
  (t0 + Z.max 1 (minutes * 60 / step) * step <= datetime_max ->
   exists samples : list sample,
     propagate_positions rec t0 minutes step = Ok samples
     /\ Z.of_nat (List.length samples) = Z.max 1 (minutes * 60 / step) + 1
     /\ (step <= minutes * 60 ->
         Z.of_nat (List.length samples) = minutes * 60 / step + 1)
     /\ (exists s0, nth_error samples 0 = Some s0 /\ t s0 = t0)
     /\ forall (i : nat) (a b : sample),
          nth_error samples i = Some a ->
          nth_error samples (S i) = Some b ->
          t b - t a = step)
  /\ (datetime_max < t0 + Z.max 1 (minutes * 60 / step) * step ->
      propagate_positions rec t0 minutes step = Raise OverflowError).
Proof.
  intros Hm Hs Ht0 Hsat.
  pose proof (reachable_range t0 step (Z.max 1 (minutes * 60 / step))
                ltac:(lia) Hs Ht0) as Hreach.
  split; intros Hlast.
  - assert (Hall : forallb (fun k => reachable t0 (k * step))
                     (range (Z.max 1 (minutes * 60 / step) + 1)) = true).
    { rewrite Hreach. now apply Z.leb_le. }
    destruct (propagate_positions_samples rec sat t0 minutes step)
      as (samples & Hrun & Hlen & Ht); [lia|exact Hsat|exact Hall|].
    exists samples. split; [exact Hrun|].
    assert (Hlen' : Z.of_nat (List.length samples)
                    = Z.max 1 (minutes * 60 / step) + 1).
    { rewrite Hlen. rewrite Z2Nat.id; lia. }
    split; [exact Hlen'|]. split; [|split].
    + intros Hle. rewrite Hlen'.
      assert (1 <= minutes * 60 / step).
      { apply Z.div_le_lower_bound; lia. }
      lia.
    + destruct samples as [|s0 samples'].
      * simpl in Hlen'. lia.
      * exists s0. split; [reflexivity|].
        rewrite (Ht 0%nat s0 eq_refl). simpl. lia.
    + intros i a b Ha Hb.
      rewrite (Ht _ _ Ha), (Ht _ _ Hb). lia.
  - apply (propagate_positions_overflow rec sat); [lia|exact Hsat|].
    rewrite Hreach. apply Z.leb_gt. exact Hlast.
Qed.

End Skyfield.

(** C1, as stated, fails: with a window of one minute and a step of 61
    seconds the formula gives [floor(60/61) + 1 = 1] sample, and the call
    returns two. *)
Lemma one_minute_long_step_two_samples :
  1 * 60 / 61 + 1 = 1
  /\ exists samples : list sample,
       propagate_positions unit (fun _ _ _ => Ok tt) (fun _ _ => (0, 0, 0)%R)
         (mkTLERecord samples.iss_name samples.iss_line1 samples.iss_line2 25544)
         0 1 61 = Ok samples
       /\ List.length samples = 2%nat.
Proof.
  split; [reflexivity|].
  eexists. split; reflexivity.
Qed.

Lemma propagate_sample_count_witness :
  exists samples : list sample,
    propagate_positions unit (fun _ _ _ => Ok tt) (fun _ _ => (0, 0, 0)%R)
      (mkTLERecord samples.iss_name samples.iss_line1 samples.iss_line2 25544)
      0 120 60 = Ok samples
    /\ Z.of_nat (List.length samples) = Z.max 1 (120 * 60 / 60) + 1
    /\ (60 <= 120 * 60 -> Z.of_nat (List.length samples) = 120 * 60 / 60 + 1)
    /\ (exists s0, nth_error samples 0 = Some s0 /\ t s0 = 0)
    /\ forall (i : nat) (a b : sample),
         nth_error samples i = Some a ->
         nth_error samples (S i) = Some b ->
         t b - t a = 60.
Proof.
  apply (proj1
           (propagate_sample_count unit (fun _ _ _ => Ok tt)
              (fun _ _ => (0, 0, 0)%R)
              (mkTLERecord samples.iss_name samples.iss_line1 samples.iss_line2
                 25544)
              tt 0 120 60 ltac:(lia) ltac:(lia)
              ltac:(unfold datetime_min, datetime_max; lia) eq_refl)).
  apply Z.leb_le. reflexivity.
Defined.

(** The other arm, at the last minute of the last year: the second sample
    would lie in the year 10000. *)
Lemma propagate_sample_count_overflow :
  propagate_positions unit (fun _ _ _ => Ok tt) (fun _ _ => (0, 0, 0)%R)
    (mkTLERecord samples.iss_name samples.iss_line1 samples.iss_line2 25544)
    315537897570 1 60 = Raise OverflowError.
Proof. reflexivity. Qed.

End propagate_facts.

(** ** Comparisons on rationals *)

Lemma Qeq_bool_true (x y : Q) : x == y -> Qeq_bool x y = true.
Proof. apply Qeq_bool_iff. Qed.

Lemma Qeq_bool_false (x y : Q) : ~ x == y -> Qeq_bool x y = false.
Proof.
  intros H. destruct (Qeq_bool x y) eqn:E; [|reflexivity].
  apply Qeq_bool_iff in E. contradiction.
Qed.

Lemma Qle_bool_true (x y : Q) : x <= y -> Qle_bool x y = true.
Proof. apply Qle_bool_iff. Qed.

Lemma Qle_bool_false (x y : Q) : y < x -> Qle_bool x y = false.
Proof.
  intros H. destruct (Qle_bool x y) eqn:E; [|reflexivity].
  apply Qle_bool_iff in E. lra.
Qed.

Lemma Qlt_bool_iff (x y : Q) : risk.Qlt_bool x y = true <-> x < y.
Proof.
  unfold risk.Qlt_bool. split; intros H.
  - destruct (Qle_bool y x) eqn:E; [discriminate|].
    destruct (Qlt_le_dec x y) as [L|L]; [exact L|].
    apply Qle_bool_iff in L. congruence.
  - now rewrite Qle_bool_false.
Qed.

Lemma near_iff (x y : Q) :
  risk.near x y = true <-> Qabs (x - y) < 1 # 1000000.
Proof. unfold risk.near. apply Qlt_bool_iff. Qed.

Lemma near_eq (x y : Q) : x == y -> risk.near x y = true.
Proof.
  intros H. apply near_iff. apply Qabs_Qlt_condition. split; lra.
Qed.

Lemma Qeq_bool_lt (x y : Q) : x < y -> Qeq_bool x y = false.
Proof. intros H. apply Qeq_bool_false. intros E. lra. Qed.

Lemma Qeq_bool_gt (x y : Q) : y < x -> Qeq_bool x y = false.
Proof. intros H. apply Qeq_bool_false. intros E. lra. Qed.

(** ** The flux table *)

Module risk_facts.

Import risk.
Local Open Scope Q_scope.

(** Without a row of the requested size bin the default [alts[0]] is
    evaluated on an empty list. *)
Lemma neighbors_no_size_match (alt inc smin' smax' : Q) (rows : list row) :
  List.filter (fun r => Qeq_bool (smin r) smin' && Qeq_bool (smax r) smax') rows = [] ->
  _neighbors alt inc smin' smax' rows = Raise IndexError.
Proof. intros H. unfold _neighbors. rewrite H. reflexivity. Qed.

Lemma flux_no_size_match (alt inc smin' smax' : Q) (rows : list row) :
  List.filter (fun r => Qeq_bool (smin r) smin' && Qeq_bool (smax r) smax') rows = [] ->
  flux_ordem_like rows alt inc smin' smax' = Raise IndexError.
Proof.
  intros H. unfold flux_ordem_like.
  now rewrite (neighbors_no_size_match _ _ _ _ _ H).
Qed.

(** C2 at a query for the size bin 2-5 cm, which the table does not hold:
    the call raises [IndexError] out of [_neighbors]; the fallback to the
    nearest row in [flux_ordem_like] is never reached. *)
Theorem flux_unknown_size_bin_raises :
  List.filter (fun r => Qeq_bool (smin r) 2 && Qeq_bool (smax r) 5)
    samples.flux_table = []
  /\ flux_ordem_like samples.flux_table 400 (258 # 5) 2 5 = Raise IndexError.
Proof. split; reflexivity. Qed.

(** The lookup by coordinates finds a row as soon as one lies on the
    requested point, and what it finds is a row of the list. *)
Lemma find_near_exists (grid : list row) (A I : Q) (g : row) :
  In g grid -> alt_km g == A -> inc_deg g == I ->
  exists g', find_near grid A I = Some g' /\ In g' grid.
Proof.
  intros Hin HA HI. unfold find_near.
  destruct (List.find _ grid) as [g'|] eqn:E.
  - exists g'. split; [reflexivity|]. now apply find_some in E.
  - apply (find_none _ _ E) in Hin.
    rewrite (near_eq _ _ HA), (near_eq _ _ HI) in Hin. discriminate.
Qed.




Section FourCorners.

(** A query strictly inside the cell spanned by four rows that lie on the
    grid lines [a1 < a2] and [i1 < i2], in the order in which [_neighbors]
    emits them. *)
Variables (alt inc a1 a2 i1 i2 : Q) (g11 g12 g21 g22 : row).
Hypothesis H11 : alt_km g11 == a1 /\ inc_deg g11 == i1.
Hypothesis H12 : alt_km g12 == a1 /\ inc_deg g12 == i2.
Hypothesis H21 : alt_km g21 == a2 /\ inc_deg g21 == i1.
Hypothesis H22 : alt_km g22 == a2 /\ inc_deg g22 == i2.
Hypothesis Halt : a1 < alt /\ alt < a2.
Hypothesis Hinc : i1 < inc /\ inc < i2.

Let grid := [g11; g12; g21; g22].





End FourCorners.

(** *** The neighbour lookup on a well-separated table *)

Lemma insert_uniq_In (x z : Q) (l : list Q) :
  In z (insert_uniq x l) -> z = x \/ In z l.
Proof.
  induction l as [|y l IH]; simpl.
  - intros [<-|[]]. now left.
  - destruct (Qeq_bool x y); [now right|].
    destruct (Qle_bool x y).
    + intros [<-|H]; [now left|now right].
    + intros [<-|H]; [right; now left|].
      destruct (IH H) as [->|H']; [now left|right; now right].
Qed.

Lemma sorted_set_In (z : Q) (l : list Q) : In z (sorted_set l) -> In z l.
Proof.
  induction l as [|x l IH]; [intros []|].
  unfold sorted_set in *. simpl. intros H.
  apply insert_uniq_In in H. destruct H as [->|H]; [now left|right; auto].
Qed.

Lemma insert_uniq_cover (x z : Q) (l : list Q) :
  z == x \/ (exists y, In y l /\ y == z) ->
  exists y, In y (insert_uniq x l) /\ y == z.
Proof.
  induction l as [|y l IH]; simpl.
  - intros [H|(y & [] & _)]. exists x. split; [now left|lra].
  - destruct (Qeq_bool x y) eqn:E.
    + apply Qeq_bool_iff in E.
      intros [H|(w & Hw & Hz)].
      * exists y. split; [now left|lra].
      * exists w. split; assumption.
    + destruct (Qle_bool x y).
      * intros [H|(w & Hw & Hz)].
        -- exists x. split; [now left|lra].
        -- exists w. split; [now right|assumption].
      * intros [H|(w & [<-|Hw] & Hz)].
        -- destruct IH as (w & Hw & Hz); [now left|].
           exists w. split; [now right|assumption].
        -- exists y. split; [now left|assumption].
        -- destruct IH as (w' & Hw' & Hz'); [right; now exists w|].
           exists w'. split; [now right|assumption].
Qed.

Lemma sorted_set_cover (z : Q) (l : list Q) :
  In z l -> exists y, In y (sorted_set l) /\ y == z.
Proof.
  induction l as [|x l IH]; [intros []|].
  unfold sorted_set in *. simpl. intros [->|H].
  - apply insert_uniq_cover. now left.
  - apply insert_uniq_cover. right. now apply IH.
Qed.

Lemma fold_max_spec (l : list Q) (x : Q) :
  let m := fold_left (fun m y => if Qlt_bool m y then y else m) l x in
  (m = x \/ In m l) /\ x <= m /\ forall y, In y l -> y <= m.
Proof.
  revert x. induction l as [|z l IH]; intros x; simpl.
  - repeat split; [now left|lra|intros y []].
  - destruct (IH (if Qlt_bool x z then z else x)) as (Hin & Hle & Hall).
    destruct (Qlt_bool x z) eqn:E.
    + apply Qlt_bool_iff in E. repeat split.
      * destruct Hin as [->|Hin]; right; [now left|now right].
      * lra.
      * intros y [<-|Hy]; [exact Hle|now apply Hall].
    + assert (z <= x).
      { destruct (Qlt_le_dec x z) as [L|L]; [|exact L].
        apply Qlt_bool_iff in L. congruence. }
      repeat split.
      * destruct Hin as [->|Hin]; [now left|right; now right].
      * exact Hle.
      * intros y [<-|Hy]; [lra|now apply Hall].
Qed.

Lemma fold_min_spec (l : list Q) (x : Q) :
  let m := fold_left (fun m y => if Qlt_bool y m then y else m) l x in
  (m = x \/ In m l) /\ m <= x /\ forall y, In y l -> m <= y.
Proof.
  revert x. induction l as [|z l IH]; intros x; simpl.
  - repeat split; [now left|lra|intros y []].
  - destruct (IH (if Qlt_bool z x then z else x)) as (Hin & Hle & Hall).
    destruct (Qlt_bool z x) eqn:E.
    + apply Qlt_bool_iff in E. repeat split.
      * destruct Hin as [->|Hin]; right; [now left|now right].
      * lra.
      * intros y [<-|Hy]; [exact Hle|now apply Hall].
    + assert (x <= z).
      { destruct (Qlt_le_dec z x) as [L|L]; [|exact L].
        apply Qlt_bool_iff in L. congruence. }
      repeat split.
      * destruct Hin as [->|Hin]; [now left|right; now right].
      * exact Hle.
      * intros y [<-|Hy]; [lra|now apply Hall].
Qed.

(** The lower end of the bracket: the greatest tabulated value that does
    not exceed the query. *)
Lemma max_default_spec (vals : list Q) (q d lo : Q) :
  (exists y, In y vals /\ y == lo) -> lo <= q ->
  let m := max_default (List.filter (fun a => Qle_bool a q) vals) d in
  In m vals /\ m <= q /\ lo <= m.
Proof.
  intros (y & Hy & Hlo) Hq. cbv zeta. unfold max_default.
  assert (Hyf : In y (List.filter (fun a => Qle_bool a q) vals)).
  { apply filter_In. split; [exact Hy|]. apply Qle_bool_iff. lra. }
  destruct (List.filter (fun a => Qle_bool a q) vals) as [|x l] eqn:E;
    [destruct Hyf|].
  destruct (fold_max_spec l x) as (Hin & Hle & Hall).
  assert (Hm : In (fold_left (fun m y0 => if Qlt_bool m y0 then y0 else m) l x)
                  (x :: l)).
  { destruct Hin as [->|Hin]; [now left|now right]. }
  rewrite <- E in Hm. apply filter_In in Hm. destruct Hm as [Hv Hb].
  apply Qle_bool_iff in Hb. repeat split; [exact Hv|exact Hb|].
  destruct Hyf as [<-|Hyl]; [lra|]. specialize (Hall y Hyl). lra.
Qed.

(** The upper end: the least tabulated value that is not below the query. *)
Lemma min_default_spec (vals : list Q) (q d hi : Q) :
  (exists y, In y vals /\ y == hi) -> q <= hi ->
  let m := min_default (List.filter (fun a => Qle_bool q a) vals) d in
  In m vals /\ q <= m /\ m <= hi.
Proof.
  intros (y & Hy & Hhi) Hq. cbv zeta. unfold min_default.
  assert (Hyf : In y (List.filter (fun a => Qle_bool q a) vals)).
  { apply filter_In. split; [exact Hy|]. apply Qle_bool_iff. lra. }
  destruct (List.filter (fun a => Qle_bool q a) vals) as [|x l] eqn:E;
    [destruct Hyf|].
  destruct (fold_min_spec l x) as (Hin & Hle & Hall).
  assert (Hm : In (fold_left (fun m y0 => if Qlt_bool y0 m then y0 else m) l x)
                  (x :: l)).
  { destruct Hin as [->|Hin]; [now left|now right]. }
  rewrite <- E in Hm. apply filter_In in Hm. destruct Hm as [Hv Hb].
  apply Qle_bool_iff in Hb. repeat split; [exact Hv|exact Hb|].
  destruct Hyf as [<-|Hyl]; [lra|]. specialize (Hall y Hyl). lra.
Qed.

Lemma getitem_first_nonempty {A : Type} (l : list A) :
  l <> [] -> exists x, getitem l 0 = Ok x.
Proof. destruct l as [|x l]; [contradiction|]. intros _. now exists x. Qed.

Lemma getitem_last_nonempty {A : Type} (l : list A) :
  l <> [] -> exists x, getitem_last l = Ok x.
Proof.
  intros H. unfold getitem_last.
  destruct (List.rev l) as [|x r] eqn:E.
  - apply (f_equal (@List.length A)) in E. rewrite length_rev in E.
    destruct l; [contradiction|discriminate].
  - now exists x.
Qed.

Lemma find_near_separated (cands : list row) (A I : Q) (r : row) :
  separated alt_km cands -> separated inc_deg cands ->
  In r cands -> alt_km r == A -> inc_deg r == I ->
  exists g, find_near cands A I = Some g
            /\ In g cands /\ alt_km g == A /\ inc_deg g == I.
Proof.
  intros Hsa Hsi Hr HA HI.
  destruct (find_near_exists cands A I r Hr HA HI) as (g & Hf & Hg).
  exists g. split; [exact Hf|]. split; [exact Hg|].
  unfold find_near in Hf. apply find_some in Hf. destruct Hf as [_ Hb].
  apply andb_true_iff in Hb. destruct Hb as [Na Ni].
  apply near_iff in Na. apply near_iff in Ni.
  split.
  - destruct (Hsa g r Hg Hr) as [E|Far]; [lra|].
    assert (W : alt_km g - alt_km r == alt_km g - A) by lra.
    rewrite W in Far. lra.
  - destruct (Hsi g r Hg Hr) as [E|Far]; [lra|].
    assert (W : inc_deg g - inc_deg r == inc_deg g - I) by lra.
    rewrite W in Far. lra.
Qed.

Section WellSeparatedTable.

(** A table whose grid lines in the requested size bin are separated, a
    cell [a1 < a2], [i1 < i2] of that grid with a row on each corner and no
    grid line through its interior, and a query strictly inside the cell. *)
Variables (rows : list row) (alt inc size_min_cm size_max_cm a1 a2 i1 i2 : Q).
Let cands := size_bin size_min_cm size_max_cm rows.
Hypothesis Hsa : separated alt_km cands.
Hypothesis Hsi : separated inc_deg cands.
Hypothesis C11 : exists r, In r cands /\ alt_km r == a1 /\ inc_deg r == i1.
Hypothesis C12 : exists r, In r cands /\ alt_km r == a1 /\ inc_deg r == i2.
Hypothesis C21 : exists r, In r cands /\ alt_km r == a2 /\ inc_deg r == i1.
Hypothesis C22 : exists r, In r cands /\ alt_km r == a2 /\ inc_deg r == i2.
Hypothesis Halt : a1 < alt /\ alt < a2.
Hypothesis Hinc : i1 < inc /\ inc < i2.
Hypothesis Hadj_a : forall r, In r cands -> alt_km r <= a1 \/ a2 <= alt_km r.
Hypothesis Hadj_i : forall r, In r cands -> inc_deg r <= i1 \/ i2 <= inc_deg r.





End WellSeparatedTable.


Lemma separated_flux_table (coord : row -> Q) :
  coord = alt_km \/ coord = inc_deg ->
  separated coord (size_bin 1 10 samples.flux_table).
Proof.
  intros Hc r r' Hr Hr'.
  assert (Hrows : forall x, In x (size_bin 1 10 samples.flux_table) ->
            x = mkRow 400 0 1 10 (1 # 100000) \/ x = mkRow 400 90 1 10 (2 # 100000)
            \/ x = mkRow 800 0 1 10 (3 # 100000) \/ x = mkRow 800 90 1 10 (5 # 100000)).
  { intros x Hx. vm_compute in Hx. intuition. }
  destruct (Hrows r Hr) as [->|[->|[->| ->]]],
    (Hrows r' Hr') as [->|[->|[->| ->]]], Hc as [->| ->];
    first [left; reflexivity | right; vm_compute; discriminate].
Qed.




End risk_facts.

(** ** Rounding to the nearest float *)

Module binary64_facts.
Import binary64.
Local Open Scope R_scope.

(** nearest_even *)

Lemma Rabs_le_inv (a b : R) : Rabs a <= b -> - b <= a <= b.
Proof. unfold Rabs. destruct (Rcase_abs a); lra. Qed.

Lemma nearest_even_spec (y : R) :
  Rabs (y - IZR (nearest_even y)) < 1 / 2
  \/ (Rabs (y - IZR (nearest_even y)) = 1 / 2
      /\ Z.even (nearest_even y) = true).
Proof.
  unfold nearest_even. cbv zeta.
  destruct (base_Int_part y) as [H1 H2].
  destruct (Rlt_dec (y - IZR (Int_part y)) (1 / 2)) as [H|H].
  - left. rewrite Rabs_pos_eq; lra.
  - destruct (Rlt_dec (1 / 2) (y - IZR (Int_part y))) as [H'|H'].
    + left. rewrite plus_IZR. rewrite Rabs_left; lra.
    + assert (E : y - IZR (Int_part y) = 1 / 2) by lra.
      right. destruct (Z.even (Int_part y)) eqn:Ev.
      * split; [rewrite Rabs_pos_eq; lra|exact Ev].
      * split.
        -- rewrite plus_IZR. rewrite Rabs_left; lra.
        -- rewrite Z.even_add, Ev. reflexivity.
Qed.

Lemma nearest_even_unique (y : R) (n : Z) :
  Rabs (y - IZR n) < 1 / 2
  \/ (Rabs (y - IZR n) = 1 / 2 /\ Z.even n = true) ->
  n = nearest_even y.
Proof.
  intros Hn. pose proof (nearest_even_spec y) as Hm.
  set (m := nearest_even y) in *.
  assert (Bn : - (1 / 2) <= y - IZR n <= 1 / 2).
  { destruct Hn as [Hn|[Hn _]].
    - apply Rabs_def2 in Hn. lra.
    - assert (H' : Rabs (y - IZR n) <= 1 / 2) by lra.
      apply Rabs_le_inv in H'. lra. }
  assert (Bm : - (1 / 2) <= y - IZR m <= 1 / 2).
  { destruct Hm as [Hm|[Hm _]].
    - apply Rabs_def2 in Hm. lra.
    - assert (H' : Rabs (y - IZR m) <= 1 / 2) by lra.
      apply Rabs_le_inv in H'. lra. }
  assert (Hz : (-1 <= n - m <= 1)%Z).
  { split; apply le_IZR; rewrite minus_IZR; lra. }
  destruct (Z.eq_dec n m) as [E|N]; [exact E|exfalso].
  assert (Hstrict : Rabs (y - IZR n) < 1 / 2 \/ Rabs (y - IZR m) < 1 / 2 ->
                    False).
  { intros S.
    assert (L : -1 < IZR (n - m) < 1).
    { rewrite minus_IZR.
      destruct S as [S|S]; apply Rabs_def2 in S; lra. }
    destruct L as [L1 L2]. apply lt_IZR in L1, L2. lia. }
  destruct Hn as [Hn|[Hn En]]; [now apply Hstrict; left|].
  destruct Hm as [Hm|[Hm Em]]; [now apply Hstrict; right|].
  assert (D : (n = m + 1 \/ m = n + 1)%Z) by lia.
  destruct D as [D|D].
  - rewrite D, Z.even_add, Em in En. discriminate.
  - rewrite D, Z.even_add, En in Em. discriminate.
Qed.

Lemma nearest_even_IZR (n : Z) : nearest_even (IZR n) = n.
Proof.
  symmetry. apply nearest_even_unique. left.
  replace (IZR n - IZR n) with 0 by ring. rewrite Rabs_R0. lra.
Qed.

Lemma nearest_even_opp (y : R) : nearest_even (- y) = (- nearest_even y)%Z.
Proof.
  symmetry. apply nearest_even_unique.
  rewrite opp_IZR.
  replace (- y - - IZR (nearest_even y)) with (- (y - IZR (nearest_even y)))
    by ring.
  rewrite Rabs_Ropp, Z.even_opp. apply nearest_even_spec.
Qed.

Lemma nearest_even_near (y : R) :
  - (1 / 2) <= y - IZR (nearest_even y) <= 1 / 2.
Proof.
  destruct (nearest_even_spec y) as [H|[H _]].
  - apply Rabs_def2 in H. lra.
  - assert (H' : Rabs (y - IZR (nearest_even y)) <= 1 / 2) by lra.
    apply Rabs_le_inv in H'. lra.
Qed.

Lemma nearest_even_lower (y : R) (m : Z) :
  IZR m <= y -> (m <= nearest_even y)%Z.
Proof.
  intros H. pose proof (nearest_even_near y) as Hn.
  assert (Hlt : IZR m < IZR (nearest_even y + 1)).
  { rewrite plus_IZR. lra. }
  apply lt_IZR in Hlt. lia.
Qed.

Lemma nearest_even_upper (y : R) (M : Z) :
  y <= IZR M -> (nearest_even y <= M)%Z.
Proof.
  intros H. pose proof (nearest_even_near y) as Hn.
  assert (Hlt : IZR (nearest_even y) < IZR (M + 1)).
  { rewrite plus_IZR. lra. }
  apply lt_IZR in Hlt. lia.
Qed.

Lemma nearest_even_mono (x y : R) :
  x <= y -> (nearest_even x <= nearest_even y)%Z.
Proof.
  intros Hxy.
  destruct (Z_le_gt_dec (nearest_even x) (nearest_even y)) as [H|H];
    [exact H|exfalso].
  pose proof (nearest_even_near x) as Hx.
  pose proof (nearest_even_near y) as Hy.
  assert (Hz : IZR (nearest_even y) + 1 <= IZR (nearest_even x)).
  { rewrite <- plus_IZR. apply IZR_le. lia. }
  assert (E : x = y) by lra. subst y. lia.
Qed.

(** powers of two *)

Lemma pow2_pos (k : Z) : 0 < powerRZ 2 k.
Proof. apply powerRZ_lt. lra. Qed.

Lemma pow2_add (a b : Z) : powerRZ 2 (a + b) = powerRZ 2 a * powerRZ 2 b.
Proof. apply powerRZ_add. lra. Qed.

Lemma pow2_opp (a : Z) : powerRZ 2 (- a) = / powerRZ 2 a.
Proof. apply powerRZ_neg'. Qed.

Lemma pow2_cancel (a : Z) : powerRZ 2 (- a) * powerRZ 2 a = 1.
Proof. rewrite <- pow2_add. replace (- a + a)%Z with 0%Z by lia. reflexivity. Qed.

Lemma pow2_nonneg_exponent (k : Z) :
  (0 <= k)%Z -> powerRZ 2 k = IZR (2 ^ k).
Proof.
  intros Hk. rewrite <- (Z2Nat.id k Hk) at 1.
  rewrite <- pow_powerRZ. rewrite pow_IZR. now rewrite Z2Nat.id.
Qed.

Lemma pow2_ge_1 (k : Z) : (0 <= k)%Z -> 1 <= powerRZ 2 k.
Proof.
  intros Hk. rewrite pow2_nonneg_exponent by exact Hk.
  apply IZR_le. pose proof (Z.pow_pos_nonneg 2 k ltac:(lia) Hk). lia.
Qed.

Lemma pow2_le (a b : Z) : (a <= b)%Z -> powerRZ 2 a <= powerRZ 2 b.
Proof.
  intros H. replace b with (a + (b - a))%Z by lia. rewrite pow2_add.
  pose proof (pow2_pos a). pose proof (pow2_ge_1 (b - a) ltac:(lia)). nra.
Qed.

Lemma pow2_lt (a b : Z) : (a < b)%Z -> powerRZ 2 a < powerRZ 2 b.
Proof.
  intros H. replace b with (a + 1 + (b - a - 1))%Z by lia.
  rewrite !pow2_add. change (powerRZ 2 1) with (2 * 1).
  pose proof (pow2_pos a). pose proof (pow2_ge_1 (b - a - 1) ltac:(lia)). nra.
Qed.

Lemma pow2_lt_inv (a b : Z) : powerRZ 2 a < powerRZ 2 b -> (a < b)%Z.
Proof.
  intros H. destruct (Z_lt_le_dec a b) as [L|G]; [exact L|].
  pose proof (pow2_le b a G). lra.
Qed.

Lemma pow2_exp (k : Z) : powerRZ 2 k = exp (IZR k * ln 2).
Proof. rewrite powerRZ_Rpower by lra. reflexivity. Qed.

(** magnitude *)

Lemma ln2_pos : 0 < ln 2.
Proof. rewrite <- ln_1. apply ln_increasing; lra. Qed.

Lemma magnitude_bounds (x : R) :
  x <> 0 ->
  powerRZ 2 (magnitude x) <= Rabs x < powerRZ 2 (magnitude x + 1).
Proof.
  intros Hx. unfold magnitude.
  set (r := ln (Rabs x) / ln 2).
  pose proof (Rabs_pos_lt x Hx) as Hpos.
  pose proof ln2_pos as L2.
  destruct (base_Int_part r) as [H1 H2].
  assert (Er : r * ln 2 = ln (Rabs x)) by (unfold r; field; lra).
  rewrite !pow2_exp, plus_IZR.
  rewrite <- (exp_ln (Rabs x) Hpos). rewrite <- Er.
  split.
  - destruct (Req_dec (IZR (Int_part r)) r) as [E|N].
    + rewrite E. lra.
    + left. apply exp_increasing. nra.
  - apply exp_increasing. nra.
Qed.

Lemma magnitude_unique (x : R) (k : Z) :
  powerRZ 2 k <= Rabs x < powerRZ 2 (k + 1) -> magnitude x = k.
Proof.
  intros [H1 H2].
  assert (Hx : x <> 0).
  { intros ->. rewrite Rabs_R0 in H1. pose proof (pow2_pos k). lra. }
  destruct (magnitude_bounds x Hx) as [B1 B2].
  assert (L1 : (k < magnitude x + 1)%Z) by (apply pow2_lt_inv; lra).
  assert (L2 : (magnitude x < k + 1)%Z) by (apply pow2_lt_inv; lra).
  lia.
Qed.

Lemma magnitude_opp (x : R) : magnitude (- x) = magnitude x.
Proof. unfold magnitude. now rewrite Rabs_Ropp. Qed.

Lemma magnitude_mono (x y : R) :
  0 < x -> x <= y -> (magnitude x <= magnitude y)%Z.
Proof.
  intros Hx Hxy.
  destruct (magnitude_bounds x ltac:(lra)) as [B1 _].
  destruct (magnitude_bounds y ltac:(lra)) as [_ B2].
  rewrite Rabs_pos_eq in B1, B2 by lra.
  assert (L : (magnitude x < magnitude y + 1)%Z) by (apply pow2_lt_inv; lra).
  lia.
Qed.

Lemma ulp_exponent_opp (x : R) : ulp_exponent (- x) = ulp_exponent x.
Proof. unfold ulp_exponent. now rewrite magnitude_opp. Qed.

(** rounding *)

Lemma fl_0 : fl 0 = 0.
Proof. unfold fl. destruct (Req_dec_T 0 0); [reflexivity|lra]. Qed.

Lemma fl_nonzero (x : R) :
  x <> 0 ->
  fl x = IZR (nearest_even (x * powerRZ 2 (- ulp_exponent x)))
         * powerRZ 2 (ulp_exponent x).
Proof. intros H. unfold fl. destruct (Req_dec_T x 0); [contradiction|reflexivity]. Qed.

Lemma fl_opp (x : R) : fl (- x) = - fl x.
Proof.
  destruct (Req_dec x 0) as [->|Hx].
  - rewrite Ropp_0, fl_0. lra.
  - rewrite !fl_nonzero by lra. rewrite ulp_exponent_opp.
    replace (- x * powerRZ 2 (- ulp_exponent x))
      with (- (x * powerRZ 2 (- ulp_exponent x))) by ring.
    rewrite nearest_even_opp, opp_IZR. ring.
Qed.

Lemma fl_nonneg (x : R) : 0 <= x -> 0 <= fl x.
Proof.
  intros H. destruct (Req_dec x 0) as [->|Hx]; [rewrite fl_0; lra|].
  rewrite fl_nonzero by exact Hx.
  apply Rmult_le_pos; [|left; apply pow2_pos].
  apply IZR_le, nearest_even_lower.
  apply Rmult_le_pos; [lra|left; apply pow2_pos].
Qed.

(** A number [n * 2^k] with at most 53 significant bits and an exponent in
    range is not changed. *)
Lemma fl_exact (n k : Z) :
  (Z.abs n < 2 ^ 53)%Z -> (-1074 <= k)%Z ->
  fl (IZR n * powerRZ 2 k) = IZR n * powerRZ 2 k.
Proof.
  intros Hn Hk.
  destruct (Z.eq_dec n 0) as [->|Hn0].
  - rewrite Rmult_0_l. apply fl_0.
  - set (x := IZR n * powerRZ 2 k).
    assert (Hx : x <> 0).
    { unfold x. apply Rmult_integral_contrapositive_currified.
      - intros E. apply eq_IZR in E. contradiction.
      - pose proof (pow2_pos k). lra. }
    rewrite fl_nonzero by exact Hx.
    assert (He : (ulp_exponent x <= k)%Z).
    { unfold ulp_exponent.
      destruct (magnitude_bounds x Hx) as [B1 _].
      assert (Habs : Rabs x < powerRZ 2 (53 + k)).
      { unfold x. rewrite Rabs_mult, (Rabs_pos_eq (powerRZ 2 k))
          by (left; apply pow2_pos).
        rewrite pow2_add, <- abs_IZR.
        apply Rmult_lt_compat_r; [apply pow2_pos|].
        rewrite pow2_nonneg_exponent by lia. now apply IZR_lt. }
      assert (Hm : (magnitude x < 53 + k)%Z) by (apply pow2_lt_inv; lra).
      lia. }
    set (e := ulp_exponent x) in *.
    assert (Hscaled : x * powerRZ 2 (- e) = IZR (n * 2 ^ (k - e))).
    { unfold x. rewrite mult_IZR, <- pow2_nonneg_exponent by lia.
      replace (k - e)%Z with (k + - e)%Z by lia. rewrite pow2_add. ring. }
    rewrite Hscaled, nearest_even_IZR, mult_IZR,
      <- pow2_nonneg_exponent by lia.
    unfold x. rewrite Rmult_assoc, <- pow2_add.
    now replace (k - e + e)%Z with k by lia.
Qed.

Lemma fl_IZR (n : Z) : (Z.abs n < 2 ^ 53)%Z -> fl (IZR n) = IZR n.
Proof.
  intros H. pose proof (fl_exact n 0 H ltac:(lia)) as E.
  change (powerRZ 2 0) with 1 in E. now rewrite Rmult_1_r in E.
Qed.

Lemma fl_1 : fl 1 = 1.
Proof. apply (fl_IZR 1). reflexivity. Qed.

Lemma fl_pow2 (k : Z) : (-1074 <= k)%Z -> fl (powerRZ 2 k) = powerRZ 2 k.
Proof.
  intros H. pose proof (fl_exact 1 k ltac:(reflexivity) H) as E.
  now rewrite Rmult_1_l in E.
Qed.

Lemma ulp_exponent_mono (x y : R) :
  0 < x -> x <= y -> (ulp_exponent x <= ulp_exponent y)%Z.
Proof.
  intros Hx Hxy. unfold ulp_exponent.
  pose proof (magnitude_mono x y Hx Hxy). lia.
Qed.

Lemma fl_mono_pos (x y : R) : 0 < x -> x <= y -> fl x <= fl y.
Proof.
  intros Hx Hxy.
  rewrite !fl_nonzero by lra.
  pose proof (ulp_exponent_mono x y Hx Hxy) as He.
  destruct (Z.eq_dec (ulp_exponent x) (ulp_exponent y)) as [E|N].
  - rewrite E. apply Rmult_le_compat_r; [left; apply pow2_pos|].
    apply IZR_le, nearest_even_mono.
    apply Rmult_le_compat_r; [left; apply pow2_pos|exact Hxy].
  - (* the two numbers lie in different binades: a power of two separates
       their roundings *)
    set (ex := ulp_exponent x) in *. set (ey := ulp_exponent y) in *.
    assert (Hey : ey = (magnitude y - 52)%Z).
    { unfold ey, ex, ulp_exponent in *. lia. }
    assert (Hmx : (magnitude x < magnitude y)%Z).
    { unfold ey, ex, ulp_exponent in *. lia. }
    destruct (magnitude_bounds x ltac:(lra)) as [_ Bx].
    destruct (magnitude_bounds y ltac:(lra)) as [By _].
    rewrite Rabs_pos_eq in Bx, By by lra.
    set (my := magnitude y) in *.
    apply Rle_trans with (powerRZ 2 my).
    + assert (Hx' : x <= powerRZ 2 my).
      { pose proof (pow2_le (magnitude x + 1) my ltac:(lia)). lra. }
      assert (Hs : x * powerRZ 2 (- ex) <= IZR (2 ^ (my - ex))).
      { rewrite <- pow2_nonneg_exponent by lia.
        replace (my - ex)%Z with (my + - ex)%Z by lia. rewrite pow2_add.
        apply Rmult_le_compat_r; [left; apply pow2_pos|exact Hx']. }
      apply nearest_even_upper, IZR_le in Hs.
      rewrite <- pow2_nonneg_exponent in Hs by lia.
      replace (powerRZ 2 my) with (powerRZ 2 (my - ex) * powerRZ 2 ex).
      * apply Rmult_le_compat_r; [left; apply pow2_pos|exact Hs].
      * rewrite <- pow2_add. now replace (my - ex + ex)%Z with my by lia.
    + assert (Hs : IZR (2 ^ 52) <= y * powerRZ 2 (- ey)).
      { rewrite <- pow2_nonneg_exponent by lia.
        replace 52%Z with (my + - ey)%Z by lia. rewrite pow2_add.
        apply Rmult_le_compat_r; [left; apply pow2_pos|exact By]. }
      apply nearest_even_lower, IZR_le in Hs.
      rewrite <- pow2_nonneg_exponent in Hs by lia.
      replace (powerRZ 2 my) with (powerRZ 2 52 * powerRZ 2 ey).
      * apply Rmult_le_compat_r; [left; apply pow2_pos|exact Hs].
      * rewrite <- pow2_add. now replace (52 + ey)%Z with my by lia.
Qed.

Lemma fl_nonpos (x : R) : x <= 0 -> fl x <= 0.
Proof.
  intros H. replace x with (- - x) by ring. rewrite fl_opp.
  pose proof (fl_nonneg (- x) ltac:(lra)). lra.
Qed.

Lemma fl_mono (x y : R) : x <= y -> fl x <= fl y.
Proof.
  intros Hxy.
  destruct (Rlt_le_dec 0 x) as [Hx|Hx].
  - now apply fl_mono_pos.
  - destruct (Rlt_le_dec y 0) as [Hy|Hy].
    + replace x with (- - x) by ring. replace y with (- - y) by ring.
      rewrite (fl_opp (- x)), (fl_opp (- y)).
      pose proof (fl_mono_pos (- y) (- x) ltac:(lra) ltac:(lra)). lra.
    + pose proof (fl_nonpos x Hx). pose proof (fl_nonneg y Hy). lra.
Qed.

Lemma fl_pos_inv (x : R) : 0 < fl x -> 0 < x.
Proof.
  intros H. destruct (Rlt_le_dec 0 x) as [L|L]; [exact L|].
  pose proof (fl_nonpos x L). lra.
Qed.

Lemma fl_neg_inv (x : R) : fl x < 0 -> x < 0.
Proof.
  intros H. destruct (Rlt_le_dec x 0) as [L|L]; [exact L|].
  pose proof (fl_nonneg x L). lra.
Qed.

End binary64_facts.

(** ** [annual_collision_probability] *)

Module probability_facts.

Import binary64 binary64_facts risk.
Local Open Scope R_scope.

Lemma exp_le (x y : R) : x <= y -> exp x <= exp y.
Proof.
  intros [H| ->]; [left; now apply exp_increasing|right; reflexivity].
Qed.

Lemma exp_unit (z : R) : 0 <= z -> 0 < exp (- z) <= 1.
Proof.
  intros H. split; [apply exp_pos|].
  rewrite <- exp_0. apply exp_le. lra.
Qed.

Lemma threshold_above_1 : 1 < overflow_threshold.
Proof. apply (pow2_lt 0 1024). lia. Qed.

Lemma round_finite (x : R) :
  Rabs (fl x) < overflow_threshold -> round x = Finite (fl x).
Proof.
  intros H. unfold round.
  destruct (Rlt_dec (Rabs (fl x)) overflow_threshold); [reflexivity|lra].
Qed.

Lemma round_unit (x : R) :
  0 <= x <= 1 -> round x = Finite (fl x) /\ 0 <= fl x <= 1.
Proof.
  intros [H0 H1].
  pose proof (fl_nonneg x H0) as L0.
  pose proof (fl_mono x 1 H1) as L1. rewrite fl_1 in L1.
  split; [|lra]. apply round_finite.
  rewrite Rabs_pos_eq by exact L0. pose proof threshold_above_1. lra.
Qed.

Lemma round_0 : round 0 = Finite 0.
Proof.
  destruct (round_unit 0 ltac:(lra)) as [E _]. now rewrite fl_0 in E.
Qed.

Lemma round_1 : round 1 = Finite 1.
Proof.
  destruct (round_unit 1 ltac:(lra)) as [E _]. now rewrite fl_1 in E.
Qed.

Lemma round_nonneg (x : R) :
  0 <= x ->
  (round x = Finite (fl x) /\ 0 <= fl x < overflow_threshold)
  \/ (round x = Infinity false /\ overflow_threshold <= fl x).
Proof.
  intros H. pose proof (fl_nonneg x H) as L. unfold round.
  rewrite Rabs_pos_eq by exact L.
  destruct (Rlt_dec (fl x) overflow_threshold) as [B|B].
  - left. split; [reflexivity|lra].
  - right. split; [|lra]. unfold is_negative.
    destruct (Rlt_dec x 0); [lra|reflexivity].
Qed.

Lemma round_nonpos (x : R) :
  x <= 0 ->
  (round x = Finite (fl x) /\ fl x <= 0) \/ round x = Infinity true.
Proof.
  intros H. pose proof (fl_nonpos x H) as L. unfold round.
  destruct (Rlt_dec (Rabs (fl x)) overflow_threshold) as [B|B].
  - left. split; [reflexivity|exact L].
  - right. unfold is_negative. destruct (Rlt_dec x 0) as [N|N]; [reflexivity|].
    exfalso. assert (E : x = 0) by lra. subst x. rewrite fl_0, Rabs_R0 in B.
    pose proof threshold_above_1. lra.
Qed.

Lemma round_mono (x y : R) : x <= y -> le_unless_nan (round x) (round y).
Proof.
  intros H. pose proof (fl_mono x y H) as L. unfold round, is_negative.
  pose proof threshold_above_1 as T1.
  destruct (Rlt_dec (Rabs (fl x)) overflow_threshold) as [Bx|Bx];
    destruct (Rlt_dec (Rabs (fl y)) overflow_threshold) as [By|By];
    destruct (Rlt_dec x 0) as [Nx|Nx]; destruct (Rlt_dec y 0) as [Ny|Ny];
    simpl; try exact I; try exact L; exfalso;
    pose proof (fl_nonneg x) as Px; pose proof (fl_nonpos x) as Qx;
    pose proof (fl_nonneg y) as Py; pose proof (fl_nonpos y) as Qy;
    try specialize (Px ltac:(lra)); try specialize (Qx ltac:(lra));
    try specialize (Py ltac:(lra)); try specialize (Qy ltac:(lra));
    unfold Rabs in Bx, By;
    destruct (Rcase_abs (fl x)); destruct (Rcase_abs (fl y)); lra.
Qed.

Lemma annual_collision_probability_outcome (A T F : float) :
  annual_collision_probability A T F = outcome (mul (mul F A) T).
Proof. reflexivity. Qed.

Lemma outcome_finite_nonneg (z : R) :
  0 <= z ->
  outcome (Finite z) = Ok (Finite (value_of z)) /\ 0 <= value_of z <= 1.
Proof.
  intros H. unfold outcome, value_of. simpl.
  destruct (exp_unit z H) as [E0 E1].
  destruct (round_unit (exp (- z)) ltac:(lra)) as [-> [B0 B1]]. simpl.
  destruct (round_unit (1 - fl (exp (- z))) ltac:(lra)) as [-> B].
  split; [reflexivity|exact B].
Qed.

Lemma outcome_infinity : outcome (Infinity false) = Ok (Finite 1).
Proof.
  unfold outcome. simpl. rewrite Rminus_0_r, round_1. reflexivity.
Qed.

Lemma value_of_0 : value_of 0 = 0.
Proof.
  unfold value_of. rewrite Ropp_0, exp_0, fl_1.
  replace (1 - 1) with 0 by ring. apply fl_0.
Qed.

Lemma value_of_mono (z z' : R) : z <= z' -> value_of z <= value_of z'.
Proof.
  intros H. unfold value_of. apply fl_mono.
  pose proof (fl_mono _ _ (exp_le (- z') (- z) ltac:(lra))). lra.
Qed.

Lemma round_nn (x : R) : 0 <= x -> nonneg (round x).
Proof.
  intros H. destruct (round_nonneg x H) as [[-> [B _]]|[-> _]];
    [exact B|reflexivity].
Qed.

Lemma is_negative_nonneg (x : R) : 0 <= x -> is_negative x = false.
Proof. intros H. unfold is_negative. destruct (Rlt_dec x 0); [lra|reflexivity]. Qed.

Lemma mul_nn (a : float) (T : R) :
  nonneg a -> 0 <= T ->
  nonneg (mul a (Finite T)) \/ mul a (Finite T) = NaN.
Proof.
  intros Ha HT. destruct a as [x|s|]; simpl in *.
  - left. apply round_nn. now apply Rmult_le_pos.
  - subst s. destruct (Req_dec_T T 0); [now right|left].
    simpl. now apply is_negative_nonneg.
  - contradiction.
Qed.

Lemma outcome_nn (lam : float) :
  nonneg lam -> exists v : R, outcome lam = Ok (Finite v) /\ 0 <= v <= 1.
Proof.
  intros H. destruct lam as [z|s|]; simpl in H.
  - exists (value_of z). now apply outcome_finite_nonneg.
  - subst s. exists 1. split; [apply outcome_infinity|lra].
  - contradiction.
Qed.

Lemma outcome_nn_or_nan (lam : float) :
  nonneg lam \/ lam = NaN ->
  exists p : float,
    outcome lam = Ok p
    /\ (p = NaN <-> lam = NaN)
    /\ (p = NaN \/ exists v : R, p = Finite v /\ 0 <= v <= 1).
Proof.
  intros [H| ->].
  - destruct (outcome_nn lam H) as (v & E & B). exists (Finite v).
    split; [exact E|]. split.
    + split; [discriminate|]. intros ->. contradiction.
    + right. now exists v.
  - exists NaN. split; [reflexivity|]. split; [tauto|now left].
Qed.

Lemma outcome_mono (lam lam' : float) :
  nonneg lam \/ lam = NaN -> nonneg lam' \/ lam' = NaN ->
  le_unless_nan lam lam' ->
  forall p : float, outcome lam = Ok p ->
  exists p' : float, outcome lam' = Ok p' /\ le_unless_nan p p'.
Proof.
  intros H H' L p Hp.
  destruct H' as [H'| ->]; [|exists NaN; split; [reflexivity|]; now destruct p as [?|[]|]].
  destruct H as [H| ->];
    [|injection Hp as <-; destruct (outcome_nn lam' H') as (v & E & _);
      exists (Finite v); split; [exact E|exact I]].
  destruct lam as [z|s|], lam' as [z'|s'|]; simpl in H, H', L;
    try contradiction; subst; simpl in L; try contradiction.
  - destruct (outcome_finite_nonneg z H) as [E _].
    destruct (outcome_finite_nonneg z' H') as [E' _].
    rewrite E in Hp. injection Hp as <-.
    exists (Finite (value_of z')). split; [exact E'|].
    simpl. now apply value_of_mono.
  - destruct (outcome_finite_nonneg z H) as [E B].
    rewrite E in Hp. injection Hp as <-.
    exists (Finite 1). split; [apply outcome_infinity|]. simpl. lra.
  - rewrite outcome_infinity in Hp. injection Hp as <-.
    exists (Finite 1). split; [apply outcome_infinity|]. simpl. lra.
Qed.

Lemma mul_mono_l (a b : float) (T : R) :
  nonneg a -> nonneg b -> le_unless_nan a b -> 0 <= T ->
  le_unless_nan (mul a (Finite T)) (mul b (Finite T)).
Proof.
  intros Ha Hb L HT.
  destruct a as [x|s|], b as [y|s'|]; simpl in Ha, Hb, L;
    try contradiction; subst; simpl in L; try contradiction; simpl.
  - apply round_mono. now apply Rmult_le_compat_r.
  - destruct (Req_dec_T T 0).
    + now destruct (round (x * T)) as [?|[]|].
    + rewrite is_negative_nonneg by exact HT. simpl.
      now destruct (round (x * T)) as [?|[]|].
  - destruct (Req_dec_T T 0); [exact I|].
    rewrite is_negative_nonneg by exact HT. exact I.
Qed.

Lemma mul_mono_r (a : float) (T T' : R) :
  nonneg a -> 0 <= T -> T <= T' ->
  le_unless_nan (mul a (Finite T)) (mul a (Finite T')).
Proof.
  intros Ha HT HT'.
  destruct a as [x|s|]; simpl in Ha; try contradiction; subst; simpl.
  - apply round_mono. now apply Rmult_le_compat_l.
  - destruct (Req_dec_T T 0); [exact I|].
    destruct (Req_dec_T T' 0); [exfalso; lra|].
    rewrite !is_negative_nonneg by lra. exact I.
Qed.

(** The expected number of impacts of non-negative arguments. *)
Lemma impacts_nn (A T F : R) :
  0 <= A -> 0 <= T -> 0 <= F ->
  nonneg (mul (mul (Finite F) (Finite A)) (Finite T))
  \/ mul (mul (Finite F) (Finite A)) (Finite T) = NaN.
Proof.
  intros HA HT HF. apply mul_nn; [|exact HT].
  simpl. apply round_nn. now apply Rmult_le_pos.
Qed.

Lemma impacts_nan (A T F : R) :
  0 <= A -> 0 <= T -> 0 <= F ->
  mul (mul (Finite F) (Finite A)) (Finite T) = NaN
  <-> T = 0 /\ overflow_threshold <= fl (F * A).
Proof.
  intros HA HT HF. simpl mul at 2.
  destruct (round_nonneg (F * A) (Rmult_le_pos _ _ HF HA))
    as [[-> [B0 B1]]|[-> B]]; simpl.
  - split.
    + intros E. exfalso.
      pose proof (round_nn (fl (F * A) * T) (Rmult_le_pos _ _ B0 HT)) as N.
      rewrite E in N. exact N.
    + intros [_ C]. lra.
  - destruct (Req_dec_T T 0) as [E|E].
    + split; [now split|reflexivity].
    + split; [discriminate|]. intros [C _]. contradiction.
Qed.

Lemma impacts_zero (A T F : R) :
  A * T * F = 0 ->
  mul (mul (Finite F) (Finite A)) (Finite T) = Finite 0
  \/ mul (mul (Finite F) (Finite A)) (Finite T) = NaN.
Proof.
  intros H.
  assert (C : F * A = 0 \/ T = 0).
  { destruct (Req_dec T 0) as [E|E]; [now right|left].
    apply Rmult_integral in H. destruct H as [H|H].
    - apply Rmult_integral in H. destruct H as [H|H]; [|contradiction].
      rewrite H. ring.
    - rewrite H. ring. }
  simpl mul at 2 4.
  destruct C as [C|C].
  - rewrite C, round_0. simpl. rewrite Rmult_0_l, round_0. now left.
  - subst T. destruct (round (F * A)) as [y|s|]; simpl.
    + rewrite Rmult_0_r, round_0. now left.
    + right. destruct (Req_dec_T 0 0); [reflexivity|lra].
    + now right.
Qed.

Lemma outcome_zero : outcome (Finite 0) = Ok (Finite 0).
Proof.
  destruct (outcome_finite_nonneg 0 ltac:(lra)) as [E _].
  now rewrite value_of_0 in E.
Qed.

Lemma mul_finite (x y : R) : mul (Finite x) (Finite y) = round (x * y).
Proof. reflexivity. Qed.

Lemma round_exact (x : R) :
  fl x = x -> Rabs x < overflow_threshold -> round x = Finite x.
Proof.
  intros E B. rewrite <- E at 2. apply round_finite. now rewrite E.
Qed.

Lemma round_IZR (n : Z) : (Z.abs n < 2 ^ 53)%Z -> round (IZR n) = Finite (IZR n).
Proof.
  intros H. apply round_exact; [now apply fl_IZR|].
  rewrite <- abs_IZR. unfold overflow_threshold.
  apply Rlt_trans with (powerRZ 2 53); [|apply pow2_lt; lia].
  rewrite pow2_nonneg_exponent by lia. now apply IZR_lt.
Qed.

(** A number within a quarter of a unit in the last place below 1 is
    rounded to 1. *)
Lemma fl_near_1 (x : R) : 1 - powerRZ 2 (-54) < x <= 1 -> fl x = 1.
Proof.
  intros [L [U| ->]]; [|apply fl_1].
  assert (Half : powerRZ 2 (-1) = 1 / 2) by (simpl; lra).
  assert (P54 : powerRZ 2 (-54) * powerRZ 2 53 = 1 / 2).
  { rewrite <- pow2_add. exact Half. }
  assert (P53 : powerRZ 2 53 = IZR (2 ^ 53)) by (apply pow2_nonneg_exponent; lia).
  pose proof (pow2_pos 53) as Q53. pose proof (pow2_pos (-54)) as Q54.
  assert (S54 : powerRZ 2 (-54) <= 1 / 2).
  { pose proof (pow2_le (-54) (-1) ltac:(lia)) as H. lra. }
  assert (M : magnitude x = (-1)%Z).
  { apply magnitude_unique. rewrite Rabs_pos_eq by lra.
    change (powerRZ 2 (-1 + 1)) with 1. lra. }
  assert (Hx : x <> 0) by lra.
  rewrite fl_nonzero by exact Hx. unfold ulp_exponent. rewrite M.
  change (Z.max (-1074) (-1 - 52)) with (-53)%Z.
  change (- -53)%Z with 53%Z.
  assert (N : nearest_even (x * powerRZ 2 53) = (2 ^ 53)%Z).
  { symmetry. apply nearest_even_unique. left.
    rewrite <- P53. rewrite Rabs_left1 by nra.
    replace (- (x * powerRZ 2 53 - powerRZ 2 53))
      with ((1 - x) * powerRZ 2 53) by ring.
    rewrite <- P54. apply Rmult_lt_compat_r; [exact Q53|lra]. }
  rewrite N, <- P53, <- pow2_add. reflexivity.
Qed.

(** C7, as stated, fails: with [A = T = 1] and [F = 2^-60] the returned
    probability is 0 although the product [A * T * F] is not. *)
Lemma tiny_product_returns_zero :
  annual_collision_probability (Finite 1) (Finite 1) (Finite (powerRZ 2 (-60)))
    = Ok (Finite 0)
  /\ 1 * 1 * powerRZ 2 (-60) <> 0.
Proof.
  pose proof (pow2_pos (-60)) as Q.
  split; [|lra].
  assert (B : Rabs (powerRZ 2 (-60)) < overflow_threshold).
  { rewrite Rabs_pos_eq by lra. apply pow2_lt. lia. }
  assert (E : round (powerRZ 2 (-60) * 1) = Finite (powerRZ 2 (-60))).
  { rewrite Rmult_1_r. apply round_exact; [apply fl_pow2; lia|exact B]. }
  rewrite annual_collision_probability_outcome.
  rewrite mul_finite, E, mul_finite, E.
  destruct (outcome_finite_nonneg (powerRZ 2 (-60)) ltac:(lra)) as [-> _].
  do 2 f_equal. unfold value_of.
  rewrite (fl_near_1 (exp (- powerRZ 2 (-60)))).
  - replace (1 - 1) with 0 by ring. apply fl_0.
  - pose proof (exp_ineq1_le (- powerRZ 2 (-60))) as L.
    destruct (exp_unit (powerRZ 2 (-60)) ltac:(lra)) as [_ U].
    pose proof (pow2_lt (-60) (-54) ltac:(lia)). lra.
Qed.

(** C7, amended.  For finite non-negative cross-section [A], duration [T]
    and flux [F] the call returns, and the returned probability does not
    decrease when one of the three grows and the other two stay fixed,
    wherever the two values compared are numbers.  The value is NaN exactly
    when [T] is 0 and the product [F * A] is out of range (infinity times
    0); when [A * T * F = 0] and the value is a number, it is 0.  The
    converse is left out: a product below the resolution of the floats
    around 1 also gives 0. *)
Theorem probability_monotone (A T F : R) :
  0 <= A -> 0 <= T -> 0 <= F ->
  exists p : float,
    annual_collision_probability (Finite A) (Finite T) (Finite F) = Ok p
    /\ (forall A', A <= A' ->
          exists p',
            annual_collision_probability (Finite A') (Finite T) (Finite F)
              = Ok p'
            /\ le_unless_nan p p')
    /\ (forall T', T <= T' ->
          exists p',
            annual_collision_probability (Finite A) (Finite T') (Finite F)
              = Ok p'
            /\ le_unless_nan p p')
    /\ (forall F', F <= F' ->
          exists p',
            annual_collision_probability (Finite A) (Finite T) (Finite F')
              = Ok p'
            /\ le_unless_nan p p')
    /\ (p = NaN <-> T = 0 /\ overflow_threshold <= fl (F * A))
    /\ (A * T * F = 0 -> p = Finite 0 \/ p = NaN).
Proof.
  intros HA HT HF.
  pose proof (impacts_nn A T F HA HT HF) as Hlam.
  destruct (outcome_nn_or_nan _ Hlam) as (p & Hp & Hnan & _).
  exists p. rewrite annual_collision_probability_outcome.
  split; [exact Hp|].
  assert (HFA : nonneg (mul (Finite F) (Finite A))).
  { simpl. apply round_nn. now apply Rmult_le_pos. }
  split; [|split; [|split; [|split]]].
  - intros A' HA'. rewrite annual_collision_probability_outcome.
    apply (outcome_mono _ _ Hlam); [apply impacts_nn; lra| |exact Hp].
    apply mul_mono_l; [exact HFA| | |exact HT].
    + simpl. apply round_nn. apply Rmult_le_pos; lra.
    + simpl. apply round_mono. now apply Rmult_le_compat_l.
  - intros T' HT'. rewrite annual_collision_probability_outcome.
    apply (outcome_mono _ _ Hlam); [apply impacts_nn; lra| |exact Hp].
    now apply mul_mono_r.
  - intros F' HF'. rewrite annual_collision_probability_outcome.
    apply (outcome_mono _ _ Hlam); [apply impacts_nn; lra| |exact Hp].
    apply mul_mono_l; [exact HFA| | |exact HT].
    + simpl. apply round_nn. apply Rmult_le_pos; lra.
    + simpl. apply round_mono. now apply Rmult_le_compat_r.
  - rewrite Hnan. now apply impacts_nan.
  - intros E. destruct (impacts_zero A T F E) as [Z|Z].
    + left. rewrite Z, outcome_zero in Hp. now injection Hp as <-.
    + right. now apply Hnan.
Qed.

Lemma probability_monotone_witness :
  exists p : float,
    annual_collision_probability (Finite 10) (Finite 1) (Finite (1 / 131072))
      = Ok p
    /\ (forall A', 10 <= A' ->
          exists p',
            annual_collision_probability (Finite A') (Finite 1)
              (Finite (1 / 131072)) = Ok p'
            /\ le_unless_nan p p')
    /\ (forall T', 1 <= T' ->
          exists p',
            annual_collision_probability (Finite 10) (Finite T')
              (Finite (1 / 131072)) = Ok p'
            /\ le_unless_nan p p')
    /\ (forall F', 1 / 131072 <= F' ->
          exists p',
            annual_collision_probability (Finite 10) (Finite 1) (Finite F')
              = Ok p'
            /\ le_unless_nan p p')
    /\ (p = NaN <-> 1 = 0 /\ overflow_threshold <= fl (1 / 131072 * 10))
    /\ (10 * 1 * (1 / 131072) = 0 -> p = Finite 0 \/ p = NaN).
Proof.
  apply (probability_monotone 10 1 (1 / 131072)); lra.
Defined.

Lemma round_is_finite (x y : R) : round x = Finite y -> y = fl x.
Proof.
  unfold round. destruct (Rlt_dec (Rabs (fl x)) overflow_threshold);
    [now intros [= <-]|discriminate].
Qed.

Lemma round_bounded (x : R) (m M : Z) :
  (Z.abs m < 2 ^ 53)%Z -> (Z.abs M < 2 ^ 53)%Z ->
  IZR m <= x <= IZR M ->
  round x = Finite (fl x) /\ IZR m <= fl x <= IZR M.
Proof.
  intros Hm HM [L U].
  pose proof (fl_mono _ _ L) as L'. pose proof (fl_mono _ _ U) as U'.
  rewrite fl_IZR in L', U' by assumption.
  split; [|lra]. apply round_finite.
  assert (T : IZR (2 ^ 53) < overflow_threshold).
  { rewrite <- pow2_nonneg_exponent by lia. apply pow2_lt. lia. }
  assert (HM' : IZR M < IZR (2 ^ 53)) by (apply IZR_lt; lia).
  assert (Hm' : IZR (- 2 ^ 53) < IZR m) by (apply IZR_lt; lia).
  rewrite opp_IZR in Hm'.
  apply Rabs_def1; lra.
Qed.

Lemma round_np (x : R) : x <= 0 -> nonpos (round x).
Proof.
  intros H. destruct (round_nonpos x H) as [[-> B]| ->];
    [exact B|reflexivity].
Qed.

Lemma impacts_np (A T F : R) :
  F * A * T < 0 -> nonpos (mul (mul (Finite F) (Finite A)) (Finite T)).
Proof.
  intros H. rewrite mul_finite.
  assert (HT : T <> 0) by (intros ->; lra).
  destruct (Rlt_le_dec 0 (F * A)) as [P|P].
  - assert (NT : T < 0) by nra.
    destruct (round_nonneg (F * A) ltac:(lra)) as [[-> [B _]]|[-> _]]; simpl.
    + apply round_np. nra.
    + destruct (Req_dec_T T 0); [contradiction|].
      unfold is_negative. destruct (Rlt_dec T 0); [reflexivity|lra].
  - assert (PT : 0 < T) by nra.
    destruct (round_nonpos (F * A) P) as [[-> B]| ->]; simpl.
    + apply round_np. nra.
    + destruct (Req_dec_T T 0); [contradiction|].
      unfold is_negative. destruct (Rlt_dec T 0); [lra|reflexivity].
Qed.

Lemma outcome_np (lam : float) :
  nonpos lam ->
  outcome lam = Raise OverflowError
  \/ outcome lam = Ok (Infinity true)
  \/ exists v : R, outcome lam = Ok (Finite v) /\ v <= 0.
Proof.
  intros H. destruct lam as [z|s|]; simpl in H.
  - unfold outcome. simpl.
    assert (E1 : 1 <= exp (- z)) by (rewrite <- exp_0; apply exp_le; lra).
    destruct (round_nonneg (exp (- z)) ltac:(lra)) as [[-> _]|[-> _]]; simpl.
    + pose proof (fl_mono _ _ E1) as L. rewrite fl_1 in L.
      destruct (round_nonpos (1 - fl (exp (- z))) ltac:(lra)) as [[-> B]| ->].
      * right. right. eexists. split; [reflexivity|exact B].
      * right. now left.
    + now left.
  - subst s. right. left. reflexivity.
  - contradiction.
Qed.

Lemma outcome_raises (lam : float) (e : exn) :
  outcome lam = Raise e ->
  e = OverflowError /\ exists z : R, lam = Finite z /\ z < 0.
Proof.
  intros H. destruct lam as [z|[]|]; try discriminate.
  unfold outcome in H. simpl in H.
  destruct (round (exp (- z))) as [y|s|] eqn:R; try discriminate.
  simpl in H. injection H as <-. split; [reflexivity|].
  exists z. split; [reflexivity|].
  destruct (Rlt_le_dec z 0) as [N|P]; [exact N|exfalso].
  destruct (exp_unit z P) as [E0 E1].
  destruct (round_unit (exp (- z)) ltac:(lra)) as [E _].
  rewrite E in R. discriminate.
Qed.

Lemma impacts_negative (A T F z : R) :
  mul (mul (Finite F) (Finite A)) (Finite T) = Finite z -> z < 0 ->
  F * A * T < 0.
Proof.
  intros H Hz. rewrite mul_finite in H.
  destruct (round (F * A)) as [y|s|] eqn:R; simpl in H.
  - apply round_is_finite in R, H. subst z y.
    apply fl_neg_inv in Hz.
    destruct (Rlt_le_dec 0 (F * A)) as [P|P].
    + pose proof (fl_nonneg (F * A) ltac:(lra)). nra.
    + pose proof (fl_nonpos (F * A) P) as Q.
      destruct (Rlt_le_dec 0 T) as [PT|PT]; [|nra].
      assert (NZ : F * A <> 0).
      { intros Z. rewrite Z, fl_0 in Hz. lra. }
      nra.
  - destruct (Req_dec_T T 0); discriminate.
  - discriminate.
Qed.

Lemma exp_nat_mul (n : nat) (x : R) : exp (INR n * x) = exp x ^ n.
Proof.
  induction n as [|n IH].
  - simpl. rewrite Rmult_0_l. apply exp_0.
  - rewrite S_INR, Rmult_plus_distr_r, exp_plus, IH, Rmult_1_l. simpl. ring.
Qed.

Lemma exp_1000 : overflow_threshold <= exp 1000.
Proof.
  unfold overflow_threshold.
  change 1024%Z with (Z.of_nat 1024). rewrite <- pow_powerRZ.
  replace 1000 with (INR 1024 * (1000 / 1024)).
  - rewrite exp_nat_mul. apply pow_incr. split; [lra|].
    replace (1000 / 1024) with (500 / 1024 + 500 / 1024) by lra.
    rewrite exp_plus. pose proof (exp_ineq1_le (500 / 1024)). nra.
  - rewrite INR_IZR_INZ. change (Z.of_nat 1024) with 1024%Z. lra.
Qed.

(** C3, as stated, fails: a negative cross-section is not rejected; the
    call returns a number, and a negative one. *)
Lemma negative_area_returns_a_number :
  exists v : R,
    annual_collision_probability (Finite (-1)) (Finite 1) (Finite 1)
      = Ok (Finite v)
    /\ v < 0.
Proof.
  rewrite annual_collision_probability_outcome.
  assert (E : forall x : R, x = -1 -> round x = Finite (-1)).
  { intros x ->. now apply (round_IZR (-1)). }
  rewrite mul_finite, (E (1 * -1)) by lra.
  rewrite mul_finite, (E (-1 * 1)) by lra.
  unfold outcome. simpl neg. unfold math_exp.
  replace (- -1) with 1 by lra.
  assert (B : IZR 2 <= exp 1 <= IZR 3).
  { split; [pose proof (exp_ineq1_le 1); lra|apply exp_le_3]. }
  destruct (round_bounded (exp 1) 2 3 ltac:(reflexivity) ltac:(reflexivity) B)
    as [-> B']. simpl.
  destruct (round_bounded (1 - fl (exp 1)) (-2) (-1)
              ltac:(reflexivity) ltac:(reflexivity) ltac:(lra)) as [-> B''].
  eexists. split; [reflexivity|lra].
Qed.

(** The one failure of the operation: [math.exp] is out of range. *)
Lemma negative_area_overflows :
  annual_collision_probability (Finite (-1)) (Finite 1) (Finite 1000)
    = Raise OverflowError.
Proof.
  rewrite annual_collision_probability_outcome.
  assert (E : forall x : R, x = -1000 -> round x = Finite (-1000)).
  { intros x ->. now apply (round_IZR (-1000)). }
  rewrite mul_finite, (E (1000 * -1)) by lra.
  rewrite mul_finite, (E (-1000 * 1)) by lra.
  unfold outcome. simpl neg. unfold math_exp.
  replace (- -1000) with 1000 by lra.
  pose proof exp_1000 as L.
  pose proof threshold_above_1 as T1.
  destruct (round_nonneg (exp 1000) ltac:(lra)) as [[_ [_ B]]|[-> _]];
    [|reflexivity].
  exfalso. pose proof (fl_mono _ _ L) as M.
  unfold overflow_threshold in M at 1. rewrite fl_pow2 in M by lia.
  fold overflow_threshold in M. lra.
Qed.

(** C3, amended.  The operation validates nothing.  For finite inputs its
    one failure is the [OverflowError] of [math.exp], and it occurs only
    when the product [F * A * T] is negative.  For non-negative inputs the
    call returns, and the value lies in [[0, 1]] or is NaN (infinity times
    0, see C7).  When the product is negative the call returns a number
    that is not positive, returns minus infinity, or raises
    [OverflowError]. *)
Theorem probability_returned_for_every_input (A T F : R) :
  (forall e : exn,
     annual_collision_probability (Finite A) (Finite T) (Finite F) = Raise e ->
     e = OverflowError /\ F * A * T < 0)
  /\ (0 <= A -> 0 <= T -> 0 <= F ->
      exists p : float,
        annual_collision_probability (Finite A) (Finite T) (Finite F) = Ok p
        /\ (p = NaN \/ exists v : R, p = Finite v /\ 0 <= v <= 1))
  /\ (F * A * T < 0 ->
      annual_collision_probability (Finite A) (Finite T) (Finite F)
        = Raise OverflowError
      \/ annual_collision_probability (Finite A) (Finite T) (Finite F)
           = Ok (Infinity true)
      \/ exists v : R,
           annual_collision_probability (Finite A) (Finite T) (Finite F)
             = Ok (Finite v)
           /\ v <= 0).
Proof.
  rewrite annual_collision_probability_outcome.
  split; [|split].
  - intros e H. destruct (outcome_raises _ _ H) as (-> & z & E & Hz).
    split; [reflexivity|]. now apply (impacts_negative A T F z).
  - intros HA HT HF.
    destruct (outcome_nn_or_nan _ (impacts_nn A T F HA HT HF))
      as (p & Hp & _ & B).
    now exists p.
  - intros H. apply outcome_np. now apply impacts_np.
Qed.

Lemma probability_returned_for_every_input_witness :
  (exists p : float,
     annual_collision_probability (Finite 10) (Finite 1) (Finite (1 / 131072))
       = Ok p
     /\ (p = NaN \/ exists v : R, p = Finite v /\ 0 <= v <= 1))
  /\ (annual_collision_probability (Finite (-1)) (Finite 1) (Finite 1000)
        = Raise OverflowError
      \/ annual_collision_probability (Finite (-1)) (Finite 1) (Finite 1000)
           = Ok (Infinity true)
      \/ exists v : R,
           annual_collision_probability (Finite (-1)) (Finite 1) (Finite 1000)
             = Ok (Finite v)
           /\ v <= 0).
Proof.
  split.
  - apply (probability_returned_for_every_input 10 1 (1 / 131072)); lra.
  - apply (probability_returned_for_every_input (-1) 1 1000). lra.
Defined.

End probability_facts.

(** ** The proximity filter *)

Module proximity_facts.

Import proximity proximity_spec.
Local Open Scope R_scope.

Section SortedDesc.

Variable k : scored -> R.







End SortedDesc.

Lemma sum_sq_nonneg (a b c : R) : 0 <= a ^ 2 + b ^ 2 + c ^ 2.
Proof. nra. Qed.

Lemma py_sqrt_nonneg (x : R) : 0 <= x -> py_sqrt x = Ok (sqrt x).
Proof. intros H. unfold py_sqrt. destruct (Rlt_dec x 0); [lra|reflexivity]. Qed.

Lemma py_div_nonzero (x y : R) : y <> 0 -> py_div x y = Ok (x / y).
Proof.
  intros H. unfold py_div. destruct (Req_dec_T y 0); [contradiction|reflexivity].
Qed.











(** With a radius of 0 and a candidate at the satellite's own position the
    distance factor divides by zero. *)
Lemma zero_radius_divides_by_zero :
  filter_debris_by_proximity samples.sat_at_origin
    [samples.colocated_debris] 0 = Raise ZeroDivisionError.
Proof.
  unfold filter_debris_by_proximity, samples.sat_at_origin,
    samples.colocated_debris.
  cbn [sat_altitude_km sat_latitude sat_longitude get_default score_all].
  unfold score, cartesian. cbn [altitude latitude longitude]. cbv zeta.
  rewrite py_sqrt_nonneg by apply sum_sq_nonneg. cbn [bind].
  unfold earth_radius.
  rewrite py_div_nonzero by lra. cbn [bind].
  rewrite py_sqrt_nonneg
    by (left; apply Rdiv_lt_0_compat; lra).
  cbn [bind].
  match goal with
  | |- context [sqrt (?a ^ 2 + ?b ^ 2 + ?c ^ 2)] =>
      replace (a ^ 2 + b ^ 2 + c ^ 2) with 0 by ring
  end.
  rewrite sqrt_0.
  destruct (Rle_dec 0 0) as [_|H]; [|lra].
  unfold py_div at 1. destruct (Req_dec_T 0 0) as [_|H]; [reflexivity|lra].
Qed.

Lemma subsequence_refl {A : Type} (l : list A) : subsequence l l.
Proof.
  induction l; [apply subsequence_nil|now apply subsequence_keep].
Qed.










End proximity_facts.

(** ** The loader as a parser *)

Lemma skipn_window {A : Type} (i : nat) :
  forall lines : list A,
    (i + 2 < List.length lines)%nat ->
    exists a b c rest,
      skipn i lines = a :: b :: c :: rest
      /\ nth_error lines i = Some a
      /\ nth_error lines (i + 1) = Some b
      /\ nth_error lines (i + 2) = Some c
      /\ skipn (i + 1) lines = b :: c :: rest
      /\ skipn (i + 2) lines = c :: rest
      /\ skipn (i + 3) lines = rest.
Proof.
  induction i as [|i IH]; intros lines Hlen.
  - destruct lines as [|a [|b [|c rest]]]; simpl in Hlen; try lia.
    exists a, b, c, rest. repeat split; reflexivity.
  - destruct lines as [|x lines]; simpl in Hlen; [lia|].
    destruct (IH lines) as (a & b & c & rest & H); [lia|].
    exists a, b, c, rest. exact H.
Qed.

Lemma skipn_short {A : Type} (i : nat) (lines : list A) :
  (List.length lines <= i + 2)%nat ->
  match skipn i lines with
  | _ :: _ :: _ :: _ => False
  | _ => True
  end.
Proof.
  intros Hlen. pose proof (length_skipn i lines) as Hs.
  destruct (skipn i lines) as [|a [|b [|c rest]]]; simpl in Hs; try exact I. lia.
Qed.

Module tle_parse_facts.

Import stdpp.base stdpp.gmap.
Import pystr tle_store tle_parse.
Local Open Scope string_scope.
Local Open Scope nat_scope.

Lemma store_all_app (b1 b2 : list TLERecord) (s : TLEStore) :
  store_all (b1 ++ b2)%list s = store_all b2 (store_all b1 s).
Proof. unfold store_all. apply fold_left_app. Qed.

Lemma ingest_block_record (nm l1 l2 : string) (i' : nat) (st : loop_state) :
  ingest nm l1 l2 i' st
  = mkState i' (count st + Z.of_nat (List.length (block_record nm l1 l2)))%Z
      (store_all (block_record nm l1 l2) (by_id st)).
Proof.
  unfold ingest, block_record. destruct (_extract_norad l1); simpl.
  - reflexivity.
  - now rewrite Z.add_0_r.
Qed.

(** The parser on a list that still holds a window of three lines. *)
Lemma parse_blocks_window (a b c : string) (rest : list string) :
  parse_blocks (a :: b :: c :: rest)
  = if startswith b "1 " && startswith c "2 " then
      (block_record a b c ++ parse_blocks rest)%list
    else if startswith a "1 " && startswith b "2 " then
      (block_record "UNKNOWN" a b ++ parse_blocks (c :: rest))%list
    else parse_blocks (b :: c :: rest).
Proof. reflexivity. Qed.

(** One pass of the loop against one step of the parser. *)
Lemma loop_body_parse (lines : list string) (st : loop_state) :
  idx st + 2 < List.length lines ->
  exists (st' : loop_state) (bl : list TLERecord),
    loop_body lines st = Ok st'
    /\ idx st < idx st' <= idx st + 3
    /\ parse_blocks (skipn (idx st) lines)
       = (bl ++ parse_blocks (skipn (idx st') lines))%list
    /\ count st' = (count st + Z.of_nat (List.length bl))%Z
    /\ by_id st' = store_all bl (by_id st).
Proof.
  intros Hg.
  destruct (skipn_window (idx st) lines Hg)
    as (a & b & c & rest & Hs & Ha & Hb & Hc & Hs1 & Hs2 & Hs3).
  unfold loop_body. cbv zeta.
  rewrite (getitem_nth_error _ _ _ Ha), (getitem_nth_error _ _ _ Hb),
    (getitem_nth_error _ _ _ Hc).
  cbn [bind]. rewrite Hs, parse_blocks_window.
  destruct (startswith b "1 " && startswith c "2 ") eqn:E1; cbn [negb].
  - exists (ingest a b c (idx st + 3) st), (block_record a b c).
    rewrite ingest_block_record. cbn [idx count by_id]. rewrite Hs3.
    repeat split; first [reflexivity | simpl; lia].
  - destruct (startswith a "1 ") eqn:E2; cbn [andb].
    + destruct (startswith b "2 ") eqn:E3.
      * exists (ingest "UNKNOWN" a b (idx st + 2) st), (block_record "UNKNOWN" a b).
        rewrite ingest_block_record. cbn [idx count by_id]. rewrite Hs2.
        repeat split; first [reflexivity | simpl; lia].
      * exists (mkState (idx st + 1) (count st) (by_id st)), [].
        cbn [idx count by_id]. rewrite Hs1.
        repeat split; first [reflexivity | simpl; lia].
    + exists (mkState (idx st + 1) (count st) (by_id st)), [].
      cbn [idx count by_id]. rewrite Hs1.
      repeat split; first [reflexivity | simpl; lia].
Qed.

Lemma while_loop_parse (fuel : nat) :
  forall (lines : list string) (st : loop_state),
    List.length lines <= idx st + fuel ->
    exists st' : loop_state,
      while_loop fuel lines st = Some (Ok st')
      /\ count st'
         = (count st
            + Z.of_nat (List.length (parse_blocks (skipn (idx st) lines))))%Z
      /\ by_id st' = store_all (parse_blocks (skipn (idx st) lines)) (by_id st).
Proof.
  induction fuel as [|fuel IH]; intros lines st Hf.
  - simpl. destruct (Nat.ltb_spec (idx st + 2) (List.length lines)) as [Hg|Hg];
      [lia|].
    exists st. split; [reflexivity|].
    pose proof (skipn_short (idx st) lines Hg) as Hs.
    destruct (skipn (idx st) lines) as [|a [|b [|c rest]]];
      try contradiction; simpl; split; try lia; reflexivity.
  - simpl. destruct (Nat.ltb_spec (idx st + 2) (List.length lines)) as [Hg|Hg].
    + destruct (loop_body_parse lines st Hg)
        as (st1 & bl & Hb & Hi & Hp & Hc & Hm).
      rewrite Hb.
      destruct (IH lines st1) as (st' & Hw & Hc' & Hm'); [lia|].
      exists st'. split; [exact Hw|].
      rewrite Hp, length_app, store_all_app, Hc', Hm', Hc, Hm.
      split; [lia|reflexivity].
    + exists st. split; [reflexivity|].
      pose proof (skipn_short (idx st) lines Hg) as Hs.
      destruct (skipn (idx st) lines) as [|a [|b [|c rest]]];
        try contradiction; simpl; split; try lia; reflexivity.
Qed.

Lemma load_from_text_parse (store : TLEStore) (text : string) :
  load_from_text store text
  = Some (Ok (store_all (parse_blocks (lines_of text)) store,
              Z.of_nat (List.length (parse_blocks (lines_of text))))).
Proof.
  unfold load_from_text.
  destruct (while_loop_parse (List.length (lines_of text)) (lines_of text)
              (mkState 0 0%Z store)) as (st' & Hw & Hc & Hm); [simpl; lia|].
  rewrite Hw, Hc, Hm. reflexivity.
Qed.

(** X1.  The index loop with its subscripts does what the parser of the line
    list says: the call stores the blocks of the text in order, and returns
    their number. *)
Theorem load_from_text_stores_parsed_blocks (store : TLEStore) (text : string) :
  load_from_text store text
  = Some (Ok (store_all (parse_blocks (lines_of text)) store,
              Z.of_nat (List.length (parse_blocks (lines_of text)))))
  /\ forall a b c rest,
       parse_blocks (a :: b :: c :: rest)
       = if startswith b "1 " && startswith c "2 " then
           (block_record a b c ++ parse_blocks rest)%list
         else if startswith a "1 " && startswith b "2 " then
           (block_record "UNKNOWN" a b ++ parse_blocks (c :: rest))%list
         else parse_blocks (b :: c :: rest).
Proof.
  split; [apply load_from_text_parse|apply parse_blocks_window].
Qed.

(** *** What [get] returns after a load *)

Lemma last_with_id_snoc (k : Z) (bl : list TLERecord) (r : TLERecord) :
  last_with_id k (bl ++ [r])%list
  = if Z.eqb (norad_id r) k then Some r else last_with_id k bl.
Proof. unfold last_with_id. now rewrite rev_unit. Qed.

Lemma store_all_lookup (bl : list TLERecord) (s : TLEStore) (k : Z) :
  store_all bl s !! k
  = match last_with_id k bl with
    | Some r => Some r
    | None => s !! k
    end.
Proof.
  induction bl as [|r bl IH] using rev_ind; [reflexivity|].
  rewrite store_all_app, last_with_id_snoc. cbn [store_all fold_left].
  destruct (Z.eqb_spec (norad_id r) k) as [->|Hne].
  - apply lookup_insert_eq.
  - rewrite lookup_insert_ne by exact Hne. exact IH.
Qed.

(** X2.  After a load, [get(k)] is the last block of the text that carries the
    number [k]; when the text has no such block it is what it was before.
    In particular a load removes nothing. *)
Theorem get_after_load (store : TLEStore) (text : string) (k : Z) :
  exists (store' : TLEStore) (n : Z),
    load_from_text store text = Some (Ok (store', n))
    /\ get store' k
       = match last_with_id k (parse_blocks (lines_of text)) with
         | Some r => Some r
         | None => get store k
         end
    /\ (get store k <> None -> get store' k <> None).
Proof.
  rewrite load_from_text_parse. eexists _, _. split; [reflexivity|].
  unfold get. rewrite store_all_lookup. split; [reflexivity|].
  now destruct (last_with_id k (parse_blocks (lines_of text))).
Qed.

(** *** The invariant of the stored records *)

Lemma block_record_well_formed (nm l1 l2 : string) :
  startswith l1 "1 " = true -> startswith l2 "2 " = true ->
  Forall (fun r => well_formed (norad_id r) r) (block_record nm l1 l2).
Proof.
  intros P1 P2. unfold block_record.
  destruct (_extract_norad l1) as [n|] eqn:E; constructor; [|constructor].
  repeat split; assumption.
Qed.

Lemma parse_blocks_induction (P : list string -> Prop) :
  (forall lines, (forall l', List.length l' < List.length lines -> P l') -> P lines) ->
  forall lines, P lines.
Proof.
  intros Hstep lines.
  induction lines as [lines IH] using (induction_ltof1 _ (@List.length string)).
  apply Hstep. exact IH.
Qed.

Lemma parse_blocks_well_formed (lines : list string) :
  Forall (fun r => well_formed (norad_id r) r) (parse_blocks lines).
Proof.
  induction lines as [lines IH] using parse_blocks_induction.
  destruct lines as [|a [|b [|c rest]]]; try constructor.
  rewrite parse_blocks_window.
  destruct (startswith b "1 " && startswith c "2 ") eqn:E1.
  - apply andb_true_iff in E1. destruct E1.
    apply Forall_app. split; [now apply block_record_well_formed|].
    apply IH. simpl. lia.
  - destruct (startswith a "1 " && startswith b "2 ") eqn:E2.
    + apply andb_true_iff in E2. destruct E2.
      apply Forall_app. split; [now apply block_record_well_formed|].
      apply IH. simpl. lia.
    + apply IH. simpl. lia.
Qed.

Lemma last_with_id_In (k : Z) (bl : list TLERecord) (r : TLERecord) :
  last_with_id k bl = Some r -> In r bl /\ norad_id r = k.
Proof.
  unfold last_with_id. intros H. apply find_some in H. destruct H as [Hin Hk].
  split; [now apply in_rev|now apply Z.eqb_eq].
Qed.

(** X3.  A load keeps the invariant of the store: whatever [get(k)] returns is a
    record numbered [k] whose line 1 starts with ["1 "] and yields [k], and
    whose line 2 starts with ["2 "]. *)
Theorem load_keeps_records_well_formed (store store' : TLEStore)
    (text : string) (n : Z) :
  (forall k r, get store k = Some r -> well_formed k r) ->
  load_from_text store text = Some (Ok (store', n)) ->
  forall k r, get store' k = Some r -> well_formed k r.
Proof.
  intros Hinv Hload k r Hget.
  rewrite load_from_text_parse in Hload. injection Hload as <- _.
  unfold get in Hget. rewrite store_all_lookup in Hget.
  destruct (last_with_id k (parse_blocks (lines_of text))) as [r'|] eqn:E.
  - injection Hget as ->. apply last_with_id_In in E. destruct E as [Hin <-].
    pose proof (parse_blocks_well_formed (lines_of text)) as Hall.
    rewrite List.Forall_forall in Hall. now apply Hall.
  - now apply Hinv.
Qed.

Lemma load_keeps_records_well_formed_witness :
  well_formed 25544
    (mkTLERecord samples.iss_name samples.iss_line1 samples.iss_line2 25544).
Proof.
  apply (load_keeps_records_well_formed samples.empty_store
           (store_all (parse_blocks (lines_of samples.iss_block))
              samples.empty_store)
           samples.iss_block 1).
  - intros k r H. unfold get, samples.empty_store in H.
    rewrite lookup_empty in H. discriminate.
  - apply load_from_text_parse.
  - vm_compute. reflexivity.
Defined.

(** *** Counts *)

Lemma block_record_length (nm l1 l2 : string) :
  List.length (block_record nm l1 l2) <= 1.
Proof. unfold block_record. destruct (_extract_norad l1); simpl; lia. Qed.

Lemma parse_blocks_length (lines : list string) :
  2 * List.length (parse_blocks lines) <= List.length lines.
Proof.
  induction lines as [lines IH] using parse_blocks_induction.
  destruct lines as [|a [|b [|c rest]]]; simpl; try lia.
  change (2 * List.length (parse_blocks (a :: b :: c :: rest))
          <= S (S (S (List.length rest)))).
  rewrite parse_blocks_window.
  destruct (startswith b "1 " && startswith c "2 ").
  - rewrite length_app. pose proof (block_record_length a b c).
    assert (2 * List.length (parse_blocks rest) <= List.length rest)
      by (apply IH; simpl; lia). lia.
  - destruct (startswith a "1 " && startswith b "2 ").
    + rewrite length_app. pose proof (block_record_length "UNKNOWN" a b).
      assert (2 * List.length (parse_blocks (c :: rest)) <= List.length (c :: rest))
        by (apply IH; simpl; lia). simpl in *. lia.
    + assert (2 * List.length (parse_blocks (b :: c :: rest))
              <= List.length (b :: c :: rest)) by (apply IH; simpl; lia).
      simpl in *. lia.
Qed.

Lemma store_all_size (bl : list TLERecord) (s : TLEStore) :
  size (store_all bl s) <= size s + List.length bl.
Proof.
  revert s. induction bl as [|r bl IH]; intros s; [simpl; lia|].
  change (r :: bl) with ([r] ++ bl)%list. rewrite store_all_app.
  specialize (IH (store_all [r] s)).
  assert (Hs : size (store_all [r] s) <= S (size s)).
  { cbn [store_all fold_left].
    pose proof (map_size_insert (norad_id r) r s) as Hs.
    destruct (s !! norad_id r); unfold Datatypes.id in Hs; lia. }
  rewrite length_app. simpl List.length. lia.
Qed.

(** X4.  The returned count is at most half the number of non-blank lines, and
    the store grows by at most the count: blocks that repeat a number are
    counted each time and stored once. *)
Theorem load_count_bounds (store : TLEStore) (text : string) :
  exists (store' : TLEStore) (n : Z),
    load_from_text store text = Some (Ok (store', n))
    /\ (0 <= n)%Z
    /\ (2 * n <= Z.of_nat (List.length (lines_of text)))%Z
    /\ (Z.of_nat (size store') <= Z.of_nat (size store) + n)%Z.
Proof.
  rewrite load_from_text_parse. eexists _, _. split; [reflexivity|].
  pose proof (parse_blocks_length (lines_of text)).
  pose proof (store_all_size (parse_blocks (lines_of text)) store).
  repeat split; lia.
Qed.

(** *** Loading twice *)

(** X5.  Loading the same text a second time returns the same count and leaves
    the store as the first load left it. *)
Theorem load_twice (store : TLEStore) (text : string) :
  exists (store' : TLEStore) (n : Z),
    load_from_text store text = Some (Ok (store', n))
    /\ load_from_text store' text = Some (Ok (store', n)).
Proof.
  rewrite load_from_text_parse. eexists _, _. split; [reflexivity|].
  rewrite load_from_text_parse. do 3 f_equal.
  apply map_eq. intros k. rewrite !store_all_lookup.
  now destruct (last_with_id k (parse_blocks (lines_of text))).
Qed.

(** *** Lines that hold no block *)

Lemma has_element_pair_cons (u v : string) (rest : list string) :
  has_element_pair (u :: v :: rest)
  = (startswith u "1 " && startswith v "2 ") || has_element_pair (v :: rest).
Proof. reflexivity. Qed.

Lemma parse_blocks_skips (junk rest : list string) :
  has_element_pair (junk ++ firstn 2 rest)%list = false ->
  parse_blocks (junk ++ rest)%list = parse_blocks rest.
Proof.
  induction junk as [|j junk IH]; intros H; [reflexivity|].
  assert (Htail : has_element_pair (junk ++ firstn 2 rest)%list = false).
  { simpl app in H. destruct (junk ++ firstn 2 rest)%list as [|v t] eqn:E;
      [reflexivity|].
    rewrite has_element_pair_cons in H. now apply orb_false_iff in H. }
  specialize (IH Htail). simpl app.
  destruct (junk ++ rest)%list as [|y [|z tl]] eqn:E.
  - rewrite <- IH. reflexivity.
  - rewrite <- IH. reflexivity.
  - rewrite parse_blocks_window, <- IH.
    assert (Hyz : exists t, (junk ++ firstn 2 rest)%list = y :: z :: t).
    { destruct junk as [|a [|b junk']]; simpl in E |- *.
      - subst rest. simpl. now eexists.
      - injection E as -> ->. simpl. now eexists.
      - injection E as -> -> _. now eexists. }
    destruct Hyz as [t Ht]. simpl app in H. rewrite Ht in H, Htail.
    rewrite !has_element_pair_cons in H.
    rewrite has_element_pair_cons in Htail.
    apply orb_false_iff in H. destruct H as [H1 H].
    apply orb_false_iff in H. destruct H as [H2 _].
    now rewrite H2, H1.
Qed.

(** X6.  Lines in front of a text, among which (together with the next two
    lines) no line starting with ["1 "] is directly followed by a line
    starting with ["2 "], change nothing: the loader steps over them. *)
Theorem load_skips_lines_without_blocks (store : TLEStore)
    (text text' : string) (junk : list string) :
  lines_of text' = (junk ++ lines_of text)%list ->
  has_element_pair (junk ++ firstn 2 (lines_of text))%list = false ->
  load_from_text store text' = load_from_text store text.
Proof.
  intros Hl Hj. rewrite !load_from_text_parse, Hl.
  now rewrite (parse_blocks_skips junk (lines_of text) Hj).
Qed.

Lemma load_skips_lines_without_blocks_witness :
  load_from_text samples.empty_store
    ("# catalogue of 2024" ++ tle_text.nl ++ "corrupt 1 25544U" ++ tle_text.nl
     ++ samples.iss_block)
  = load_from_text samples.empty_store samples.iss_block.
Proof.
  apply (load_skips_lines_without_blocks samples.empty_store samples.iss_block
           ("# catalogue of 2024" ++ tle_text.nl ++ "corrupt 1 25544U"
            ++ tle_text.nl ++ samples.iss_block)
           ["# catalogue of 2024"; "corrupt 1 25544U"]);
    vm_compute; reflexivity.
Defined.

End tle_parse_facts.

(** ** The store with its order, and the listing *)

Lemma slice_to_map {A B : Type} (f : A -> B) (l : list A) (n : Z) :
  List.map f (tle_store_ordered.slice_to l n)
  = tle_store_ordered.slice_to (List.map f l) n.
Proof.
  unfold tle_store_ordered.slice_to. rewrite length_map.
  destruct (n <? 0)%Z; now rewrite firstn_map.
Qed.

Lemma slice_to_length {A : Type} (l : list A) (n : Z) :
  Z.of_nat (List.length (tle_store_ordered.slice_to l n))
  = if (n <? 0)%Z then Z.max 0 (Z.of_nat (List.length l) + n)
    else Z.min n (Z.of_nat (List.length l)).
Proof.
  unfold tle_store_ordered.slice_to.
  destruct (Z.ltb_spec n 0); rewrite length_firstn; lia.
Qed.

Lemma slice_to_In {A : Type} (l : list A) (n : Z) (x : A) :
  In x (tle_store_ordered.slice_to l n) -> In x l.
Proof.
  unfold tle_store_ordered.slice_to.
  destruct (n <? 0)%Z; intros H;
    match goal with
    | H : In x (firstn ?m l) |- _ =>
        rewrite <- (firstn_skipn m l); apply in_or_app; now left
    end.
Qed.

Module tle_store_ordered_facts.

Import stdpp.base stdpp.gmap.
Import pystr tle_store tle_parse.
Import tle_store_ordered.
Local Open Scope string_scope.
Local Open Scope nat_scope.

Lemma getitem_opt_setitem (d : odict) (k k' : Z) (v : TLERecord) :
  getitem_opt (setitem d k v) k'
  = if Z.eqb k k' then Some v else getitem_opt d k'.
Proof.
  induction d as [|[k0 v0] d IH]; simpl.
  - reflexivity.
  - destruct (Z.eqb_spec k0 k) as [->|Hne]; simpl.
    + now destruct (Z.eqb k k').
    + rewrite IH. destruct (Z.eqb_spec k0 k') as [->|Hne'].
      * destruct (Z.eqb_spec k k'); [congruence|reflexivity].
      * reflexivity.
Qed.

Lemma keys_setitem (d : odict) (k : Z) (v : TLERecord) :
  keys (setitem d k v)
  = if existsb (Z.eqb k) (keys d) then keys d else (keys d ++ [k])%list.
Proof.
  unfold keys. induction d as [|[k0 v0] d IH]; simpl; [reflexivity|].
  rewrite (Z.eqb_sym k k0).
  destruct (Z.eqb_spec k0 k) as [->|Hne]; simpl; [reflexivity|].
  rewrite IH. now destruct (existsb (Z.eqb k) (List.map fst d)).
Qed.

Lemma to_gmap_lookup (d : odict) (k : Z) :
  to_gmap d !! k = getitem_opt d k.
Proof.
  induction d as [|[k0 v0] d IH]; simpl.
  - apply lookup_empty.
  - destruct (Z.eqb_spec k0 k) as [->|Hne].
    + apply lookup_insert_eq.
    + rewrite lookup_insert_ne by exact Hne. exact IH.
Qed.

Lemma to_gmap_setitem (d : odict) (k : Z) (v : TLERecord) :
  to_gmap (setitem d k v) = <[k := v]> (to_gmap d).
Proof.
  apply map_eq. intros k'. rewrite to_gmap_lookup, getitem_opt_setitem.
  destruct (Z.eqb_spec k k') as [->|Hne].
  - now rewrite lookup_insert_eq.
  - rewrite lookup_insert_ne by exact Hne. now rewrite to_gmap_lookup.
Qed.

Lemma to_gmap_store_all (bl : list TLERecord) (d : odict) :
  to_gmap (tle_store_ordered.store_all bl d)
  = tle_parse.store_all bl (to_gmap d).
Proof.
  revert d. induction bl as [|r bl IH]; intros d; [reflexivity|].
  cbn [tle_store_ordered.store_all tle_parse.store_all fold_left].
  rewrite <- to_gmap_setitem. apply IH.
Qed.

Lemma store_all_o_app (b1 b2 : list TLERecord) (d : odict) :
  tle_store_ordered.store_all (b1 ++ b2)%list d
  = tle_store_ordered.store_all b2 (tle_store_ordered.store_all b1 d).
Proof. unfold tle_store_ordered.store_all. apply fold_left_app. Qed.

Lemma ingest_o_block_record (nm l1 l2 : string) (i' : nat)
    (st : tle_store_ordered.loop_state) :
  tle_store_ordered.ingest nm l1 l2 i' st
  = tle_store_ordered.mkState i'
      (tle_store_ordered.count st
       + Z.of_nat (List.length (block_record nm l1 l2)))%Z
      (tle_store_ordered.store_all (block_record nm l1 l2)
         (tle_store_ordered.by_id st)).
Proof.
  unfold tle_store_ordered.ingest, block_record.
  destruct (_extract_norad l1); simpl.
  - reflexivity.
  - now rewrite Z.add_0_r.
Qed.

Lemma loop_body_o_parse (lines : list string) (st : tle_store_ordered.loop_state) :
  tle_store_ordered.idx st + 2 < List.length lines ->
  exists (st' : tle_store_ordered.loop_state) (bl : list TLERecord),
    tle_store_ordered.loop_body lines st = Ok st'
    /\ tle_store_ordered.idx st < tle_store_ordered.idx st'
       <= tle_store_ordered.idx st + 3
    /\ parse_blocks (skipn (tle_store_ordered.idx st) lines)
       = (bl ++ parse_blocks (skipn (tle_store_ordered.idx st') lines))%list
    /\ tle_store_ordered.count st'
       = (tle_store_ordered.count st + Z.of_nat (List.length bl))%Z
    /\ tle_store_ordered.by_id st'
       = tle_store_ordered.store_all bl (tle_store_ordered.by_id st).
Proof.
  intros Hg.
  destruct (skipn_window (tle_store_ordered.idx st) lines Hg)
    as (a & b & c & rest & Hs & Ha & Hb & Hc & Hs1 & Hs2 & Hs3).
  unfold tle_store_ordered.loop_body. cbv zeta.
  rewrite (getitem_nth_error _ _ _ Ha), (getitem_nth_error _ _ _ Hb),
    (getitem_nth_error _ _ _ Hc).
  cbn [bind]. rewrite Hs, tle_parse_facts.parse_blocks_window.
  destruct (startswith b "1 " && startswith c "2 ") eqn:E1; cbn [negb].
  - exists (tle_store_ordered.ingest a b c (tle_store_ordered.idx st + 3) st),
      (block_record a b c).
    rewrite ingest_o_block_record.
    cbn [tle_store_ordered.idx tle_store_ordered.count tle_store_ordered.by_id].
    rewrite Hs3. repeat split; first [reflexivity | simpl; lia].
  - destruct (startswith a "1 ") eqn:E2; cbn [andb].
    + destruct (startswith b "2 ") eqn:E3.
      * exists (tle_store_ordered.ingest "UNKNOWN" a b
                  (tle_store_ordered.idx st + 2) st),
          (block_record "UNKNOWN" a b).
        rewrite ingest_o_block_record.
        cbn [tle_store_ordered.idx tle_store_ordered.count
             tle_store_ordered.by_id].
        rewrite Hs2. repeat split; first [reflexivity | simpl; lia].
      * exists (tle_store_ordered.mkState (tle_store_ordered.idx st + 1)
                  (tle_store_ordered.count st) (tle_store_ordered.by_id st)), [].
        cbn [tle_store_ordered.idx tle_store_ordered.count
             tle_store_ordered.by_id].
        rewrite Hs1. repeat split; first [reflexivity | simpl; lia].
    + exists (tle_store_ordered.mkState (tle_store_ordered.idx st + 1)
                (tle_store_ordered.count st) (tle_store_ordered.by_id st)), [].
      cbn [tle_store_ordered.idx tle_store_ordered.count
           tle_store_ordered.by_id].
      rewrite Hs1. repeat split; first [reflexivity | simpl; lia].
Qed.

Lemma while_loop_o_parse (fuel : nat) :
  forall (lines : list string) (st : tle_store_ordered.loop_state),
    List.length lines <= tle_store_ordered.idx st + fuel ->
    exists st' : tle_store_ordered.loop_state,
      tle_store_ordered.while_loop fuel lines st = Some (Ok st')
      /\ tle_store_ordered.count st'
         = (tle_store_ordered.count st
            + Z.of_nat (List.length
                          (parse_blocks (skipn (tle_store_ordered.idx st) lines))))%Z
      /\ tle_store_ordered.by_id st'
         = tle_store_ordered.store_all
             (parse_blocks (skipn (tle_store_ordered.idx st) lines))
             (tle_store_ordered.by_id st).
Proof.
  induction fuel as [|fuel IH]; intros lines st Hf.
  - simpl.
    destruct (Nat.ltb_spec (tle_store_ordered.idx st + 2) (List.length lines))
      as [Hg|Hg]; [lia|].
    exists st. split; [reflexivity|].
    pose proof (skipn_short (tle_store_ordered.idx st) lines Hg) as Hs.
    destruct (skipn (tle_store_ordered.idx st) lines) as [|a [|b [|c rest]]];
      try contradiction; simpl; split; try lia; reflexivity.
  - simpl.
    destruct (Nat.ltb_spec (tle_store_ordered.idx st + 2) (List.length lines))
      as [Hg|Hg].
    + destruct (loop_body_o_parse lines st Hg)
        as (st1 & bl & Hb & Hi & Hp & Hc & Hm).
      rewrite Hb.
      destruct (IH lines st1) as (st' & Hw & Hc' & Hm'); [lia|].
      exists st'. split; [exact Hw|].
      rewrite Hp, length_app, store_all_o_app, Hc', Hm', Hc, Hm.
      split; [lia|reflexivity].
    + exists st. split; [reflexivity|].
      pose proof (skipn_short (tle_store_ordered.idx st) lines Hg) as Hs.
      destruct (skipn (tle_store_ordered.idx st) lines) as [|a [|b [|c rest]]];
        try contradiction; simpl; split; try lia; reflexivity.
Qed.

Lemma load_from_text_o_parse (store : odict) (text : string) :
  tle_store_ordered.load_from_text store text
  = Some (Ok (tle_store_ordered.store_all (parse_blocks (lines_of text)) store,
              Z.of_nat (List.length (parse_blocks (lines_of text))))).
Proof.
  unfold tle_store_ordered.load_from_text.
  destruct (while_loop_o_parse (List.length (lines_of text)) (lines_of text)
              (tle_store_ordered.mkState 0 0%Z store))
    as (st' & Hw & Hc & Hm); [simpl; lia|].
  rewrite Hw, Hc, Hm. reflexivity.
Qed.

(** *** Keys and entries of a store built by a load *)

Lemma existsb_eqb_In (k : Z) (l : list Z) :
  existsb (Z.eqb k) l = true <-> In k l.
Proof.
  rewrite existsb_exists. split.
  - intros (x & Hx & E). apply Z.eqb_eq in E. now subst.
  - intros H. exists k. split; [exact H|apply Z.eqb_refl].
Qed.

Lemma keys_store_all (bl : list TLERecord) (d : odict) :
  keys (tle_store_ordered.store_all bl d)
  = (keys d ++ first_ids (keys d) bl)%list.
Proof.
  revert d. induction bl as [|r bl IH]; intros d.
  - simpl. now rewrite app_nil_r.
  - cbn [tle_store_ordered.store_all fold_left first_ids].
    fold (tle_store_ordered.store_all bl (setitem d (norad_id r) r)).
    rewrite IH, keys_setitem.
    destruct (existsb (Z.eqb (norad_id r)) (keys d)); [reflexivity|].
    now rewrite <- app_assoc.
Qed.

Lemma setitem_In (d : odict) (k : Z) (v : TLERecord) (kv : Z * TLERecord) :
  In kv (setitem d k v) -> kv = (k, v) \/ In kv d.
Proof.
  induction d as [|[k0 v0] d IH]; simpl.
  - intros [<-|[]]. now left.
  - destruct (Z.eqb k0 k).
    + intros [<-|H]; [now left|right; now right].
    + intros [<-|H]; [right; now left|].
      destruct (IH H) as [->|H']; [now left|right; now right].
Qed.

Lemma store_all_entries (bl : list TLERecord) (d : odict) :
  Forall (fun kv => norad_id (snd kv) = fst kv) d ->
  Forall (fun kv => norad_id (snd kv) = fst kv)
         (tle_store_ordered.store_all bl d).
Proof.
  revert d. induction bl as [|r bl IH]; intros d Hd; [exact Hd|].
  cbn [tle_store_ordered.store_all fold_left]. apply IH.
  rewrite List.Forall_forall in *. intros kv Hin.
  apply setitem_In in Hin. destruct Hin as [->|Hin]; [reflexivity|now apply Hd].
Qed.

Lemma keys_NoDup_setitem (d : odict) (k : Z) (v : TLERecord) :
  List.NoDup (keys d) -> List.NoDup (keys (setitem d k v)).
Proof.
  intros Hd. rewrite keys_setitem.
  destruct (existsb (Z.eqb k) (keys d)) eqn:E; [exact Hd|].
  apply (Permutation.Permutation_NoDup (Permutation_cons_append (keys d) k)).
  constructor; [|exact Hd].
  intros Hin. apply existsb_eqb_In in Hin. congruence.
Qed.

Lemma keys_NoDup_store_all (bl : list TLERecord) (d : odict) :
  List.NoDup (keys d) -> List.NoDup (keys (tle_store_ordered.store_all bl d)).
Proof.
  revert d. induction bl as [|r bl IH]; intros d Hd; [exact Hd|].
  cbn [tle_store_ordered.store_all fold_left]. apply IH.
  now apply keys_NoDup_setitem.
Qed.

Lemma getitem_opt_In (d : odict) (k : Z) (v : TLERecord) :
  List.NoDup (keys d) -> In (k, v) d -> getitem_opt d k = Some v.
Proof.
  unfold keys. induction d as [|[k0 v0] d IH]; simpl; [intros _ []|].
  intros Hnd [E|Hin].
  - injection E as -> ->. now rewrite Z.eqb_refl.
  - inversion Hnd as [|? ? Hnot Hnd']; subst.
    destruct (Z.eqb_spec k0 k) as [->|Hne].
    + exfalso. apply Hnot. apply in_map_iff. now exists (k, v).
    + now apply IH.
Qed.

Lemma getitem_opt_store_all (bl : list TLERecord) (d : odict) (k : Z) :
  getitem_opt (tle_store_ordered.store_all bl d) k
  = match last_with_id k bl with
    | Some r => Some r
    | None => getitem_opt d k
    end.
Proof.
  rewrite <- !to_gmap_lookup, to_gmap_store_all.
  apply tle_parse_facts.store_all_lookup.
Qed.

(** The number of objects listed: [limit] of them when the store holds as
    many and [limit] is not negative; with a negative [limit] all but the
    last [-limit]. *)
Lemma list_objects_count (store : odict) (limit : Z) :
  fst (api_list_objects store limit)
  = Z.of_nat (List.length (snd (api_list_objects store limit)))
  /\ fst (api_list_objects store limit)
     = if (limit <? 0)%Z
       then Z.max 0 (Z.of_nat (List.length store) + limit)
       else Z.min limit (Z.of_nat (List.length store)).
Proof.
  unfold api_list_objects, list_objects. cbn [fst snd]. split; [reflexivity|].
  now rewrite length_map, slice_to_length.
Qed.

(** X7.  After [clear] and [load_from_text] the objects are listed in the order
    in which their numbers first occur in the text, no number twice, and
    each with the name of the last block that carries the number, which is
    the record that [get] returns. *)
Theorem list_objects_after_reload (old : odict) (text : string) (limit : Z) :
  exists (store : odict) (n : Z),
    tle_store_ordered.load_from_text (tle_store_ordered.clear old) text
    = Some (Ok (store, n))
    /\ List.map fst (list_objects store limit)
       = slice_to (first_ids [] (parse_blocks (lines_of text))) limit
    /\ List.NoDup (List.map fst (list_objects store limit))
    /\ forall (id : Z) (nm : string),
         In (id, nm) (list_objects store limit) ->
         exists r : TLERecord,
           last_with_id id (parse_blocks (lines_of text)) = Some r
           /\ tle_store_ordered.get store id = Some r
           /\ name r = nm.
Proof.
  rewrite load_from_text_o_parse. unfold tle_store_ordered.clear.
  set (bl := parse_blocks (lines_of text)).
  set (store := tle_store_ordered.store_all bl []).
  exists store, (Z.of_nat (List.length bl)). split; [reflexivity|].
  assert (Hent : Forall (fun kv => norad_id (snd kv) = fst kv) store)
    by (apply store_all_entries; constructor).
  assert (Hnd : List.NoDup (keys store))
    by (apply keys_NoDup_store_all; constructor).
  assert (Hkeys : keys store = first_ids [] bl)
    by (unfold store; now rewrite keys_store_all).
  assert (Hids : List.map fst (list_objects store limit)
                 = slice_to (keys store) limit).
  { unfold list_objects, keys. rewrite map_map, <- slice_to_map.
    apply map_ext_in. intros kv Hin. cbn [fst].
    apply slice_to_In in Hin. rewrite List.Forall_forall in Hent.
    now apply Hent. }
  split; [now rewrite Hids, Hkeys|]. split.
  - rewrite Hids. unfold slice_to.
    destruct (limit <? 0)%Z;
      match goal with
      | |- List.NoDup (firstn ?m _) =>
          rewrite <- (firstn_skipn m (keys store)) in Hnd;
          exact (NoDup_app_remove_r _ _ Hnd)
      end.
  - intros id nm Hin. unfold list_objects in Hin.
    apply in_map_iff in Hin. destruct Hin as ([k r] & E & Hin).
    cbn [fst snd] in E. injection E as <- <-.
    apply slice_to_In in Hin.
    rewrite List.Forall_forall in Hent. pose proof (Hent _ Hin) as Hk.
    cbn [fst snd] in Hk. rewrite Hk.
    pose proof (getitem_opt_In store k r Hnd Hin) as Hget.
    exists r. split; [|split; [exact Hget|reflexivity]].
    unfold store in Hget. rewrite getitem_opt_store_all in Hget.
    now destruct (last_with_id k bl).
Qed.

End tle_store_ordered_facts.

(** ** More on the propagator *)

Module propagate_more_facts.

Import tle_store propagate.
Local Open Scope Z_scope.

Section Skyfield.

Variable satellite : Type.
Variable EarthSatellite : string -> string -> string -> result satellite.
Variable subpoint : satellite -> Z -> R * R * R.

Let propagate_positions := propagate_positions satellite EarthSatellite subpoint.

(** X8.  Once the satellite object is built, a step of 0 raises
    [ZeroDivisionError].  For every other step, also a negative one or one
    that exceeds the window, and every duration, also 0 or less, the loop
    runs over the indices [0 .. max(1, floor(minutes*60 / step))]: when the
    instant of every index is a [datetime] the call returns one sample per
    index, at least two, and otherwise it raises [OverflowError].  The call
    never returns an empty list. *)
Theorem propagate_never_empty (rec : TLERecord) (sat : satellite)
    (t0 minutes step : Z) :
  EarthSatellite (line1 rec) (line2 rec) (name rec) = Ok sat ->
  (step = 0 ->
   propagate_positions rec t0 minutes step = Raise ZeroDivisionError)
  /\ (step <> 0 ->
      forallb (fun k => reachable t0 (k * step))
        (range (Z.max 1 (minutes * 60 / step) + 1)) = true ->
      exists samples : list sample,
        propagate_positions rec t0 minutes step = Ok samples
        /\ Z.of_nat (List.length samples) = Z.max 1 (minutes * 60 / step) + 1
        /\ (2 <= List.length samples)%nat)
  /\ (step <> 0 ->
      forallb (fun k => reachable t0 (k * step))
        (range (Z.max 1 (minutes * 60 / step) + 1)) = false ->
      propagate_positions rec t0 minutes step = Raise OverflowError)
  /\ propagate_positions rec t0 minutes step <> Ok [].
Proof.
  intros Hsat.
  assert (Hzero : step = 0 ->
            propagate_positions rec t0 minutes step = Raise ZeroDivisionError).
  { intros ->. unfold propagate_positions, propagate.propagate_positions.
    now rewrite Hsat. }
  assert (Hok : step <> 0 ->
            forallb (fun k => reachable t0 (k * step))
              (range (Z.max 1 (minutes * 60 / step) + 1)) = true ->
            exists samples : list sample,
              propagate_positions rec t0 minutes step = Ok samples
              /\ Z.of_nat (List.length samples)
                 = Z.max 1 (minutes * 60 / step) + 1
              /\ (2 <= List.length samples)%nat).
  { intros Hs Hall.
    destruct (propagate_facts.propagate_positions_samples satellite
                EarthSatellite subpoint rec sat t0 minutes step Hs Hsat Hall)
      as (samples & Hrun & Hlen & _).
    exists samples. split; [exact Hrun|]. rewrite Hlen. split; lia. }
  assert (Hover : step <> 0 ->
            forallb (fun k => reachable t0 (k * step))
              (range (Z.max 1 (minutes * 60 / step) + 1)) = false ->
            propagate_positions rec t0 minutes step = Raise OverflowError).
  { intros Hs Hall.
    exact (propagate_facts.propagate_positions_overflow satellite
             EarthSatellite subpoint rec sat t0 minutes step Hs Hsat Hall). }
  repeat split; try assumption.
  intros Hempty.
  destruct (Z.eq_dec step 0) as [E|N].
  - rewrite (Hzero E) in Hempty. discriminate.
  - destruct (forallb (fun k => reachable t0 (k * step))
                (range (Z.max 1 (minutes * 60 / step) + 1))) eqn:E.
    + destruct (Hok N eq_refl) as (samples & Hrun & _ & Hlen).
      rewrite Hrun in Hempty. injection Hempty as ->. simpl in Hlen. lia.
    + rewrite (Hover N eq_refl) in Hempty. discriminate.
Qed.

(** What the orbital library raises when it rejects the element lines is
    what the call raises, whatever the step. *)
Lemma propagate_library_error (rec : TLERecord) (e : exn) (t0 minutes step : Z) :
  EarthSatellite (line1 rec) (line2 rec) (name rec) = Raise e ->
  propagate_positions rec t0 minutes step = Raise e.
Proof.
  intros H. unfold propagate_positions, propagate.propagate_positions.
  now rewrite H.
Qed.

(** X9.  With a start time, a step of at least one second, and the last
    instant still a [datetime], the samples are in strictly ascending order
    of time.  When the step is no longer than the window, the last sample
    lies within the window and less than one step before its end; when the
    step is longer, the second and last sample lies beyond the window, one
    step after the start. *)
Theorem propagate_ascending_to_window_end (rec : TLERecord) (sat : satellite)
    (t0 minutes step : Z) :
  1 <= minutes ->
  1 <= step ->
  datetime_min <= t0 ->
  t0 + Z.max 1 (minutes * 60 / step) * step <= datetime_max ->
  EarthSatellite (line1 rec) (line2 rec) (name rec) = Ok sat ->
  exists (samples : list sample) (final : sample),
    propagate_positions rec t0 minutes step = Ok samples
    /\ nth_error samples (List.length samples - 1) = Some final
    /\ (forall (i j : nat) (a b : sample),
          (i < j)%nat ->
          nth_error samples i = Some a ->
          nth_error samples j = Some b ->
          t a < t b)
    /\ (step <= minutes * 60 ->
        t0 + minutes * 60 - step < t final <= t0 + minutes * 60)
    /\ (minutes * 60 < step -> t final = t0 + step).
Proof.
  intros Hm Hs Hmin Hmax Hsat.
  assert (Hall : forallb (fun k => reachable t0 (k * step))
                   (range (Z.max 1 (minutes * 60 / step) + 1)) = true).
  { rewrite (propagate_facts.reachable_range t0 step
               (Z.max 1 (minutes * 60 / step)) ltac:(lia) Hs).
    - now apply Z.leb_le.
    - split; [exact Hmin|]. nia. }
  destruct (propagate_facts.propagate_positions_samples satellite
              EarthSatellite subpoint rec sat t0 minutes step
              ltac:(lia) Hsat Hall) as (samples & Hrun & Hlen & Ht).
  assert (Hlast : exists final,
             nth_error samples (List.length samples - 1) = Some final).
  { destruct (nth_error samples (List.length samples - 1)) as [x|] eqn:E;
      [now exists x|].
    apply nth_error_None in E. lia. }
  destruct Hlast as [final Hfinal].
  exists samples, final. split; [exact Hrun|]. split; [exact Hfinal|].
  pose proof (Ht _ _ Hfinal) as Htf.
  assert (Hidx : Z.of_nat (List.length samples - 1)
                 = Z.max 1 (minutes * 60 / step)) by lia.
  rewrite Hidx in Htf.
  split; [|split].
  - intros i j a b Hij Ha Hb. rewrite (Ht _ _ Ha), (Ht _ _ Hb). nia.
  - intros Hle.
    assert (1 <= minutes * 60 / step) by (apply Z.div_le_lower_bound; lia).
    rewrite Z.max_r in Htf by lia.
    pose proof (Z.mul_div_le (minutes * 60) step ltac:(lia)).
    pose proof (Z.mul_succ_div_gt (minutes * 60) step ltac:(lia)).
    rewrite Htf. nia.
  - intros Hgt.
    rewrite (Z.div_small (minutes * 60) step) in Htf by lia.
    rewrite Htf. lia.
Qed.

End Skyfield.

Lemma propagate_never_empty_witness :
  (exists samples : list sample,
     propagate_positions unit (fun _ _ _ => Ok tt) (fun _ _ => (0, 0, 0)%R)
       (mkTLERecord samples.iss_name samples.iss_line1 samples.iss_line2 25544)
       63840000000 0 (-5) = Ok samples
     /\ Z.of_nat (List.length samples) = Z.max 1 (0 * 60 / -5) + 1
     /\ (2 <= List.length samples)%nat)
  /\ propagate_positions unit (fun _ _ _ => Ok tt) (fun _ _ => (0, 0, 0)%R)
       (mkTLERecord samples.iss_name samples.iss_line1 samples.iss_line2 25544)
       0 0 (-5) = Raise OverflowError.
Proof.
  split.
  - apply (proj1 (proj2
             (propagate_never_empty unit (fun _ _ _ => Ok tt)
                (fun _ _ => (0, 0, 0)%R)
                (mkTLERecord samples.iss_name samples.iss_line1
                   samples.iss_line2 25544)
                tt 63840000000 0 (-5) eq_refl))); [lia|reflexivity].
  - apply (proj1 (proj2 (proj2
             (propagate_never_empty unit (fun _ _ _ => Ok tt)
                (fun _ _ => (0, 0, 0)%R)
                (mkTLERecord samples.iss_name samples.iss_line1
                   samples.iss_line2 25544)
                tt 0 0 (-5) eq_refl)))); [lia|reflexivity].
Defined.

Lemma propagate_ascending_to_window_end_witness :
  exists (samples : list sample) (final : sample),
    propagate_positions unit (fun _ _ _ => Ok tt) (fun _ _ => (0, 0, 0)%R)
      (mkTLERecord samples.iss_name samples.iss_line1 samples.iss_line2 25544)
      63840000000 2 45 = Ok samples
    /\ nth_error samples (List.length samples - 1) = Some final
    /\ (forall (i j : nat) (a b : sample),
          (i < j)%nat ->
          nth_error samples i = Some a ->
          nth_error samples j = Some b ->
          t a < t b)
    /\ (45 <= 2 * 60 ->
        63840000000 + 2 * 60 - 45 < t final <= 63840000000 + 2 * 60)
    /\ (2 * 60 < 45 -> t final = 63840000000 + 45).
Proof.
  apply (propagate_ascending_to_window_end unit (fun _ _ _ => Ok tt)
           (fun _ _ => (0, 0, 0)%R)
           (mkTLERecord samples.iss_name samples.iss_line1 samples.iss_line2 25544)
           tt 63840000000 2 45);
    [lia|lia|unfold datetime_min; lia|apply Z.leb_le; reflexivity|reflexivity].
Defined.

End propagate_more_facts.

(** ** More on the flux table *)

Module risk_more_facts.

Import risk.
Local Open Scope Q_scope.

(** *** What the neighbour lookup returns *)

Lemma sorted_set_nonempty (l : list Q) : l <> [] -> sorted_set l <> [].
Proof.
  destruct l as [|x l]; [contradiction|]. intros _ E.
  destruct (risk_facts.sorted_set_cover x (x :: l)) as (y & Hy & _); [now left|].
  rewrite E in Hy. destruct Hy.
Qed.

Lemma corner_lookup_length (cands : list row) (A I : Q) :
  (List.length (match find_near cands A I with
                | Some m => [m]
                | None => []
                end) <= 1)%nat
  /\ forall g, In g (match find_near cands A I with
                     | Some m => [m]
                     | None => []
                     end) -> In g cands.
Proof.
  destruct (find_near cands A I) as [m|] eqn:E; simpl.
  - split; [lia|]. intros g [<-|[]].
    unfold find_near in E. now apply find_some in E.
  - split; [lia|]. intros g [].
Qed.

(** X10.  [_neighbors] raises, and then [IndexError], exactly when the table has
    no row of the requested size bin.  Otherwise it returns at most four
    rows, all of them rows of that bin. *)
Theorem neighbors_rows_of_the_bin (alt inc size_min_cm size_max_cm : Q)
    (rows : list row) :
  (size_bin size_min_cm size_max_cm rows = [] ->
   _neighbors alt inc size_min_cm size_max_cm rows = Raise IndexError)
  /\ (size_bin size_min_cm size_max_cm rows <> [] ->
      exists grid : list row,
        _neighbors alt inc size_min_cm size_max_cm rows = Ok grid
        /\ (List.length grid <= 4)%nat
        /\ forall g, In g grid -> In g (size_bin size_min_cm size_max_cm rows)).
Proof.
  split.
  - intros H. now apply risk_facts.neighbors_no_size_match.
  - intros Hne. unfold _neighbors.
    fold (size_bin size_min_cm size_max_cm rows).
    set (cands := size_bin size_min_cm size_max_cm rows) in *.
    assert (Ha : sorted_set (List.map alt_km cands) <> []).
    { apply sorted_set_nonempty. destruct cands; [contradiction|discriminate]. }
    assert (Hi : sorted_set (List.map inc_deg cands) <> []).
    { apply sorted_set_nonempty. destruct cands; [contradiction|discriminate]. }
    destruct (risk_facts.getitem_first_nonempty _ Ha) as [da1 Eda1].
    destruct (risk_facts.getitem_last_nonempty _ Ha) as [da2 Eda2].
    destruct (risk_facts.getitem_first_nonempty _ Hi) as [di1 Edi1].
    destruct (risk_facts.getitem_last_nonempty _ Hi) as [di2 Edi2].
    rewrite Eda1, Eda2, Edi1, Edi2. cbn [bind].
    eexists. split; [reflexivity|].
    cbn [List.flat_map fst snd]. rewrite app_nil_r.
    split.
    + rewrite !length_app.
      repeat match goal with
      | |- context [find_near cands ?A ?I] =>
          let H := fresh in
          pose proof (proj1 (corner_lookup_length cands A I)) as H;
          destruct (find_near cands A I)
      end; simpl; lia.
    + intros g Hg. rewrite !in_app_iff in Hg.
      destruct Hg as [Hg|[Hg|[Hg|Hg]]];
        eapply (proj2 (corner_lookup_length cands _ _)); exact Hg.
Qed.

(** *** The nearest row *)

Lemma fold_min_by_spec (k : row -> Q) (l : list row) (x : row) :
  let m := fold_left (fun m y => if Qlt_bool (k y) (k m) then y else m) l x in
  (m = x \/ In m l) /\ k m <= k x /\ forall y, In y l -> k m <= k y.
Proof.
  revert x. induction l as [|z l IH]; intros x; simpl.
  - repeat split; [now left|lra|intros y []].
  - destruct (IH (if Qlt_bool (k z) (k x) then z else x)) as (Hin & Hle & Hall).
    destruct (Qlt_bool (k z) (k x)) eqn:E.
    + apply Qlt_bool_iff in E. repeat split.
      * destruct Hin as [->|Hin]; right; [now left|now right].
      * lra.
      * intros y [<-|Hy]; [exact Hle|now apply Hall].
    + assert (k x <= k z).
      { destruct (Qlt_le_dec (k z) (k x)) as [L|L]; [|exact L].
        apply Qlt_bool_iff in L. congruence. }
      repeat split.
      * destruct Hin as [->|Hin]; [now left|right; now right].
      * exact Hle.
      * intros y [<-|Hy]; [lra|now apply Hall].
Qed.

Lemma min_by_spec (k : row -> Q) (grid : list row) :
  grid <> [] ->
  exists g, min_by k grid = Ok g /\ In g grid
            /\ forall g', In g' grid -> k g <= k g'.
Proof.
  destruct grid as [|x l]; [contradiction|]. intros _.
  destruct (fold_min_by_spec k l x) as (Hin & Hle & Hall).
  eexists. split; [reflexivity|]. split.
  - destruct Hin as [->|Hin]; [now left|now right].
  - intros g' [<-|Hg']; [exact Hle|now apply Hall].
Qed.

Lemma sorted_set_one_value (l : list Q) :
  (forall x y, In x l -> In y l -> x == y) ->
  (List.length (sorted_set l) <= 1)%nat.
Proof.
  induction l as [|x l IH]; intros Hall; [simpl; lia|].
  unfold sorted_set in *. cbn [fold_right].
  assert (Hl : (List.length (fold_right insert_uniq [] l) <= 1)%nat).
  { apply IH. intros a b Ha Hb. apply Hall; now right. }
  destruct (fold_right insert_uniq [] l) as [|y [|z t]] eqn:E;
    simpl in Hl; try lia.
  - simpl. lia.
  - assert (Hy : In y l).
    { apply risk_facts.sorted_set_In. unfold sorted_set. rewrite E. now left. }
    cbn [insert_uniq]. rewrite (Qeq_bool_true x y); [simpl; lia|].
    apply Hall; [now left|now right].
Qed.

Lemma bilinear_one_line (alt inc : Q) (grid : list row) :
  grid <> [] ->
  (forall g g', In g grid -> In g' grid -> alt_km g == alt_km g')
  \/ (forall g g', In g grid -> In g' grid -> inc_deg g == inc_deg g') ->
  exists g : row,
    In g grid
    /\ _bilinear alt inc grid = Ok (flux g)
    /\ forall g', In g' grid ->
         Qabs (alt_km g - alt) + Qabs (inc_deg g - inc)
         <= Qabs (alt_km g' - alt) + Qabs (inc_deg g' - inc).
Proof.
  intros Hne Hone. unfold _bilinear.
  assert (Hshort : (List.length (sorted_set (List.map alt_km grid)) <? 2)%nat
                   || (List.length (sorted_set (List.map inc_deg grid)) <? 2)%nat
                   = true).
  { apply orb_true_iff. destruct Hone as [Ha|Hi]; [left|right];
      apply Nat.ltb_lt; apply Nat.le_lt_trans with 1%nat; try lia;
      apply sorted_set_one_value; intros x y Hx Hy;
      apply in_map_iff in Hx; apply in_map_iff in Hy;
      destruct Hx as (g & <- & Hg), Hy as (g' & <- & Hg'); auto. }
  rewrite Hshort.
  destruct (min_by_spec
              (fun g => Qabs (alt_km g - alt) + Qabs (inc_deg g - inc)) grid Hne)
    as (g & Hmin & Hin & Hall).
  rewrite Hmin. cbn [bind]. exists g. repeat split; assumption.
Qed.



(** *** A query on a grid line of the table *)

Lemma Qabs_eq (x y : Q) : x == y -> Qabs x == Qabs y.
Proof. intros H. now rewrite H. Qed.

Section OnAltitudeLine.

(** A table with separated grid lines in the requested size bin, a query
    whose altitude is tabulated, and whose inclination lies strictly inside
    a cell [i1 < i2] of the grid or is itself tabulated ([i1 == inc == i2]);
    the bin has a row at the query altitude on either inclination line. *)
Variables (rows : list row) (alt inc size_min_cm size_max_cm i1 i2 : Q).
Let cands := size_bin size_min_cm size_max_cm rows.
Hypothesis Hsa : separated alt_km cands.
Hypothesis Hsi : separated inc_deg cands.
Hypothesis C1 : exists r, In r cands /\ alt_km r == alt /\ inc_deg r == i1.
Hypothesis C2 : exists r, In r cands /\ alt_km r == alt /\ inc_deg r == i2.
Hypothesis Hinc : (i1 < inc /\ inc < i2) \/ (i1 == inc /\ i2 == inc).
Hypothesis Hadj_i : forall r, In r cands -> inc_deg r <= i1 \/ i2 <= inc_deg r.

Lemma neighbors_on_altitude_line :
  exists g1 g2 g3 g4 : row,
    _neighbors alt inc size_min_cm size_max_cm rows = Ok [g1; g2; g3; g4]
    /\ Forall (fun g => In g cands /\ alt_km g == alt) [g1; g2; g3; g4]
    /\ inc_deg g1 == i1 /\ inc_deg g2 == i2
    /\ inc_deg g3 == i1 /\ inc_deg g4 == i2.
Proof.
  destruct C1 as (r1 & R1 & A1 & I1), C2 as (r2 & R2 & A2 & I2).
  unfold _neighbors. fold (size_bin size_min_cm size_max_cm rows). fold cands.
  set (alts := sorted_set (List.map alt_km cands)).
  set (incs := sorted_set (List.map inc_deg cands)).
  destruct (risk_facts.sorted_set_cover (alt_km r1) (List.map alt_km cands))
    as (ya & Hya & Eya); [now apply in_map|].
  destruct (risk_facts.sorted_set_cover (inc_deg r1) (List.map inc_deg cands))
    as (yi1 & Hyi1 & Eyi1); [now apply in_map|].
  destruct (risk_facts.sorted_set_cover (inc_deg r2) (List.map inc_deg cands))
    as (yi2 & Hyi2 & Eyi2); [now apply in_map|].
  fold alts in Hya. fold incs in Hyi1, Hyi2.
  assert (Halts : alts <> []) by (intros E; rewrite E in Hya; destruct Hya).
  assert (Hincs : incs <> []) by (intros E; rewrite E in Hyi1; destruct Hyi1).
  destruct (risk_facts.getitem_first_nonempty alts Halts) as [da1 Eda1].
  destruct (risk_facts.getitem_last_nonempty alts Halts) as [da2 Eda2].
  destruct (risk_facts.getitem_first_nonempty incs Hincs) as [di1 Edi1].
  destruct (risk_facts.getitem_last_nonempty incs Hincs) as [di2 Edi2].
  rewrite Eda1, Eda2, Edi1, Edi2. cbn [bind].
  set (a1' := max_default (List.filter (fun a => Qle_bool a alt) alts) da1).
  set (a2' := min_default (List.filter (fun a => Qle_bool alt a) alts) da2).
  set (i1' := max_default (List.filter (fun i => Qle_bool i inc) incs) di1).
  set (i2' := min_default (List.filter (fun i => Qle_bool inc i) incs) di2).
  assert (Ea1 : a1' == alt).
  { destruct (risk_facts.max_default_spec alts alt da1 alt)
      as (_ & Hle & Hge); [exists ya; split; [exact Hya|lra]|lra|].
    fold a1' in Hle, Hge. lra. }
  assert (Ea2 : a2' == alt).
  { destruct (risk_facts.min_default_spec alts alt da2 alt)
      as (_ & Hle & Hge); [exists ya; split; [exact Hya|lra]|lra|].
    fold a2' in Hle, Hge. lra. }
  assert (Ei1 : i1' == i1).
  { destruct (risk_facts.max_default_spec incs inc di1 i1)
      as (Hin & Hle & Hge);
      [exists yi1; split; [exact Hyi1|lra]|destruct Hinc; lra|].
    fold i1' in Hin, Hle, Hge.
    apply risk_facts.sorted_set_In in Hin. apply in_map_iff in Hin.
    destruct Hin as (r & Er & Hr).
    destruct (Hadj_i r Hr) as [H|H]; rewrite Er in H; destruct Hinc; lra. }
  assert (Ei2 : i2' == i2).
  { destruct (risk_facts.min_default_spec incs inc di2 i2)
      as (Hin & Hle & Hge);
      [exists yi2; split; [exact Hyi2|lra]|destruct Hinc; lra|].
    fold i2' in Hin, Hle, Hge.
    apply risk_facts.sorted_set_In in Hin. apply in_map_iff in Hin.
    destruct Hin as (r & Er & Hr).
    destruct (Hadj_i r Hr) as [H|H]; rewrite Er in H; destruct Hinc; lra. }
  destruct (risk_facts.find_near_separated cands a1' i1' r1 Hsa Hsi R1)
    as (g1 & F1 & G1 & GA1 & GI1); [lra|lra|].
  destruct (risk_facts.find_near_separated cands a1' i2' r2 Hsa Hsi R2)
    as (g2 & F2 & G2 & GA2 & GI2); [lra|lra|].
  destruct (risk_facts.find_near_separated cands a2' i1' r1 Hsa Hsi R1)
    as (g3 & F3 & G3 & GA3 & GI3); [lra|lra|].
  destruct (risk_facts.find_near_separated cands a2' i2' r2 Hsa Hsi R2)
    as (g4 & F4 & G4 & GA4 & GI4); [lra|lra|].
  exists g1, g2, g3, g4.
  cbn [List.flat_map fst snd]. rewrite F1, F2, F3, F4. cbn [app].
  split; [reflexivity|]. split.
  - repeat constructor; try assumption; lra.
  - repeat split; lra.
Qed.

Lemma flux_on_altitude_line_aux :
  exists g : row,
    In g cands
    /\ alt_km g == alt
    /\ (inc_deg g == i1 \/ inc_deg g == i2)
    /\ flux_ordem_like rows alt inc size_min_cm size_max_cm = Ok (flux g)
    /\ Qabs (inc_deg g - inc) <= Qabs (i1 - inc)
    /\ Qabs (inc_deg g - inc) <= Qabs (i2 - inc).
Proof.
  destruct neighbors_on_altitude_line
    as (g1 & g2 & g3 & g4 & Hn & Hall & J1 & J2 & J3 & J4).
  assert (Hall' : forall g, In g [g1; g2; g3; g4] -> In g cands /\ alt_km g == alt)
    by (now apply Forall_forall).
  destruct (bilinear_one_line alt inc [g1; g2; g3; g4])
    as (g & Hg & Hv & Hmin); [discriminate| |].
  { left. intros x y Hx Hy.
    destruct (Hall' x Hx) as [_ Ex], (Hall' y Hy) as [_ Ey]. lra. }
  destruct (Hall' g Hg) as [Hgc Hga].
  assert (Hzero : forall x, In x [g1; g2; g3; g4] -> Qabs (alt_km x - alt) == 0).
  { intros x Hx. destruct (Hall' x Hx) as [_ Ex].
    rewrite (Qabs_eq (alt_km x - alt) 0) by lra. reflexivity. }
  exists g. split; [exact Hgc|]. split; [exact Hga|]. split.
  { simpl in Hg. destruct Hg as [<-|[<-|[<-|[<-|[]]]]]; auto. }
  split.
  { unfold flux_ordem_like. rewrite Hn. exact Hv. }
  pose proof (Hmin g1 ltac:(simpl; auto)) as M1.
  pose proof (Hmin g2 ltac:(simpl; auto)) as M2.
  rewrite (Hzero g Hg) in M1, M2.
  rewrite (Hzero g1 ltac:(simpl; auto)) in M1.
  rewrite (Hzero g2 ltac:(simpl; auto)) in M2.
  rewrite (Qabs_eq (inc_deg g1 - inc) (i1 - inc)) in M1 by lra.
  rewrite (Qabs_eq (inc_deg g2 - inc) (i2 - inc)) in M2 by lra.
  split; lra.
Qed.

End OnAltitudeLine.



(** X13.  A query on a point of the table gets a flux tabulated at that point:
    for a table with separated grid lines and a row of the size bin at the
    query's altitude and inclination, the result is the flux of a row with
    these coordinates. *)
Theorem flux_on_grid_point (rows : list row)
    (alt inc size_min_cm size_max_cm : Q) :
  separated alt_km (size_bin size_min_cm size_max_cm rows) ->
  separated inc_deg (size_bin size_min_cm size_max_cm rows) ->
  (exists r, In r (size_bin size_min_cm size_max_cm rows)
             /\ alt_km r == alt /\ inc_deg r == inc) ->
  exists g : row,
    In g (size_bin size_min_cm size_max_cm rows)
    /\ alt_km g == alt /\ inc_deg g == inc
    /\ flux_ordem_like rows alt inc size_min_cm size_max_cm = Ok (flux g).
Proof.
  intros Hsa Hsi C.
  destruct (flux_on_altitude_line_aux rows alt inc size_min_cm size_max_cm
              inc inc Hsa Hsi C C)
    as (g & Hg & Ha & Hi & Hv & _).
  - right. split; reflexivity.
  - intros r _. destruct (Qlt_le_dec inc (inc_deg r)); [right|left]; lra.
  - exists g. repeat split; try assumption. destruct Hi; assumption.
Qed.

Lemma flux_on_grid_point_witness :
  exists g : row,
    In g (size_bin 1 10 samples.flux_table)
    /\ alt_km g == 800 /\ inc_deg g == 90
    /\ flux_ordem_like samples.flux_table 800 90 1 10 = Ok (flux g).
Proof.
  apply (flux_on_grid_point samples.flux_table 800 90 1 10).
  - apply risk_facts.separated_flux_table. now left.
  - apply risk_facts.separated_flux_table. now right.
  - exists (mkRow 800 90 1 10 (5 # 100000)).
    split; [vm_compute; auto|split; reflexivity].
Defined.

End risk_more_facts.

(** ** More on the proximity filter *)

Module proximity_more_facts.

Import proximity proximity_spec debris_handler.
Local Open Scope R_scope.

(** *** Rounding *)










(** *** The attached values *)







(** *** Candidates at one altitude *)




(** *** Exchanging the two positions *)






(** *** A radius of search that is not positive *)





End proximity_more_facts.

(** ** The simulated catalogue *)

Lemma NoDup_map_seq (f : nat -> Z) (n : nat) :
  (forall i j : nat, (i < j < n)%nat -> f i <> f j) ->
  NoDup (List.map f (seq 0 n)).
Proof.
  induction n as [|n IH]; intros Hf; [constructor|].
  rewrite seq_S, map_app. apply NoDup_app.
  - apply IH. intros i j Hij. apply Hf. lia.
  - repeat constructor. intros [].
  - intros a Ha [Hn|[]]. apply in_map_iff in Ha.
    destruct Ha as (i & <- & Hi). apply in_seq in Hi.
    apply (Hf i n); [lia|now symmetry].
Qed.


Module nasa_debris_facts.

Import nasa_debris.
Local Open Scope R_scope.

Lemma known_cases (c : nat) :
  (c < List.length known_debris)%nat ->
  let e := nth c known_debris fengyun in
  e = fengyun \/ e = cosmos \/ e = sl16 \/ e = iss_panel \/ e = breeze.
Proof.
  intros H e. subst e. simpl in H.
  do 5 (destruct c as [|c]; [simpl; tauto|]). lia.
Qed.

Lemma known_ids (c : nat) :
  (c < List.length known_debris)%nat ->
  In (norad_id (nth c known_debris fengyun))
     [36837; 34454; 29275; 40425; 41337]%Z.
Proof.
  intros H.
  destruct (known_cases c H) as [E|[E|[E|[E|E]]]]; rewrite E; simpl; tauto.
Qed.

Lemma fetch_length (rng : nat -> draws) (limit : Z) :
  List.length (fetch_nasa_debris rng limit) = Z.to_nat (Z.min limit 500).
Proof. unfold fetch_nasa_debris. now rewrite length_map, length_seq. Qed.

Lemma fetch_In (rng : nat -> draws) (limit : Z) (it : item) :
  In it (fetch_nasa_debris rng limit) ->
  exists i : nat, (i < 500)%nat /\ it = debris_item i (rng i).
Proof.
  unfold fetch_nasa_debris. intros H. apply in_map_iff in H.
  destruct H as (i & <- & Hi). apply in_seq in Hi. exists i. split; [lia|reflexivity].
Qed.

(** X23.  The catalogue has [min(limit, 500)] objects, none for a [limit] that is
    not positive, and no two of them share a catalogue number: an object's
    number is its template's number plus its index, the index stays below
    500, and the templates' numbers are more than 500 apart. *)
Theorem fetch_count_and_distinct_ids (rng : nat -> draws) (limit : Z) :
  (forall i : nat, (choice (rng i) < List.length known_debris)%nat) ->
  Z.of_nat (List.length (fetch_nasa_debris rng limit))
  = Z.max 0 (Z.min limit 500)
  /\ NoDup (List.map (fun it => norad_id (fields it))
              (fetch_nasa_debris rng limit)).
Proof.
  intros Hc. split; [rewrite fetch_length; lia|].
  unfold fetch_nasa_debris. rewrite map_map.
  apply NoDup_map_seq. intros i j Hij.
  unfold debris_item. cbv zeta. cbn [fields norad_id].
  pose proof (known_ids _ (Hc i)) as Hi.
  pose proof (known_ids _ (Hc j)) as Hj.
  set (bi := norad_id (nth (choice (rng i)) known_debris fengyun)) in *.
  set (bj := norad_id (nth (choice (rng j)) known_debris fengyun)) in *.
  cbn [In] in Hi, Hj. clearbody bi bj.
  assert (Hj500 : (j < 500)%nat) by lia.
  lia.
Qed.

Lemma fetch_count_and_distinct_ids_witness :
  Z.of_nat (List.length (fetch_nasa_debris (fun _ => lowest_draws) 30))
  = Z.max 0 (Z.min 30 500)
  /\ NoDup (List.map (fun it => norad_id (fields it))
              (fetch_nasa_debris (fun _ => lowest_draws) 30)).
Proof.
  apply (fetch_count_and_distinct_ids (fun _ => lowest_draws) 30).
  intros _. simpl. lia.
Defined.

Lemma item_ranges (i : nat) (dr : draws) :
  in_range dr ->
  let it := debris_item i dr in
  345 <= altitude it <= 4521 / 2
  /\ 462 / 10 <= inclination (fields it) <= 1007 / 10
  /\ - inclination (fields it) <= latitude it <= inclination (fields it)
  /\ -180 <= longitude it <= 180.
Proof.
  intros (Hc & Hm & Hi & He & Ha & Hp & Hlat & Hlon) it. subst it.
  unfold debris_item. cbv zeta. cbn [fields altitude inclination latitude longitude].
  unfold uniform.
  set (e := nth (choice dr) known_debris fengyun).
  assert (Hsum : (840 <= apogee e + perigee e <= 4371)%Z
                 /\ 482 / 10 <= inclination e <= 987 / 10).
  { destruct (known_cases _ Hc) as [E|[E|[E|[E|E]]]]; fold e in E; rewrite E;
      simpl; split; try lia; lra. }
  destruct Hsum as [[Hlo Hhi] Hinc].
  assert (Hlo' : IZR 690 <= IZR (apogee e + k_apogee dr + (perigee e + k_perigee dr)))
    by (apply IZR_le; lia).
  assert (Hhi' : IZR (apogee e + k_apogee dr + (perigee e + k_perigee dr)) <= IZR 4521)
    by (apply IZR_le; lia).
  repeat split; try lra; nra.
Qed.

(** X24.  Every generated object lies between 345 km and 2260.5 km of altitude,
    so that its orbital radius is positive; its inclination lies between
    46.2 and 100.7 degrees, its latitude between minus and plus its
    inclination, and its longitude between -180 and 180 degrees. *)
Theorem fetch_positions_in_range (rng : nat -> draws) (limit : Z) :
  (forall i : nat, in_range (rng i)) ->
  Forall (fun it =>
            345 <= altitude it <= 4521 / 2
            /\ 462 / 10 <= inclination (fields it) <= 1007 / 10
            /\ - inclination (fields it) <= latitude it <= inclination (fields it)
            /\ -180 <= longitude it <= 180)
         (fetch_nasa_debris rng limit).
Proof.
  intros Hr. apply Forall_forall. intros it Hit.
  apply fetch_In in Hit. destruct Hit as (i & _ & ->).
  apply item_ranges, Hr.
Qed.

Lemma lowest_draws_in_range : in_range lowest_draws.
Proof. unfold in_range, lowest_draws. simpl. repeat split; try lia; lra. Qed.

Lemma fetch_positions_in_range_witness :
  Forall (fun it =>
            345 <= altitude it <= 4521 / 2
            /\ 462 / 10 <= inclination (fields it) <= 1007 / 10
            /\ - inclination (fields it) <= latitude it <= inclination (fields it)
            /\ -180 <= longitude it <= 180)
         (fetch_nasa_debris (fun _ => lowest_draws) 30).
Proof.
  apply (fetch_positions_in_range (fun _ => lowest_draws) 30).
  intros _. unfold in_range, lowest_draws. simpl. repeat split; try lia; lra.
Defined.

End nasa_debris_facts.

(** ** The handler of [/api/debris/nasa] *)

Module debris_handler_facts.

Import proximity proximity_spec debris_handler.
Local Open Scope R_scope.







End debris_handler_facts.

(** ** A cell of the flux table with a corner missing *)

Module risk_sparse_facts.

Import risk.
Local Open Scope Q_scope.

Lemma near_far (x y : Q) :
  (1 # 1000000) <= Qabs (x - y) -> near x y = false.
Proof.
  intros H. destruct (near x y) eqn:E; [|reflexivity].
  apply near_iff in E. lra.
Qed.

Lemma Qabs_gap (x y : Q) : x + (1 # 1000000) <= y -> (1 # 1000000) <= Qabs (x - y).
Proof.
  intros H. rewrite Qabs_Qminus. rewrite Qabs_pos; lra.
Qed.

Lemma Qabs_gap' (x y : Q) : x + (1 # 1000000) <= y -> (1 # 1000000) <= Qabs (y - x).
Proof. intros H. rewrite Qabs_pos; lra. Qed.

(** The three rows that the neighbour lookup emits when the corner
    [(a2, i2)] has no row: [_bilinear] finds two altitudes and two
    inclinations, looks up the missing corner, gets [None] and multiplies
    it. *)
Lemma bilinear_three_corners (alt inc a1 a2 i1 i2 : Q) (g11 g12 g21 : row) :
  alt_km g11 == a1 /\ inc_deg g11 == i1 ->
  alt_km g12 == a1 /\ inc_deg g12 == i2 ->
  alt_km g21 == a2 /\ inc_deg g21 == i1 ->
  a1 + (1 # 1000000) <= a2 ->
  i1 + (1 # 1000000) <= i2 ->
  _bilinear alt inc [g11; g12; g21] = Raise TypeError.
Proof.
  intros [A11 I11] [A12 I12] [A21 I21] Ha Hi.
  unfold _bilinear.
  assert (Ea : sorted_set (List.map alt_km [g11; g12; g21])
               = [alt_km g12; alt_km g21]).
  { unfold sorted_set. cbn [List.map fold_right insert_uniq].
    rewrite (Qeq_bool_lt (alt_km g12) (alt_km g21)) by lra.
    rewrite (Qle_bool_true (alt_km g12) (alt_km g21)) by lra.
    cbn [insert_uniq].
    now rewrite (Qeq_bool_true (alt_km g11) (alt_km g12)) by lra. }
  assert (Ei : sorted_set (List.map inc_deg [g11; g12; g21])
               = [inc_deg g21; inc_deg g12]).
  { unfold sorted_set. cbn [List.map fold_right insert_uniq].
    rewrite (Qeq_bool_gt (inc_deg g12) (inc_deg g21)) by lra.
    rewrite (Qle_bool_false (inc_deg g12) (inc_deg g21)) by lra.
    cbn [insert_uniq].
    now rewrite (Qeq_bool_true (inc_deg g11) (inc_deg g21)) by lra. }
  rewrite Ea, Ei.
  cbn [List.length Nat.ltb Nat.leb orb getitem nth_error bind].
  assert (Enone : flux_at [g11; g12; g21] (alt_km g21) (inc_deg g12) = None).
  { unfold flux_at, find_near. cbn [List.find].
    rewrite (near_far (alt_km g11) (alt_km g21)) by (apply Qabs_gap; lra).
    rewrite (near_far (alt_km g12) (alt_km g21)) by (apply Qabs_gap; lra).
    rewrite (near_far (inc_deg g21) (inc_deg g12)) by (apply Qabs_gap; lra).
    cbn [andb]. now rewrite andb_false_r. }
  rewrite Enone.
  destruct (flux_at [g11; g12; g21] (alt_km g12) (inc_deg g21)),
    (flux_at [g11; g12; g21] (alt_km g21) (inc_deg g21)),
    (flux_at [g11; g12; g21] (alt_km g12) (inc_deg g12)); reflexivity.
Qed.

Section MissingCorner.

(** A table whose grid lines in the requested size bin are separated, a
    cell [a1 < a2], [i1 < i2] of that grid with no grid line through its
    interior, rows on three of its corners and none on [(a2, i2)], and a
    query strictly inside the cell. *)
Variables (rows : list row) (alt inc size_min_cm size_max_cm a1 a2 i1 i2 : Q).
Let cands := size_bin size_min_cm size_max_cm rows.
Hypothesis Hsa : separated alt_km cands.
Hypothesis Hsi : separated inc_deg cands.
Hypothesis C11 : exists r, In r cands /\ alt_km r == a1 /\ inc_deg r == i1.
Hypothesis C12 : exists r, In r cands /\ alt_km r == a1 /\ inc_deg r == i2.
Hypothesis C21 : exists r, In r cands /\ alt_km r == a2 /\ inc_deg r == i1.
Hypothesis C22 : forall r, In r cands -> ~ (alt_km r == a2 /\ inc_deg r == i2).
Hypothesis Halt : a1 < alt /\ alt < a2.
Hypothesis Hinc : i1 < inc /\ inc < i2.
Hypothesis Hadj_a : forall r, In r cands -> alt_km r <= a1 \/ a2 <= alt_km r.
Hypothesis Hadj_i : forall r, In r cands -> inc_deg r <= i1 \/ i2 <= inc_deg r.

Lemma on_grid_line (coord : row -> Q) (r : row) :
  In r cands -> exists y, In y (sorted_set (List.map coord cands)) /\ y == coord r.
Proof. intros Hr. apply risk_facts.sorted_set_cover. now apply in_map. Qed.

Lemma grid_line_row (coord : row -> Q) (x : Q) :
  In x (sorted_set (List.map coord cands)) -> exists r, In r cands /\ coord r = x.
Proof.
  intros Hx. apply risk_facts.sorted_set_In in Hx. apply in_map_iff in Hx.
  destruct Hx as (r & E & Hr). exists r. split; [exact Hr|exact E].
Qed.

Lemma find_near_missing (A I : Q) :
  A == a2 -> I == i2 -> find_near cands A I = None.
Proof.
  intros HA HI. unfold find_near.
  destruct (List.find _ cands) as [g|] eqn:E; [exfalso|reflexivity].
  apply find_some in E. destruct E as [Hg Hb].
  apply andb_true_iff in Hb. destruct Hb as [Na Ni].
  apply near_iff in Na. apply near_iff in Ni.
  destruct C21 as (r21 & R21 & A21 & _), C12 as (r12 & R12 & _ & I12).
  apply (C22 g Hg). split.
  - destruct (Hsa g r21 Hg R21) as [Eq|Far]; [lra|].
    assert (W : alt_km g - alt_km r21 == alt_km g - A) by lra.
    rewrite W in Far. lra.
  - destruct (Hsi g r12 Hg R12) as [Eq|Far]; [lra|].
    assert (W : inc_deg g - inc_deg r12 == inc_deg g - I) by lra.
    rewrite W in Far. lra.
Qed.

Lemma cell_gaps : a1 + (1 # 1000000) <= a2 /\ i1 + (1 # 1000000) <= i2.
Proof.
  destruct C11 as (r11 & R11 & A11 & I11), C12 as (r12 & R12 & A12 & I12),
    C21 as (r21 & R21 & A21 & I21), Halt as [Ha1 Ha2], Hinc as [Hi1 Hi2].
  split.
  - destruct (Hsa r21 r11 R21 R11) as [Eq|Far]; [lra|].
    rewrite Qabs_pos in Far; lra.
  - destruct (Hsi r12 r11 R12 R11) as [Eq|Far]; [lra|].
    rewrite Qabs_pos in Far; lra.
Qed.

(** On such a table the lookup returns the three rows that exist. *)
Lemma neighbors_three_corners :
  exists g11 g12 g21 : row,
    _neighbors alt inc size_min_cm size_max_cm rows = Ok [g11; g12; g21]
    /\ (alt_km g11 == a1 /\ inc_deg g11 == i1)
    /\ (alt_km g12 == a1 /\ inc_deg g12 == i2)
    /\ (alt_km g21 == a2 /\ inc_deg g21 == i1).
Proof.
  pose proof C11 as (r11 & R11 & A11 & I11).
  pose proof C12 as (r12 & R12 & A12 & I12).
  pose proof C21 as (r21 & R21 & A21 & I21).
  destruct Halt as [Ha1 Ha2], Hinc as [Hi1 Hi2].
  unfold _neighbors. fold (size_bin size_min_cm size_max_cm rows). fold cands.
  set (alts := sorted_set (List.map alt_km cands)).
  set (incs := sorted_set (List.map inc_deg cands)).
  destruct (on_grid_line alt_km r11 R11)
    as (ya1 & Hya1 & Eya1).
  destruct (on_grid_line alt_km r21 R21)
    as (ya2 & Hya2 & Eya2).
  destruct (on_grid_line inc_deg r11 R11)
    as (yi1 & Hyi1 & Eyi1).
  destruct (on_grid_line inc_deg r12 R12)
    as (yi2 & Hyi2 & Eyi2).
  fold alts in Hya1, Hya2. fold incs in Hyi1, Hyi2.
  assert (Halts : alts <> []) by (intros E; rewrite E in Hya1; destruct Hya1).
  assert (Hincs : incs <> []) by (intros E; rewrite E in Hyi1; destruct Hyi1).
  destruct (risk_facts.getitem_first_nonempty alts Halts) as [da1 Eda1].
  destruct (risk_facts.getitem_last_nonempty alts Halts) as [da2 Eda2].
  destruct (risk_facts.getitem_first_nonempty incs Hincs) as [di1 Edi1].
  destruct (risk_facts.getitem_last_nonempty incs Hincs) as [di2 Edi2].
  rewrite Eda1, Eda2, Edi1, Edi2. cbn [bind].
  set (a1' := max_default (List.filter (fun a => Qle_bool a alt) alts) da1).
  set (a2' := min_default (List.filter (fun a => Qle_bool alt a) alts) da2).
  set (i1' := max_default (List.filter (fun i => Qle_bool i inc) incs) di1).
  set (i2' := min_default (List.filter (fun i => Qle_bool inc i) incs) di2).
  assert (Ea1 : a1' == a1).
  { destruct (risk_facts.max_default_spec alts alt da1 a1) as (Hin & Hle & Hge);
      [exists ya1; split; [exact Hya1|lra]|lra|].
    fold a1' in Hin, Hle, Hge.
    destruct (grid_line_row alt_km a1' Hin)
      as (r & Hr & Er).
    destruct (Hadj_a r Hr) as [H|H]; rewrite Er in H; lra. }
  assert (Ea2 : a2' == a2).
  { destruct (risk_facts.min_default_spec alts alt da2 a2) as (Hin & Hle & Hge);
      [exists ya2; split; [exact Hya2|lra]|lra|].
    fold a2' in Hin, Hle, Hge.
    destruct (grid_line_row alt_km a2' Hin)
      as (r & Hr & Er).
    destruct (Hadj_a r Hr) as [H|H]; rewrite Er in H; lra. }
  assert (Ei1 : i1' == i1).
  { destruct (risk_facts.max_default_spec incs inc di1 i1) as (Hin & Hle & Hge);
      [exists yi1; split; [exact Hyi1|lra]|lra|].
    fold i1' in Hin, Hle, Hge.
    destruct (grid_line_row inc_deg i1' Hin)
      as (r & Hr & Er).
    destruct (Hadj_i r Hr) as [H|H]; rewrite Er in H; lra. }
  assert (Ei2 : i2' == i2).
  { destruct (risk_facts.min_default_spec incs inc di2 i2) as (Hin & Hle & Hge);
      [exists yi2; split; [exact Hyi2|lra]|lra|].
    fold i2' in Hin, Hle, Hge.
    destruct (grid_line_row inc_deg i2' Hin)
      as (r & Hr & Er).
    destruct (Hadj_i r Hr) as [H|H]; rewrite Er in H; lra. }
  destruct (risk_facts.find_near_separated cands a1' i1' r11 Hsa Hsi R11)
    as (g11 & F11 & _ & GA11 & GI11); [lra|lra|].
  destruct (risk_facts.find_near_separated cands a1' i2' r12 Hsa Hsi R12)
    as (g12 & F12 & _ & GA12 & GI12); [lra|lra|].
  destruct (risk_facts.find_near_separated cands a2' i1' r21 Hsa Hsi R21)
    as (g21 & F21 & _ & GA21 & GI21); [lra|lra|].
  exists g11, g12, g21.
  cbn [List.flat_map fst snd].
  rewrite F11, F12, F21, (find_near_missing a2' i2' Ea2 Ei2). cbn [app].
  repeat split; try reflexivity; lra.
Qed.

Lemma flux_missing_corner_aux :
  flux_ordem_like rows alt inc size_min_cm size_max_cm = Raise TypeError.
Proof.
  destruct neighbors_three_corners as (g11 & g12 & g21 & Hn & H11 & H12 & H21).
  destruct cell_gaps as [Ga Gi].
  unfold flux_ordem_like. rewrite Hn. cbn [bind].
  exact (bilinear_three_corners alt inc a1 a2 i1 i2 g11 g12 g21
           H11 H12 H21 Ga Gi).
Qed.

End MissingCorner.

(** X14.  A hole in the table makes the flux function raise.  For a table whose
    grid lines in the requested size bin are separated, and a query strictly
    inside a cell of that grid that has rows on three of its corners and
    none on the corner of the higher altitude and higher inclination, the
    lookup returns the three rows, the interpolation looks up the fourth
    corner, gets [None], and the call ends in TypeError. *)
Theorem flux_missing_corner_raises (rows : list row)
    (alt inc size_min_cm size_max_cm a1 a2 i1 i2 : Q) :
  separated alt_km (size_bin size_min_cm size_max_cm rows) ->
  separated inc_deg (size_bin size_min_cm size_max_cm rows) ->
  (exists r, In r (size_bin size_min_cm size_max_cm rows)
             /\ alt_km r == a1 /\ inc_deg r == i1) ->
  (exists r, In r (size_bin size_min_cm size_max_cm rows)
             /\ alt_km r == a1 /\ inc_deg r == i2) ->
  (exists r, In r (size_bin size_min_cm size_max_cm rows)
             /\ alt_km r == a2 /\ inc_deg r == i1) ->
  (forall r, In r (size_bin size_min_cm size_max_cm rows) ->
             ~ (alt_km r == a2 /\ inc_deg r == i2)) ->
  a1 < alt /\ alt < a2 ->
  i1 < inc /\ inc < i2 ->
  (forall r, In r (size_bin size_min_cm size_max_cm rows) ->
             alt_km r <= a1 \/ a2 <= alt_km r) ->
  (forall r, In r (size_bin size_min_cm size_max_cm rows) ->
             inc_deg r <= i1 \/ i2 <= inc_deg r) ->
  flux_ordem_like rows alt inc size_min_cm size_max_cm = Raise TypeError.
Proof.
  intros. now apply (flux_missing_corner_aux rows alt inc size_min_cm
                       size_max_cm a1 a2 i1 i2).
Qed.

Lemma l_shaped_rows (x : row) :
  In x (size_bin 1 10 risk_handler.l_shaped_table) ->
  x = mkRow 400 0 1 10 (1 # 100000) \/ x = mkRow 400 90 1 10 (2 # 100000)
  \/ x = mkRow 800 0 1 10 (3 # 100000).
Proof. intros Hx. vm_compute in Hx. intuition. Qed.

Lemma flux_missing_corner_raises_witness :
  flux_ordem_like risk_handler.l_shaped_table 500 45 1 10 = Raise TypeError.
Proof.
  apply (flux_missing_corner_raises risk_handler.l_shaped_table
           500 45 1 10 400 800 0 90).
  - intros r r' Hr Hr'.
    destruct (l_shaped_rows r Hr) as [->|[->| ->]],
      (l_shaped_rows r' Hr') as [->|[->| ->]];
      first [left; reflexivity | right; vm_compute; discriminate].
  - intros r r' Hr Hr'.
    destruct (l_shaped_rows r Hr) as [->|[->| ->]],
      (l_shaped_rows r' Hr') as [->|[->| ->]];
      first [left; reflexivity | right; vm_compute; discriminate].
  - exists (mkRow 400 0 1 10 (1 # 100000)).
    split; [vm_compute; auto|split; reflexivity].
  - exists (mkRow 400 90 1 10 (2 # 100000)).
    split; [vm_compute; auto|split; reflexivity].
  - exists (mkRow 800 0 1 10 (3 # 100000)).
    split; [vm_compute; auto|split; reflexivity].
  - intros r Hr [Ha Hi].
    destruct (l_shaped_rows r Hr) as [->|[->| ->]]; simpl in Ha, Hi;
      first [now apply Qeq_bool_neq in Ha | now apply Qeq_bool_neq in Hi].
  - split; reflexivity.
  - split; reflexivity.
  - intros r Hr.
    destruct (l_shaped_rows r Hr) as [->|[->| ->]]; simpl;
      first [left; discriminate | right; discriminate].
  - intros r Hr.
    destruct (l_shaped_rows r Hr) as [->|[->| ->]]; simpl;
      first [left; discriminate | right; discriminate].
Defined.

End risk_sparse_facts.

(** ** The risk level of [/api/risk/ordem] *)

Module risk_handler_facts.

Import binary64 binary64_facts risk risk_handler probability_facts.
Local Open Scope R_scope.

Lemma literal_unit (x : R) :
  0 <= x <= 1 -> literal x = Finite (fl x) /\ 0 <= fl x <= 1.
Proof. apply round_unit. Qed.

Lemma thresholds_ordered :
  0 <= fl (1 / 1000) /\ fl (1 / 1000) <= fl (1 / 100)
  /\ fl (1 / 100) <= fl (1 / 10).
Proof.
  split; [apply fl_nonneg; lra|]. split; apply fl_mono; lra.
Qed.

Lemma risk_level_finite (v : R) :
  risk_level (Finite v)
  = if Rlt_dec (fl (1 / 10)) v then Critic
    else if Rlt_dec (fl (1 / 100)) v then Inalt
    else if Rlt_dec (fl (1 / 1000)) v then Moderat
    else Redus.
Proof.
  unfold risk_level.
  destruct (literal_unit (1 / 10) ltac:(lra)) as [-> _].
  destruct (literal_unit (1 / 100) ltac:(lra)) as [-> _].
  destruct (literal_unit (1 / 1000) ltac:(lra)) as [-> _].
  simpl.
  destruct (Rlt_dec (fl (1 / 10)) v); [reflexivity|].
  destruct (Rlt_dec (fl (1 / 100)) v); [reflexivity|].
  destruct (Rlt_dec (fl (1 / 1000)) v); reflexivity.
Qed.

Lemma risk_level_nan : risk_level NaN = Redus.
Proof. reflexivity. Qed.

Lemma risk_level_zero : risk_level (Finite 0) = Redus.
Proof.
  rewrite risk_level_finite.
  destruct thresholds_ordered as (T0 & T1 & T2).
  destruct (Rlt_dec (fl (1 / 10)) 0); [lra|].
  destruct (Rlt_dec (fl (1 / 100)) 0); [lra|].
  destruct (Rlt_dec (fl (1 / 1000)) 0); [lra|reflexivity].
Qed.

Lemma risk_level_mono (v v' : R) :
  v <= v' ->
  (rank (risk_level (Finite v)) <= rank (risk_level (Finite v')))%nat.
Proof.
  intros H. rewrite !risk_level_finite.
  destruct thresholds_ordered as (T0 & T1 & T2).
  destruct (Rlt_dec (fl (1 / 10)) v), (Rlt_dec (fl (1 / 10)) v'),
    (Rlt_dec (fl (1 / 100)) v), (Rlt_dec (fl (1 / 100)) v'),
    (Rlt_dec (fl (1 / 1000)) v), (Rlt_dec (fl (1 / 1000)) v');
    simpl; try lia; exfalso; lra.
Qed.

(** The length of the window in years. *)
Lemma years_of_days (duration_days : R) :
  0 <= duration_days < overflow_threshold ->
  div (Finite duration_days) (Finite 365)
  = Ok (Finite (fl (duration_days / 365)))
  /\ 0 <= fl (duration_days / 365).
Proof.
  intros [H0 H1]. unfold div.
  destruct (Req_dec_T 365 0) as [E|_]; [lra|].
  assert (Hq : 0 <= duration_days / 365) by lra.
  destruct (round_nonneg (duration_days / 365) Hq) as [[-> [B _]]|[_ B]].
  - split; [reflexivity|exact B].
  - exfalso.
    assert (L : duration_days / 365 <= powerRZ 2 1023).
    { unfold overflow_threshold in H1.
      replace 1024%Z with (1023 + 1)%Z in H1 by lia.
      rewrite pow2_add in H1. change (powerRZ 2 1) with (2 * 1) in H1.
      pose proof (pow2_pos 1023). lra. }
    apply fl_mono in L. rewrite fl_pow2 in L by lia.
    pose proof (pow2_lt 1023 1024 ltac:(lia)).
    unfold overflow_threshold in B. lra.
Qed.

(** What the handler returns for non-negative arguments, from the length
    [y] of the window in years: a probability that is NaN or a number, and
    in the first case, or when [y] is 0, the level "Redus". *)
Lemma probability_of_years (flux area_m2 y : R) :
  0 <= flux -> 0 <= area_m2 -> 0 <= y ->
  exists prob : float,
    annual_collision_probability (Finite area_m2) (Finite y) (Finite flux)
    = Ok prob
    /\ (0 < y -> exists v : R, prob = Finite v)
    /\ (y = 0 -> risk_level prob = Redus)
    /\ (flux = 0 -> risk_level prob = Redus).
Proof.
  intros HF HA Hy.
  rewrite annual_collision_probability_outcome.
  pose proof (impacts_nn area_m2 y flux HA Hy HF) as Hlam.
  destruct (outcome_nn_or_nan _ Hlam) as (p & Hp & Hnan & Hrange).
  exists p. split; [exact Hp|].
  assert (Hzero : area_m2 * y * flux = 0 -> risk_level p = Redus).
  { intros Z. destruct (impacts_zero area_m2 y flux Z) as [E|E].
    - rewrite E, outcome_zero in Hp. injection Hp as <-.
      apply risk_level_zero.
    - apply Hnan in E. subst p. apply risk_level_nan. }
  split; [|split].
  - intros Hpos. destruct Hrange as [E|(v & E & _)]; [|now exists v].
    exfalso. apply Hnan in E.
    apply (impacts_nan area_m2 y flux HA Hy HF) in E. lra.
  - intros ->. apply Hzero. ring.
  - intros ->. apply Hzero. ring.
Qed.

Lemma level_of_ordered (p p' : float) (v v' : R) :
  p = Finite v -> p' = Finite v' -> le_unless_nan p p' ->
  (rank (risk_level p) <= rank (risk_level p'))%nat.
Proof. intros -> -> H. now apply risk_level_mono. Qed.

(** Two calls of which the second has the larger expected number of
    impacts. *)
Lemma level_mono_aux (F A y F' A' y' : R) :
  0 <= F -> 0 <= A -> 0 <= y -> 0 <= F' -> 0 <= A' -> 0 <= y' ->
  y <= y' ->
  le_unless_nan (mul (mul (Finite F) (Finite A)) (Finite y))
    (mul (mul (Finite F') (Finite A')) (Finite y')) ->
  exists prob prob' : float,
    annual_collision_probability (Finite A) (Finite y) (Finite F) = Ok prob
    /\ annual_collision_probability (Finite A') (Finite y') (Finite F')
       = Ok prob'
    /\ (rank (risk_level prob) <= rank (risk_level prob'))%nat.
Proof.
  intros HF HA Hy HF' HA' Hy' Hyy Hle.
  destruct (probability_of_years F A y HF HA Hy)
    as (p & Hp & Hfin & Hzero & _).
  destruct (probability_of_years F' A' y' HF' HA' Hy')
    as (p' & Hp' & Hfin' & _ & _).
  exists p, p'. split; [exact Hp|]. split; [exact Hp'|].
  destruct (Req_dec y 0) as [E|N].
  - rewrite (Hzero E). simpl. lia.
  - destruct (Hfin ltac:(lra)) as [v Ev].
    destruct (Hfin' ltac:(lra)) as [v' Ev'].
    apply (level_of_ordered p p' v v' Ev Ev').
    rewrite annual_collision_probability_outcome in Hp, Hp'.
    destruct (outcome_mono _ _ (impacts_nn A y F HA Hy HF)
                (impacts_nn A' y' F' HA' Hy' HF') Hle p Hp)
      as (q & Hq & Hpq).
    rewrite Hq in Hp'. now injection Hp' as <-.
Qed.

(** X18.  For a flux that is not negative and a positive area and duration,
    as the handler's parameters are declared, the handler computes a
    probability and a level.  The level is "Redus" when the flux is 0, and
    it does not go down when the flux, the area or the duration grows and
    the other two stay fixed. *)
Theorem risk_level_monotone (flux area_m2 duration_days : R) :
  0 <= flux -> 0 < area_m2 -> 0 < duration_days < overflow_threshold ->
  exists prob : float,
    api_risk_ordem (Finite flux) (Finite area_m2) (Finite duration_days)
    = Ok (prob, risk_level prob)
    /\ (flux = 0 -> risk_level prob = Redus)
    /\ (forall flux', flux <= flux' ->
        exists prob',
          api_risk_ordem (Finite flux') (Finite area_m2) (Finite duration_days)
          = Ok (prob', risk_level prob')
          /\ (rank (risk_level prob) <= rank (risk_level prob'))%nat)
    /\ (forall area', area_m2 <= area' ->
        exists prob',
          api_risk_ordem (Finite flux) (Finite area') (Finite duration_days)
          = Ok (prob', risk_level prob')
          /\ (rank (risk_level prob) <= rank (risk_level prob'))%nat)
    /\ (forall days', duration_days <= days' < overflow_threshold ->
        exists prob',
          api_risk_ordem (Finite flux) (Finite area_m2) (Finite days')
          = Ok (prob', risk_level prob')
          /\ (rank (risk_level prob) <= rank (risk_level prob'))%nat).
Proof.
  intros HF HA [HD0 HD1].
  destruct (years_of_days duration_days ltac:(lra)) as [Ey Hy].
  set (y := fl (duration_days / 365)) in *.
  destruct (probability_of_years flux area_m2 y HF ltac:(lra) Hy)
    as (p & Hp & _ & _ & Hzero).
  assert (Hrun : forall F A D : R,
            0 <= D < overflow_threshold ->
            forall q : float,
            annual_collision_probability (Finite A)
              (Finite (fl (D / 365))) (Finite F) = Ok q ->
            api_risk_ordem (Finite F) (Finite A) (Finite D)
            = Ok (q, risk_level q)).
  { intros F A D HD q Hq. unfold api_risk_ordem.
    destruct (years_of_days D HD) as [-> _]. cbn [bind].
    rewrite Hq. reflexivity. }
  exists p. split; [apply Hrun; [lra|exact Hp]|].
  split; [exact Hzero|].
  assert (HFA : nonneg (mul (Finite flux) (Finite area_m2))).
  { rewrite mul_finite. apply round_nn. apply Rmult_le_pos; lra. }
  split; [|split].
  - intros flux' Hle.
    destruct (level_mono_aux flux area_m2 y flux' area_m2 y)
      as (q & q' & Hq & Hq' & Hr); try lra.
    + apply mul_mono_l; [exact HFA| | |exact Hy].
      * rewrite mul_finite. apply round_nn. apply Rmult_le_pos; lra.
      * rewrite !mul_finite. apply round_mono.
        apply Rmult_le_compat_r; lra.
    + rewrite Hp in Hq. injection Hq as <-.
      exists q'. split; [apply Hrun; [lra|exact Hq']|exact Hr].
  - intros area' Hle.
    destruct (level_mono_aux flux area_m2 y flux area' y)
      as (q & q' & Hq & Hq' & Hr); try lra.
    + apply mul_mono_l; [exact HFA| | |exact Hy].
      * rewrite mul_finite. apply round_nn. apply Rmult_le_pos; lra.
      * rewrite !mul_finite. apply round_mono.
        apply Rmult_le_compat_l; lra.
    + rewrite Hp in Hq. injection Hq as <-.
      exists q'. split; [apply Hrun; [lra|exact Hq']|exact Hr].
  - intros days' [Hle Hlt].
    destruct (years_of_days days' ltac:(lra)) as [_ Hy'].
    assert (Hyy : y <= fl (days' / 365)) by (apply fl_mono; lra).
    destruct (level_mono_aux flux area_m2 y flux area_m2 (fl (days' / 365)))
      as (q & q' & Hq & Hq' & Hr); try lra.
    + now apply mul_mono_r.
    + rewrite Hp in Hq. injection Hq as <-.
      exists q'. split; [apply Hrun; [lra|exact Hq']|exact Hr].
Qed.

Lemma risk_level_monotone_witness :
  exists prob : float,
    api_risk_ordem (Finite (1 / 131072)) (Finite 10) (Finite 365)
    = Ok (prob, risk_level prob)
    /\ (1 / 131072 = 0 -> risk_level prob = Redus)
    /\ (forall flux', 1 / 131072 <= flux' ->
        exists prob',
          api_risk_ordem (Finite flux') (Finite 10) (Finite 365)
          = Ok (prob', risk_level prob')
          /\ (rank (risk_level prob) <= rank (risk_level prob'))%nat)
    /\ (forall area', 10 <= area' ->
        exists prob',
          api_risk_ordem (Finite (1 / 131072)) (Finite area') (Finite 365)
          = Ok (prob', risk_level prob')
          /\ (rank (risk_level prob) <= rank (risk_level prob'))%nat)
    /\ (forall days', 365 <= days' < overflow_threshold ->
        exists prob',
          api_risk_ordem (Finite (1 / 131072)) (Finite 10) (Finite days')
          = Ok (prob', risk_level prob')
          /\ (rank (risk_level prob) <= rank (risk_level prob'))%nat).
Proof.
  apply (risk_level_monotone (1 / 131072) 10 365); try lra.
  split; [lra|].
  apply Rlt_trans with (powerRZ 2 9); [simpl; lra|].
  apply pow2_lt. lia.
Defined.

End risk_handler_facts.

(** ** A query outside the altitudes of the table *)

Module risk_out_of_range_facts.

Import risk.
Local Open Scope Q_scope.






Section OutOfRange.

(** A table with separated grid lines in the requested size bin, a query
    whose altitude lies beyond the altitude [edge] of the outermost grid
    line, above the highest or below the lowest, and whose inclination lies
    strictly inside a cell [i1 < i2] of the grid; the bin has a row on the
    outermost line on either inclination line. *)
Variables (rows : list row) (alt inc size_min_cm size_max_cm edge i1 i2 : Q).
Let cands := size_bin size_min_cm size_max_cm rows.
Hypothesis Hsa : separated alt_km cands.
Hypothesis Hsi : separated inc_deg cands.
Hypothesis C1 : exists r, In r cands /\ alt_km r == edge /\ inc_deg r == i1.
Hypothesis C2 : exists r, In r cands /\ alt_km r == edge /\ inc_deg r == i2.
Hypothesis Hout :
  (edge < alt /\ forall r, In r cands -> alt_km r <= edge)
  \/ (alt < edge /\ forall r, In r cands -> edge <= alt_km r).
Hypothesis Hinc : i1 < inc /\ inc < i2.
Hypothesis Hadj_i : forall r, In r cands -> inc_deg r <= i1 \/ i2 <= inc_deg r.




End OutOfRange.



End risk_out_of_range_facts.

(** ** The latest Kp measurement *)

Module nasa_facts.

Import nasa.
Local Open Scope Z_scope.

Section Clock.

Variable fromisoformat : string -> option datetime.

Abbreviation visit := (nasa.visit fromisoformat).
Abbreviation visit_all := (nasa.visit_all fromisoformat).
Abbreviation scan := (nasa.scan fromisoformat).
Abbreviation time_of := (nasa.time_of fromisoformat).
Abbreviation reading := (nasa.reading fromisoformat).
Abbreviation pick := (nasa.pick fromisoformat).
Abbreviation first_latest := (nasa.first_latest fromisoformat).

Lemma reading_time (kp : kp_entry) (obs : string) (val : Q) (t : datetime) :
  reading kp = Some (obs, val, t) ->
  observedTime kp = Some obs /\ kpIndex kp = Some val /\ time_of kp = Some t.
Proof.
  unfold reading.
  destruct (observedTime kp), (kpIndex kp), (time_of kp); try discriminate.
  intros H. injection H as -> -> ->. auto.
Qed.

Lemma reading_none (kp : kp_entry) : reading kp = None <-> time_of kp = None.
Proof.
  unfold reading, time_of, nasa.time_of.
  destruct (observedTime kp) as [obs|], (kpIndex kp) as [val|];
    try (split; reflexivity).
  destruct (if pystr.truthy obs then fromisoformat (replace_Z obs) else None);
    split; intros H; try discriminate; reflexivity.
Qed.

Lemma reading_of_time (kp : kp_entry) (t : datetime) :
  time_of kp = Some t ->
  exists obs val, reading kp = Some (obs, val, t).
Proof.
  intros H. unfold reading. rewrite H.
  unfold time_of, nasa.time_of in H.
  destruct (observedTime kp) as [obs|], (kpIndex kp) as [val|];
    try discriminate.
  now exists obs, val.
Qed.

Lemma visit_skip (st : state) (kp : kp_entry) :
  reading kp = None -> visit st kp = Ok st.
Proof.
  intros H. apply reading_none in H.
  unfold time_of, nasa.time_of in H. unfold visit, nasa.visit.
  destruct (observedTime kp) as [obs|], (kpIndex kp) as [val|];
    try reflexivity.
  destruct (pystr.truthy obs); [|reflexivity]. now rewrite H.
Qed.

Lemma visit_reading (st : state) (kp : kp_entry) (obs : string) (val : Q)
    (t : datetime) :
  reading kp = Some (obs, val, t) ->
  visit st kp
  = match latest_time st with
    | None => Ok (mkState (Some (obs, val)) (Some t))
    | Some lt =>
        if Bool.eqb (aware t) (aware lt) then
          if instant lt <? instant t
          then Ok (mkState (Some (obs, val)) (Some t)) else Ok st
        else Raise TypeError
    end.
Proof.
  intros H. apply reading_time in H. destruct H as (Ho & Hv & Ht).
  unfold time_of, nasa.time_of in Ht. unfold visit, nasa.visit.
  rewrite Ho, Hv in *.
  destruct (pystr.truthy obs); [|discriminate]. rewrite Ht.
  destruct (latest_time st) as [lt|]; [|reflexivity].
  unfold gt. destruct (Bool.eqb (aware t) (aware lt)); [|reflexivity].
  cbn [bind]. now destruct (instant lt <? instant t).
Qed.

Lemma visit_all_app (st : state) (l1 l2 : list kp_entry) :
  visit_all st (l1 ++ l2)
  = let* st' := visit_all st l1 in visit_all st' l2.
Proof.
  revert st. induction l1 as [|kp l1 IH]; intros st; [reflexivity|].
  cbn [app nasa.visit_all]. destruct (visit st kp) as [st'|e]; [|reflexivity].
  cbn [bind]. apply IH.
Qed.

Lemma scan_measurements (st : state) (events : list event) :
  scan st events = visit_all st (measurements events).
Proof.
  revert st. induction events as [|e events IH]; intros st; [reflexivity|].
  cbn [nasa.scan measurements flat_map]. rewrite visit_all_app.
  destruct (visit_all st (entries e)) as [st'|x]; [|reflexivity].
  cbn [bind]. apply IH.
Qed.

(** *** One kind of time *)

Lemma pick_kind (b : bool) (cur : option (string * Q * datetime)) (kp : kp_entry) :
  kind_of cur b ->
  (forall t, time_of kp = Some t -> aware t = b) ->
  kind_of (pick cur kp) b.
Proof.
  intros Hc Hk. unfold pick.
  destruct (reading kp) as [[[obs val] t]|] eqn:E; [|exact Hc].
  apply reading_time in E. destruct E as (_ & _ & Ht).
  destruct cur as [[[o v] lt]|]; [|exact (Hk t Ht)].
  destruct (instant lt <? instant t); [exact (Hk t Ht)|exact Hc].
Qed.

Lemma visit_all_pick (b : bool) (ms : list kp_entry) :
  (forall kp t, In kp ms -> time_of kp = Some t -> aware t = b) ->
  forall cur, kind_of cur b ->
    visit_all (state_of cur) ms = Ok (state_of (fold_left pick ms cur)).
Proof.
  induction ms as [|kp ms IH]; intros Hk cur Hc; [reflexivity|].
  cbn [nasa.visit_all fold_left].
  assert (Hstep : visit (state_of cur) kp = Ok (state_of (pick cur kp))).
  { unfold pick. destruct (reading kp) as [[[obs val] t]|] eqn:E.
    - rewrite (visit_reading _ _ _ _ _ E).
      apply reading_time in E. destruct E as (_ & _ & Ht).
      destruct cur as [[[o v] lt]|]; [|reflexivity].
      cbn [state_of latest_time]. simpl in Hc.
      rewrite (Hk kp t (or_introl eq_refl) Ht), Hc, Bool.eqb_reflx.
      now destruct (instant lt <? instant t).
    - now apply visit_skip. }
  rewrite Hstep. cbn [bind]. apply IH.
  - intros kp' t' Hin. apply Hk. now right.
  - apply pick_kind; [exact Hc|]. intros t. apply Hk. now left.
Qed.

Lemma fold_pick_first_latest (ms : list kp_entry) :
  first_latest ms (fold_left pick ms None).
Proof.
  induction ms as [|kp ms IH] using rev_ind; [intros kp []|].
  rewrite fold_left_app. cbn [fold_left].
  set (cur := fold_left pick ms None) in *.
  unfold pick. destruct (reading kp) as [[[obs val] t]|] eqn:E.
  - apply reading_time in E. destruct E as (Ho & Hv & Ht).
    destruct cur as [[[o v] lt]|].
    + destruct IH as (before & after & k & Hms & Hko & Hkv & Hkt & Hb & Ha).
      destruct (Z.ltb_spec (instant lt) (instant t)) as [Hlt|Hge].
      * exists ms, [], kp. repeat split; try assumption.
        -- intros kp' t' Hin Ht'. rewrite Hms in Hin.
           apply in_app_or in Hin. destruct Hin as [Hin|[<-|Hin]].
           ++ specialize (Hb kp' t' Hin Ht'). lia.
           ++ rewrite Hkt in Ht'. injection Ht' as <-. exact Hlt.
           ++ specialize (Ha kp' t' Hin Ht'). lia.
        -- intros kp' t' [].
      * exists before, (after ++ [kp])%list, k.
        repeat split; try assumption.
        -- rewrite Hms, <- app_assoc. reflexivity.
        -- intros kp' t' Hin Ht'. apply in_app_or in Hin.
           destruct Hin as [Hin|[<-|[]]]; [now apply (Ha kp' t')|].
           rewrite Ht in Ht'. injection Ht' as <-. exact Hge.
    + exists ms, [], kp. repeat split; try assumption.
      * intros kp' t' Hin Ht'. simpl in IH.
        rewrite (IH kp' Hin) in Ht'. discriminate.
      * intros kp' t' [].
  - apply reading_none in E.
    destruct cur as [[[o v] lt]|].
    + destruct IH as (before & after & k & Hms & Hko & Hkv & Hkt & Hb & Ha).
      exists before, (after ++ [kp])%list, k.
      repeat split; try assumption.
      * rewrite Hms, <- app_assoc. reflexivity.
      * intros kp' t' Hin Ht'. apply in_app_or in Hin.
        destruct Hin as [Hin|[<-|[]]]; [now apply (Ha kp' t')|].
        rewrite E in Ht'. discriminate.
    + intros kp' Hin. apply in_app_or in Hin.
      destruct Hin as [Hin|[<-|[]]]; [now apply IH|exact E].
Qed.

Lemma latest_kp_index_first_latest (b : bool) (events : list event) :
  (forall kp t, In kp (measurements events) -> time_of kp = Some t ->
     aware t = b) ->
  exists r : option (string * Q * datetime),
    latest_kp_index fromisoformat events
    = Ok (option_map (fun x => (fst (fst x), snd (fst x))) r)
    /\ first_latest (measurements events) r.
Proof.
  intros Hk. exists (fold_left pick (measurements events) None).
  split; [|apply fold_pick_first_latest].
  unfold latest_kp_index. rewrite scan_measurements.
  change (mkState None None) with (state_of None).
  rewrite (visit_all_pick b _ Hk None I). cbn [bind].
  now destruct (fold_left pick (measurements events) None) as [[[o v] t]|].
Qed.

(** *** Two kinds of time *)

Lemma visit_all_other_kind (ms : list kp_entry) :
  forall (cur : string * Q * datetime) (kp : kp_entry) (t : datetime),
    In kp ms -> time_of kp = Some t -> aware t <> aware (snd cur) ->
    visit_all (state_of (Some cur)) ms = Raise TypeError.
Proof.
  induction ms as [|k ms IH]; intros [[o v] lt] kp t Hin Ht Hne; [destruct Hin|].
  cbn [snd] in Hne. cbn [nasa.visit_all].
  destruct (reading k) as [[[obs val] tk]|] eqn:E.
  - rewrite (visit_reading _ _ _ _ _ E). cbn [state_of latest_time].
    apply reading_time in E. destruct E as (_ & _ & Htk).
    destruct (Bool.eqb (aware tk) (aware lt)) eqn:Ek; [|reflexivity].
    apply Bool.eqb_prop in Ek.
    assert (Hin' : In kp ms).
    { destruct Hin as [<-|Hin]; [|exact Hin].
      rewrite Htk in Ht. injection Ht as <-. congruence. }
    destruct (instant lt <? instant tk); cbn [bind].
    + apply (IH (obs, val, tk) kp t Hin' Ht). cbn [snd]. congruence.
    + apply (IH (o, v, lt) kp t Hin' Ht). exact Hne.
  - rewrite visit_skip by exact E. cbn [bind].
    assert (Hin' : In kp ms).
    { destruct Hin as [<-|Hin]; [|exact Hin].
      apply reading_none in E. congruence. }
    apply (IH (o, v, lt) kp t Hin' Ht). exact Hne.
Qed.

Lemma visit_all_two_kinds (ms : list kp_entry) (kp1 kp2 : kp_entry)
    (t1 t2 : datetime) :
  In kp1 ms -> In kp2 ms ->
  time_of kp1 = Some t1 -> time_of kp2 = Some t2 ->
  aware t1 <> aware t2 ->
  visit_all (state_of None) ms = Raise TypeError.
Proof.
  induction ms as [|k ms IH]; intros H1 H2 Ht1 Ht2 Hne; [destruct H1|].
  cbn [nasa.visit_all].
  destruct (reading k) as [[[obs val] tk]|] eqn:E.
  - rewrite (visit_reading _ _ _ _ _ E). cbn [state_of latest_time bind].
    apply reading_time in E. destruct E as (_ & _ & Htk).
    change (mkState (Some (obs, val)) (Some tk))
      with (state_of (Some (obs, val, tk))).
    destruct (Bool.bool_dec (aware t1) (aware tk)) as [E1|N1].
    + assert (N2 : aware t2 <> aware tk) by congruence.
      assert (Hin : In kp2 ms).
      { destruct H2 as [<-|H2]; [|exact H2].
        rewrite Htk in Ht2. injection Ht2 as <-. congruence. }
      exact (visit_all_other_kind ms (obs, val, tk) kp2 t2 Hin Ht2 N2).
    + assert (Hin : In kp1 ms).
      { destruct H1 as [<-|H1]; [|exact H1].
        rewrite Htk in Ht1. injection Ht1 as <-. congruence. }
      exact (visit_all_other_kind ms (obs, val, tk) kp1 t1 Hin Ht1 N1).
  - rewrite visit_skip by exact E. cbn [bind].
    apply reading_none in E.
    apply IH; try assumption.
    + destruct H1 as [<-|H1]; [congruence|exact H1].
    + destruct H2 as [<-|H2]; [congruence|exact H2].
Qed.

(** X27.  When the times that the events carry are all of one kind, with an
    offset or without, the function returns the first of the measurements
    with the latest time, and [None] exactly when no measurement has a
    non-empty time that parses and a value; a value of 0 counts. *)
Theorem latest_kp_index_is_first_latest (b : bool) (events : list event) :
  (forall kp t, In kp (measurements events) -> time_of kp = Some t ->
     aware t = b) ->
  exists r : option (string * Q),
    latest_kp_index fromisoformat events = Ok r
    /\ match r with
       | None => forall kp, In kp (measurements events) -> time_of kp = None
       | Some (obs, val) =>
           exists (before after : list kp_entry) (kp : kp_entry) (t : datetime),
             measurements events = (before ++ kp :: after)%list
             /\ observedTime kp = Some obs /\ kpIndex kp = Some val
             /\ time_of kp = Some t
             /\ (forall kp' t', In kp' before -> time_of kp' = Some t' ->
                   instant t' < instant t)
             /\ (forall kp' t', In kp' after -> time_of kp' = Some t' ->
                   instant t' <= instant t)
       end.
Proof.
  intros Hk.
  destruct (latest_kp_index_first_latest b events Hk) as (r & Hrun & Hr).
  eexists. split; [exact Hrun|].
  destruct r as [[[obs val] t]|]; cbn [option_map fst snd]; [|exact Hr].
  destruct Hr as (before & after & kp & H). now exists before, after, kp, t.
Qed.

(** X28.  When two of the measurements that count carry times of different
    kinds, one with an offset and one without, the comparison of the two
    kinds, which is outside the [try], ends the call in TypeError. *)
Theorem latest_kp_index_mixed_times_raise (events : list event)
    (kp1 kp2 : kp_entry) (t1 t2 : datetime) :
  In kp1 (measurements events) -> In kp2 (measurements events) ->
  time_of kp1 = Some t1 -> time_of kp2 = Some t2 ->
  aware t1 <> aware t2 ->
  latest_kp_index fromisoformat events = Raise TypeError.
Proof.
  intros H1 H2 Ht1 Ht2 Hne.
  unfold latest_kp_index. rewrite scan_measurements.
  change (mkState None None) with (state_of None).
  now rewrite (visit_all_two_kinds _ kp1 kp2 t1 t2 H1 H2 Ht1 Ht2 Hne).
Qed.

End Clock.

Local Open Scope string_scope.

Lemma latest_kp_index_is_first_latest_witness :
  exists r : option (string * Q),
    latest_kp_index sample_clock sample_events = Ok r
    /\ match r with
       | None =>
           forall kp, In kp (measurements sample_events) ->
                      nasa.time_of sample_clock kp = None
       | Some (obs, val) =>
           exists (before after : list kp_entry) (kp : kp_entry) (t : datetime),
             measurements sample_events = (before ++ kp :: after)%list
             /\ observedTime kp = Some obs /\ kpIndex kp = Some val
             /\ nasa.time_of sample_clock kp = Some t
             /\ (forall kp' t', In kp' before ->
                   nasa.time_of sample_clock kp' = Some t' ->
                   instant t' < instant t)
             /\ (forall kp' t', In kp' after ->
                   nasa.time_of sample_clock kp' = Some t' ->
                   instant t' <= instant t)
       end.
Proof.
  apply (latest_kp_index_is_first_latest sample_clock true sample_events).
  intros kp t Hin Ht. vm_compute in Hin.
  repeat (destruct Hin as [<-|Hin];
          [vm_compute in Ht; try discriminate; now injection Ht as <-|]).
  destruct Hin.
Defined.

Lemma latest_kp_index_mixed_times_raise_witness :
  latest_kp_index sample_clock
    [mkEvent (Some [mkKp (Some "2024-05-10T15:00Z") (Some (6 # 1));
                    mkKp (Some "2024-05-10T18:00") (Some (5 # 1))])]
  = Raise TypeError.
Proof.
  apply (latest_kp_index_mixed_times_raise sample_clock _
           (mkKp (Some "2024-05-10T15:00Z"%string) (Some (6 # 1)%Q))
           (mkKp (Some "2024-05-10T18:00"%string) (Some (5 # 1)%Q))
           (mkDatetime 22 true) (mkDatetime 16 false)).
  - simpl. auto.
  - simpl. auto.
  - vm_compute. reflexivity.
  - vm_compute. reflexivity.
  - discriminate.
Defined.

End nasa_facts.
